(** * Image optimizer plugin: variant pipeline

    A shallow embedding of [src/index.ts] (the frame-master image optimizer
    plugin) and the properties of its variant pipeline: output naming,
    staleness detection, variant generation, the batch orchestrator and the
    on-the-fly route; then the rest of the plugin: the manifest file across
    restarts, the command line, the file watcher, the manifest helpers, the
    [src] method of imported images, and [buildVariantUrl] of
    [src/utils.ts].

    Conventions of the embedding.
    - A JavaScript string is modelled by a [string] whose characters are
      its UTF-16 code units, all below 256 (the Latin-1 range): names with
      other characters are outside this development.  The string primitives
      used by the source ([lastIndexOf], [slice], [toLowerCase]) are written
      out with their JavaScript corner cases (a missing needle gives [-1],
      negative indices count from the end).
    - Pixel sizes are integers ([Z]).  The aspect-ratio arithmetic is done in
      IEEE-754 binary64, as JavaScript does it, through [SpecFloat].
    - The plugin closure state ([manifest], [isProcessing]) and the output
      tree are threaded explicitly through a small state-and-exception monad;
      the file system outside the output tree, the image decoder and the
      encoder are read-only oracles gathered in [World].
    - Modification times are integers that are only ever compared; every
      file written during a run carries the time [now] passed to the run.
    - A number that may be [NaN] (the result of [parseInt], a size derived
      from it) is an [option Z] with [None] for [NaN].
    - The manifest given to the helpers is a plain object: a key it does not
      own is looked up in [Object.prototype].
    - The URL parser is modelled on the paths it leaves as they are (plain
      segments); a request carries the path as the parser gives it. *)

From Stdlib Require Import ZArith Ascii Floats.SpecFloat.
From stdpp Require Import gmap strings list fin_maps pretty.

Local Open Scope Z_scope.

(** ** JavaScript string primitives *)

Module JsString.

(** [s.lastIndexOf(c)] for a one-character needle: the index of the last
    occurrence, [-1] when there is none. *)
Fixpoint lastIndexOf_from (c : ascii) (s : string) (i acc : Z) : Z :=
  match s with
  | EmptyString => acc
  | String a s' =>
      lastIndexOf_from c s' (i + 1) (if Ascii.eqb a c then i else acc)
  end.

Definition lastIndexOf (s : string) (c : ascii) : Z :=
  lastIndexOf_from c s 0 (-1).

Definition len (s : string) : Z := Z.of_nat (String.length s).

(** Index normalisation of [String.prototype.slice]: a negative index
    counts from the end, and everything is clamped to [0 .. length]. *)
Definition clamp_index (s : string) (i : Z) : Z :=
  if i <? 0 then Z.max (len s + i) 0 else Z.min i (len s).

(** [s.slice(start, end)] *)
Definition slice (s : string) (start end_ : Z) : string :=
  let from := clamp_index s start in
  let to := clamp_index s end_ in
  String.substring (Z.to_nat from) (Z.to_nat (Z.max (to - from) 0)) s.

(** [s.slice(start)] *)
Definition slice_from (s : string) (start : Z) : string :=
  slice s start (len s).

(** The lower-case mapping of one code unit below 256: the letters [A-Z]
    and the Latin-1 capitals U+00C0 to U+00DE, the multiplication sign U+00D7
    apart, move up by 32; every other unit is kept. *)
Definition lower_ascii (a : ascii) : ascii :=
  let n := nat_of_ascii a in
  if ((65 <=? n)%nat && (n <=? 90)%nat)%bool
     || ((192 <=? n)%nat && (n <=? 222)%nat && negb (n =? 215)%nat)%bool
  then ascii_of_nat (n + 32) else a.

(** [s.toLowerCase()]: on code units below 256 it maps unit by unit and
    keeps the length. *)
Fixpoint toLowerCase (s : string) : string :=
  match s with
  | EmptyString => EmptyString
  | String a s' => String (lower_ascii a) (toLowerCase s')
  end.

Definition is_digit (a : ascii) : bool :=
  let n := nat_of_ascii a in ((48 <=? n)%nat && (n <=? 57)%nat)%bool.

Definition digit_value (a : ascii) : Z := Z.of_nat (nat_of_ascii a) - 48.

End JsString.

Import JsString.

(** ** JavaScript numbers *)

Module JsNumber.

(** binary64 *)
Definition prec : Z := 53.
Definition emax : Z := 1024.

(** An integer as a double (rounded to nearest even beyond 2^53). *)
Definition of_Z (z : Z) : spec_float := binary_normalize prec emax z 0 false.

Definition fdiv : spec_float → spec_float → spec_float := SFdiv prec emax.
Definition fmul : spec_float → spec_float → spec_float := SFmul prec emax.

(** [Math.round]: the nearest integer, ties towards +infinity, computed
    exactly from mantissa and exponent.  Zeros give [0]; the non-finite
    cases are mapped to [0] too: they are not reachable from the pixel
    sizes this development feeds in. *)
Definition Math_round (x : spec_float) : Z :=
  match x with
  | S754_finite s m e =>
      let n := if s then Z.neg m else Z.pos m in
      if 0 <=? e then n * 2 ^ e
      else (2 * n + 2 ^ (- e)) `div` 2 ^ (- e + 1)
  | _ => 0
  end.

(** The mathematical rounding the specification writes,
    [round (a * b / c)] with ties upwards, on exact integers. *)
Definition round_div (num den : Z) : Z := (2 * num + den) `div` (2 * den).

End JsNumber.

Import JsNumber.

(** ** Path resolver *)

Definition SUPPORTED_EXTENSIONS : list string :=
  [".jpg"; ".jpeg"; ".png"; ".gif"; ".webp"; ".avif"; ".tiff"; ".svg"].

Definition isImageFile (filename : string) : bool :=
  let ext := slice_from (toLowerCase filename) (lastIndexOf filename ".") in
  bool_decide (ext ∈ SUPPORTED_EXTENSIONS).

Definition getOutputFilename (originalName : string) (width : Z)
    (format : string) : string :=
  let baseName := slice originalName 0 (lastIndexOf originalName ".") in
  baseName +:+ "-" +:+ pretty width +:+ "w." +:+ format.

(** ** Data model *)

(** The target formats of the configuration
    ([("webp" | "avif" | "png" | "jpeg")[]]). *)
Inductive Format := webp | avif | jpeg | png.

Definition format_name (f : Format) : string :=
  match f with
  | webp => "webp" | avif => "avif" | jpeg => "jpeg" | png => "png"
  end.

Record Variant := mkVariant {
  v_format : string;
  v_size : Z;
  v_path : string;
  v_width : Z;
  v_height : Z;
}.

Record ImageManifestEntry := mkEntry {
  e_original : string;
  e_width : Z;
  e_height : Z;
  e_variants : list Variant;
}.

Record ImageManifest := mkManifest {
  generatedAt : Z;
  images : gmap string ImageManifestEntry;
}.

(** The merged configuration of [ImageOptimizerPlugin] (the fields the
    pipeline reads). *)
Record Config := mkConfig {
  publicPath : string;
  formats : list Format;
  sizes : list Z;
  quality : Z;
  generateManifest : bool;
  keepOriginal : bool;
  skipExisting : bool;
}.

Definition default_config : Config :=
  {| publicPath := "/optimized"; formats := [webp]; sizes := [320; 640; 1280];
     quality := 80; generateManifest := true; keepOriginal := false;
     skipExisting := true |}.

(** ** The environment *)

(** What [sharp(path).metadata()] resolves to. *)
Record Metadata := mkMetadata {
  m_width : option Z;
  m_height : option Z;
  m_format : option string;
}.

(** A file of the input tree: its modification time ([stat().mtimeMs]) and
    what the decoder makes of it ([None]: [metadata()] rejects). *)
Record SrcFile := mkSrc {
  mtimeMs : Z;
  metadata : option Metadata;
}.

(** What the encoder delivers, symbolically: the source, the target size,
    the encoder attached to the pipeline ([None]: the resize alone) and the
    quality; or a verbatim copy of an original. *)
Inductive Content :=
  | Encoded (src : string) (w h : option Z) (fmt : option Format) (q : option Z)
  | CopyOf (src : string).

Record OutFile := mkOut {
  o_mtime : Z;
  o_content : Content;
}.

(** Everything the plugin consults but does not own, as one run finds it.
    The input tree is what the input directory holds when the run starts,
    keyed by the path relative to the input directory; [join] of a root and a
    relative path is identified with the relative path.  The output tree is
    part of the state.  With the input and the output directory apart no
    write of the plugin reaches the input tree.  When the output directory
    lies inside the input directory, the files written by one run are in
    the input tree of the next: [diskAfter] below. *)
Record World := mkWorld {
  inputDirExists : bool;
  readdirOk : bool;
  inputTree : gmap string SrcFile;
  mkdirOk : string → bool;
  (** does [pipeline.toFile] / [pipeline.toBuffer] succeed for this source,
      target size, encoder and quality *)
  encodeOk : string → option Z → option Z → option Format → option Z → bool;
  (** does [Bun.write] to this path of the output tree succeed *)
  writeOk : string → bool;
  (** [Bun.file(path).type] *)
  fileType : string → string;
}.

Inductive Error :=
  | ErrMkdir (dir : string)
  | ErrReaddir
  | ErrDecode (path : string)
  | ErrEncode (src : string)
  | ErrWrite (path : string).

(** Messages of [logError]. *)
Inductive ErrorLog :=
  | LogNoMetadata (relativePath : string)
  | LogProcessFailed (relativePath : string) (err : Error)
  | LogInputMissing
  | LogBatchFailed (err : Error)
  | LogOnTheFlyFailed (relativePath : string) (err : Error).

(** Observable effects, newest first in [trace]: every call of the encoder
    ([toFile] in the generator, [toBuffer] on the fly) with its outcome, and
    every [logError]. *)
Inductive Event :=
  | EvEncode (src : string) (w h : option Z) (fmt : option Format)
      (out : option string) (ok : bool)
  | EvError (msg : ErrorLog).

(** The closure state of the plugin together with the output tree. *)
Record State := mkState {
  manifest : ImageManifest;
  isProcessing : bool;
  outTree : gmap string OutFile;
  manifestJson : option ImageManifest;
  trace : list Event;
}.

Definition initial_state : State :=
  {| manifest := {| generatedAt := 0; images := ∅ |}; isProcessing := false;
     outTree := ∅; manifestJson := None; trace := [] |}.

Definition set_manifest (m : ImageManifest) (st : State) : State :=
  {| manifest := m; isProcessing := isProcessing st; outTree := outTree st;
     manifestJson := manifestJson st; trace := trace st |}.

Definition set_isProcessing (b : bool) (st : State) : State :=
  {| manifest := manifest st; isProcessing := b; outTree := outTree st;
     manifestJson := manifestJson st; trace := trace st |}.

Definition set_outTree (t : gmap string OutFile) (st : State) : State :=
  {| manifest := manifest st; isProcessing := isProcessing st; outTree := t;
     manifestJson := manifestJson st; trace := trace st |}.

Definition set_manifestJson (m : option ImageManifest) (st : State) : State :=
  {| manifest := manifest st; isProcessing := isProcessing st;
     outTree := outTree st; manifestJson := m; trace := trace st |}.

Definition add_event (ev : Event) (st : State) : State :=
  {| manifest := manifest st; isProcessing := isProcessing st;
     outTree := outTree st; manifestJson := manifestJson st;
     trace := ev :: trace st |}.

(** ** State and exceptions *)

Inductive Outcome (A : Type) :=
  | Ret (a : A)
  | Throw (e : Error).
Arguments Ret {A} a.
Arguments Throw {A} e.

Definition M (A : Type) : Type := State → Outcome A * State.

Global Instance M_ret : MRet M := λ A a st, (Ret a, st).

Global Instance M_bind : MBind M := λ A B f m st,
  match m st with
  | (Ret a, st') => f a st'
  | (Throw e, st') => (Throw e, st')
  end.

Definition throw {A} (e : Error) : M A := λ st, (Throw e, st).
Definition get : M State := λ st, (Ret st, st).
Definition modify (f : State → State) : M unit := λ st, (Ret tt, f st).

(** [try { body } catch (err) { handler(err) }] *)
Definition try_catch {A} (body : M A) (handler : Error → M A) : M A := λ st,
  match body st with
  | (Ret a, st') => (Ret a, st')
  | (Throw e, st') => handler e st'
  end.

(** [for (const x of l) { acc = body(acc, x) }] *)
Fixpoint foldM {A B} (body : B → A → M B) (acc : B) (l : list A) : M B :=
  match l with
  | [] => mret acc
  | x :: l' => acc' ← body acc x; foldM body acc' l'
  end.

Definition forM {A} (l : list A) (body : A → M unit) : M unit :=
  foldM (λ _ x, body x) tt l.

Definition logError (msg : ErrorLog) : M unit := modify (add_event (EvError msg)).

(** ** The pipeline *)

(** The directory part of a path relative to a root; [""] is the root. *)
Definition parentDir (rel : string) : string :=
  let i := lastIndexOf rel "/" in
  if i <? 0 then "" else slice rel 0 i.

Definition basename (rel : string) : string :=
  slice_from rel (lastIndexOf rel "/" + 1).

(** [!x] on an optional number is false exactly for a non-zero number. *)
Definition truthy (x : option Z) : option Z :=
  match x with
  | Some z => if z =? 0 then None else Some z
  | None => None
  end.

(** [Math.round(targetWidth * aspectRatio)] with
    [aspectRatio = originalHeight / originalWidth], evaluated in doubles in
    the order the source evaluates it. *)
Definition aspectRatio (originalWidth originalHeight : Z) : spec_float :=
  fdiv (of_Z originalHeight) (of_Z originalWidth).

Definition targetHeightOf (targetWidth originalWidth originalHeight : Z) : Z :=
  Math_round (fmul (of_Z targetWidth) (aspectRatio originalWidth originalHeight)).

Section Pipeline.

Context (W : World) (cfg : Config).

Definition fileExists (path : string) (st : State) : bool :=
  bool_decide (is_Some (outTree st !! path)).

Definition ensureDir (dir : string) : M unit :=
  if mkdirOk W dir then mret tt else throw (ErrMkdir dir).

(** What the recursive scan of [getImageFiles] collects, on the flattened
    input tree: the relative paths whose file name is an image name. *)
Definition scanImages : list string :=
  filter (λ rel, isImageFile (basename rel) = true) (map_to_list (inputTree W)).*1.

Definition getImageFiles : M (list string) :=
  if readdirOk W then mret scanImages else throw ErrReaddir.

(** *** Staleness detector *)

Definition needsProcessing (relativePath : string) (st : State) : bool :=
  match images (manifest st) !! relativePath with
  | None => true
  | Some manifestEntry =>
      match e_variants manifestEntry with
      | [] => true
      | firstVariant :: _ =>
          if existsb (λ variant, negb (fileExists (v_path variant) st))
               (e_variants manifestEntry)
          then true
          else
            (* try { stat(inputPath); stat(outputPath) } catch { return true } *)
            match inputTree W !! relativePath,
                  outTree st !! v_path firstVariant with
            | Some inputStat, Some outputStat =>
                mtimeMs inputStat >? o_mtime outputStat
            | _, _ => true
            end
      end
  end.

(** *** Variant generator *)

Definition sharp_metadata (relativePath : string) : M Metadata :=
  match inputTree W !! relativePath with
  | Some {| metadata := Some md |} => mret md
  | _ => throw (ErrDecode relativePath)
  end.

(** [await pipeline.toFile(outputPath)] *)
Definition toFile (now : Z) (src : string) (w h : Z) (fmt : Format)
    (out : string) : M unit := λ st,
  if encodeOk W src (Some w) (Some h) (Some fmt) (Some (quality cfg))
  then (Ret tt,
        add_event (EvEncode src (Some w) (Some h) (Some fmt) (Some out) true)
          (set_outTree
             (<[out := mkOut now
                  (Encoded src (Some w) (Some h) (Some fmt) (Some (quality cfg)))]>
                (outTree st)) st))
  else (Throw (ErrEncode src),
        add_event (EvEncode src (Some w) (Some h) (Some fmt) (Some out) false) st).

(** The body of the inner loop: one (width, format) pair. *)
Definition processFormat (now : Z) (relativePath : string)
    (targetWidth targetHeight : Z) (variants : list Variant)
    (format : Format) : M (list Variant) :=
  let outputFilename :=
    getOutputFilename relativePath targetWidth (format_name format) in
  let variant :=
    {| v_format := format_name format; v_size := targetWidth;
       v_path := outputFilename; v_width := targetWidth;
       v_height := targetHeight |} in
  st ← get;
  if skipExisting cfg && fileExists outputFilename st
  then mret (variants ++ [variant])
  else
    _ ← ensureDir (parentDir outputFilename);
    _ ← toFile now relativePath targetWidth targetHeight format outputFilename;
    mret (variants ++ [variant]).

(** The body of the outer loop: one configured width. *)
Definition processSize (now : Z) (relativePath : string)
    (originalWidth originalHeight : Z) (variants : list Variant)
    (targetWidth : Z) : M (list Variant) :=
  if targetWidth >? originalWidth
  then mret variants
  else
    let targetHeight :=
      targetHeightOf targetWidth originalWidth originalHeight in
    foldM (processFormat now relativePath targetWidth targetHeight)
      variants (formats cfg).

Definition copyOriginal (now : Z) (relativePath : string) : M unit :=
  _ ← ensureDir (parentDir relativePath);
  if writeOk W relativePath
  then modify (λ st,
         set_outTree
           (<[relativePath := mkOut now (CopyOf relativePath)]> (outTree st)) st)
  else throw (ErrWrite relativePath).

Definition set_entry (relativePath : string) (e : ImageManifestEntry)
    (st : State) : State :=
  set_manifest
    {| generatedAt := generatedAt (manifest st);
       images := <[relativePath := e]> (images (manifest st)) |} st.

Definition processImage (now : Z) (relativePath : string) : M unit :=
  _ ← ensureDir (parentDir relativePath);
  try_catch
    (md ← sharp_metadata relativePath;
     match truthy (m_width md), truthy (m_height md) with
     | Some originalWidth, Some originalHeight =>
         variants ← foldM
           (processSize now relativePath originalWidth originalHeight)
           [] (sizes cfg);
         _ ← (if keepOriginal cfg then copyOriginal now relativePath
              else mret tt);
         modify (set_entry relativePath
                   {| e_original := relativePath; e_width := originalWidth;
                      e_height := originalHeight; e_variants := variants |})
     | _, _ => logError (LogNoMetadata relativePath)
     end)
    (λ err, logError (LogProcessFailed relativePath err)).

(** *** Batch orchestrator *)

Definition writeManifest (now : Z) : M unit :=
  _ ← modify (λ st,
        set_manifest {| generatedAt := now;
                        images := images (manifest st) |} st);
  if writeOk W "manifest.json"
  then modify (λ st, set_manifestJson (Some (manifest st)) st)
  else throw (ErrWrite "manifest.json").

(** The [try] block of [processAllImages]. *)
Definition processAllImages_body (now : Z) (forceAll : bool) : M unit :=
  if negb (inputDirExists W) then logError LogInputMissing
  else
    imageFiles ← getImageFiles;
    match imageFiles with
    | [] => mret tt
    | _ :: _ =>
        _ ← ensureDir "";
        st ← get;
        let filesToProcess :=
          if forceAll then imageFiles
          else filter (λ file, needsProcessing file st = true) imageFiles in
        if negb forceAll && bool_decide (filesToProcess = [])
        then mret tt
        else
          _ ← forM filesToProcess (processImage now);
          if generateManifest cfg then writeManifest now else mret tt
    end.

(** [processAllImages]: guard, [try]/[catch]/[finally]. *)
Definition processAllImages (now : Z) (forceAll : bool) (st : State) : State :=
  if isProcessing st then st
  else
    let '(r, st') := processAllImages_body now forceAll (set_isProcessing true st) in
    let st'' :=
      match r with
      | Ret _ => st'
      | Throw err => add_event (EvError (LogBatchFailed err)) st'
      end in
    set_isProcessing false st''.

End Pipeline.

(** ** On-the-fly resolver *)

(** [parseInt(s, 10)]: optional leading white space and sign, then the
    longest prefix of decimal digits; [None] stands for [NaN]. *)
Definition is_space (a : ascii) : bool :=
  let n := nat_of_ascii a in
  ((n =? 32)%nat || ((9 <=? n)%nat && (n <=? 13)%nat))%bool.

Fixpoint skip_spaces (s : string) : string :=
  match s with
  | String a s' => if is_space a then skip_spaces s' else s
  | EmptyString => s
  end.

Fixpoint parse_digits (s : string) (acc : option Z) : option Z :=
  match s with
  | String a s' =>
      if is_digit a
      then parse_digits s' (Some (10 * default 0 acc + digit_value a))
      else acc
  | EmptyString => acc
  end.

Definition parseInt (s : string) : option Z :=
  match skip_spaces s with
  | String "-" s' => Z.opp <$> parse_digits s' None
  | String "+" s' => parse_digits s' None
  | s' => parse_digits s' None
  end.

(** The longest prefix of digits of a character list, and the rest. *)
Fixpoint span_digits (l : list ascii) : list ascii * list ascii :=
  match l with
  | a :: l' =>
      if is_digit a
      then let '(ds, rest) := span_digits l' in (a :: ds, rest)
      else ([], l)
  | [] => ([], [])
  end.

Definition is_line_terminator (a : ascii) : bool :=
  let n := nat_of_ascii a in ((n =? 10)%nat || (n =? 13)%nat)%bool.

Definition VARIANT_FORMATS : list string :=
  ["webp"; "avif"; "jpeg"; "jpg"; "png"].

(** [relativePath.match(/^(.+)-(\d+)w\.(webp|avif|jpeg|jpg|png)$/i)]: the
    three captured groups.  The format alternatives contain no dot, so the
    dot of the pattern is the last dot of the path; the digits stop at the
    first non-digit to their left, which has to be the dash; the greedy
    first group is everything before that dash, non-empty and free of line
    terminators.  The match is done from the right on the reversed stem. *)
Definition variantMatch (relativePath : string)
    : option (string * string * string) :=
  let i := lastIndexOf relativePath "." in
  if i <? 0 then None
  else
    let format := slice_from relativePath (i + 1) in
    if negb (bool_decide (toLowerCase format ∈ VARIANT_FORMATS)) then None
    else
      match rev (String.list_ascii_of_string (slice relativePath 0 i)) with
      | c :: l =>
          if negb (Ascii.eqb (lower_ascii c) "w") then None
          else
            match span_digits l with
            | (d :: ds, dash :: b :: base) =>
                if Ascii.eqb dash "-" &&
                   forallb (λ a, negb (is_line_terminator a)) (b :: base)
                then Some (String.string_of_list_ascii (rev (b :: base)),
                           String.string_of_list_ascii (rev (d :: ds)),
                           format)
                else None
            | _ => None
            end
      | [] => None
      end.

(** The encoder selected by the [switch] of [optimizeOnTheFly]; [None] is
    the [default] branch, which leaves the pipeline without a conversion. *)
Definition encoderOf (format : string) : option Format :=
  if String.eqb format "webp" then Some webp
  else if String.eqb format "avif" then Some avif
  else if String.eqb format "jpeg" || String.eqb format "jpg" then Some jpeg
  else if String.eqb format "png" then Some png
  else None.

Definition contentTypeOf (format : string) (md : Metadata) : string :=
  match encoderOf format with
  | Some f => "image/" +:+ format_name f
  | None => "image/" +:+ default "jpeg" (m_format md)
  end.

Inductive Body :=
  | BodyText (s : string)
  | BodyOutputFile (path : string)
  | BodyInputFile (path : string)
  | BodyBuffer (buffer : Content).

Record Response := mkResponse {
  status : Z;
  body : Body;
  headers : list (string * string);
}.

(** A request to [${publicPath}/*]: what follows the prefix in the
    [pathname] of its URL, as the URL parser gives it (percent-encoded where
    it encodes, see [pathnameOf]), and the three query parameters as
    [searchParams.get] returns them. *)
Record Request := mkRequest {
  req_path : string;
  req_w : option string;
  req_format : option string;
  req_q : option string;
}.

(** Truthiness of a [string | null]. *)
Definition present (p : option string) : bool :=
  match p with
  | Some s => negb (String.eqb s "")
  | None => false
  end.

Definition CACHE_IMMUTABLE : string := "public, max-age=31536000, immutable".
Definition CACHE_DAY : string := "public, max-age=86400".

Section OnTheFly.

Context (W : World) (cfg : Config).

Definition inputExists (path : string) : bool :=
  bool_decide (is_Some (inputTree W !! path)).

(** [await pipeline.toBuffer()] *)
Definition toBuffer (src : string) (w h : option Z) (fmt : option Format)
    (q : option Z) : M Content := λ st,
  if encodeOk W src w h fmt q
  then (Ret (Encoded src w h fmt q), add_event (EvEncode src w h fmt None true) st)
  else (Throw (ErrEncode src), add_event (EvEncode src w h fmt None false) st).

(** [width] is [number | undefined]: [None] is [undefined] and [Some None]
    is [NaN]. *)
Definition optimizeOnTheFly (relativePath : string) (width : option (option Z))
    (format : string) (quality : option Z) : M (option (Content * string)) :=
  if negb (inputExists relativePath) then mret None
  else
    try_catch
      (md ← sharp_metadata W relativePath;
       match truthy (m_width md), truthy (m_height md) with
       | Some metaWidth, Some metaHeight =>
           let targetWidth := default (Some metaWidth) width in
           let targetHeight :=
             (λ tw, targetHeightOf tw metaWidth metaHeight) <$> targetWidth in
           buffer ← toBuffer relativePath targetWidth targetHeight
                      (encoderOf format) quality;
           mret (Some (buffer, contentTypeOf format md))
       | _, _ => mret None
       end)
      (λ err, _ ← logError (LogOnTheFlyFailed relativePath err); mret None).

Definition CANDIDATE_EXTENSIONS : list string :=
  [".jpg"; ".jpeg"; ".png"; ".webp"; ".avif"].

Definition bunWrite (now : Z) (path : string) (c : Content) : M unit :=
  if writeOk W path
  then modify (λ st, set_outTree (<[path := mkOut now c]> (outTree st)) st)
  else throw (ErrWrite path).

(** The handler of [${publicPath}/*]. *)
Definition route (now : Z) (req : Request) : M Response :=
  let relativePath := req_path req in
  if String.eqb relativePath "" || negb (isImageFile relativePath)
  then mret (mkResponse 404 (BodyText "Not found") [])
  else
    match variantMatch relativePath with
    | Some (basePath, widthStr, format) =>
        st ← get;
        if fileExists relativePath st
        then mret (mkResponse 200 (BodyOutputFile relativePath)
                     [("Content-Type", fileType W relativePath);
                      ("Cache-Control", CACHE_IMMUTABLE)])
        else
          let width := parseInt widthStr in
          match find (λ ext, inputExists (basePath +:+ ext))
                  CANDIDATE_EXTENSIONS with
          | None => mret (mkResponse 404 (BodyText "Source image not found") [])
          | Some ext =>
              let originalPath := basePath +:+ ext in
              result ← optimizeOnTheFly originalPath (Some width) format
                         (Some (quality cfg));
              match result with
              | None =>
                  mret (mkResponse 500 (BodyText "Failed to process image") [])
              | Some (buffer, contentType) =>
                  _ ← ensureDir W (parentDir basePath);
                  _ ← bunWrite now relativePath buffer;
                  mret (mkResponse 200 (BodyBuffer buffer)
                          [("Content-Type", contentType);
                           ("Cache-Control", CACHE_IMMUTABLE)])
              end
          end
    | None =>
        let width :=
          if present (req_w req) then parseInt <$> req_w req else None in
        let format :=
          match req_format req with
          | Some f => f
          | None => default "webp" (format_name <$> head (formats cfg))
          end in
        let quality :=
          if present (req_q req) then default None (parseInt <$> req_q req)
          else Some (quality cfg) in
        if negb (present (req_w req)) && negb (present (req_format req))
           && negb (present (req_q req))
        then
          st ← get;
          if fileExists relativePath st
          then mret (mkResponse 200 (BodyOutputFile relativePath)
                       [("Content-Type", fileType W relativePath);
                        ("Cache-Control", CACHE_IMMUTABLE)])
          else if inputExists relativePath
          then mret (mkResponse 200 (BodyInputFile relativePath)
                       [("Content-Type", fileType W relativePath);
                        ("Cache-Control", CACHE_DAY)])
          else mret (mkResponse 404 (BodyText "Not found") [])
        else
          result ← optimizeOnTheFly relativePath width format quality;
          match result with
          | None =>
              mret (mkResponse 500 (BodyText "Failed to process image") [])
          | Some (buffer, contentType) =>
              mret (mkResponse 200 (BodyBuffer buffer)
                      [("Content-Type", contentType);
                       ("Cache-Control", CACHE_DAY);
                       ("X-Image-Optimized", "on-the-fly")])
          end
    end.

End OnTheFly.

(** * Vocabulary of the properties *)

(** ** The shape of a variant file name *)

(** The characters of a string. *)
Definition chars (s : string) : list ascii := String.list_ascii_of_string s.

(** What the pattern [/^(.+)-(\d+)w\.(webp|avif|jpeg|jpg|png)$/i] accepts,
    with its three groups: a non-empty base free of line terminators, a
    dash, one digit or more, [w] or [W], a dot and one of the five format
    names in any case. *)
Definition variant_name (s base digits format : string) : Prop :=
  ∃ w,
    s = base +:+ "-" +:+ digits +:+ String w ("." +:+ format) ∧
    lower_ascii w = "w"%char ∧
    base ≠ "" ∧ Forall (λ a, is_line_terminator a = false) (chars base) ∧
    digits ≠ "" ∧ Forall (λ a, is_digit a = true) (chars digits) ∧
    toLowerCase format ∈ VARIANT_FORMATS.

(** ** Staleness, in the words of the specification *)

Definition no_entry_or_no_variants (p : string) (st : State) : Prop :=
  match images (manifest st) !! p with
  | None => True
  | Some e => e_variants e = []
  end.

Definition some_variant_missing (p : string) (st : State) : Prop :=
  ∃ e v, images (manifest st) !! p = Some e ∧ v ∈ e_variants e ∧
         outTree st !! v_path v = None.

Definition source_newer_than_first_variant (W : World) (p : string)
    (st : State) : Prop :=
  ∃ e v src o,
    images (manifest st) !! p = Some e ∧ head (e_variants e) = Some v ∧
    inputTree W !! p = Some src ∧ outTree st !! v_path v = Some o ∧
    o_mtime o < mtimeMs src.

Definition STALE (W : World) (p : string) (st : State) : Prop :=
  no_entry_or_no_variants p st ∨ some_variant_missing p st ∨
  source_newer_than_first_variant W p st.

(** ** The flattened loops of the variant generator *)

Ltac unfold_monad :=
  unfold mbind, M_bind, mret, M_ret, try_catch, throw, get, modify, logError,
    ensureDir in *.

(** The (width, height, format) triples the nested loops visit, in order:
    the configured widths that do not exceed the original, each with every
    configured format. *)
Definition planFor (fmts : list Format) (originalWidth originalHeight : Z)
    (widths : list Z) : list (Z * Z * Format) :=
  flat_map
    (λ targetWidth,
       if targetWidth >? originalWidth then []
       else (λ f, (targetWidth,
                   targetHeightOf targetWidth originalWidth originalHeight,
                   f)) <$> fmts)
    widths.

Definition plan (cfg : Config) (originalWidth originalHeight : Z)
    : list (Z * Z * Format) :=
  planFor (formats cfg) originalWidth originalHeight (sizes cfg).

Definition outputOf (p : string) (x : Z * Z * Format) : string :=
  getOutputFilename p x.1.1 (format_name x.2).

Definition variantOf (p : string) (x : Z * Z * Format) : Variant :=
  {| v_format := format_name x.2; v_size := x.1.1; v_path := outputOf p x;
     v_width := x.1.1; v_height := x.1.2 |}.

Definition processPair (W : World) (cfg : Config) (now : Z) (p : string)
    (variants : list Variant) (x : Z * Z * Format) : M (list Variant) :=
  processFormat W cfg now p x.1.1 x.1.2 variants x.2.

(** What [sharp(...).metadata()] and the truthiness test leave: the
    intrinsic size when both dimensions are there and non-zero. *)
Inductive Probe :=
  | Unreadable
  | NoDimensions
  | Dimensions (originalWidth originalHeight : Z).

Definition probe (W : World) (p : string) : Probe :=
  match inputTree W !! p with
  | Some {| metadata := Some md |} =>
      match truthy (m_width md), truthy (m_height md) with
      | Some ow, Some oh => Dimensions ow oh
      | _, _ => NoDimensions
      end
  | _ => Unreadable
  end.

(** ** Footprints and encoder calls *)

Definition is_encode (ev : Event) : bool :=
  match ev with
  | EvEncode _ _ _ _ _ _ => true
  | EvError _ => false
  end.

(** The number of encoder calls recorded in a trace. *)
Fixpoint encode_calls (t : list Event) : nat :=
  match t with
  | [] => 0%nat
  | ev :: t' => ((if is_encode ev then 1 else 0) + encode_calls t')%nat
  end.

(** The footprint of the generator between two states: the manifest and the
    guard are left alone, files of the output tree never disappear, and a
    file that changed was written at [now]. *)
Record gen_step (now : Z) (st st' : State) : Prop := mkGenStep {
  gs_manifest : manifest st' = manifest st;
  gs_flag : isProcessing st' = isProcessing st;
  gs_json : manifestJson st' = manifestJson st;
  gs_mono : ∀ k, is_Some (outTree st !! k) → is_Some (outTree st' !! k);
  gs_mtime : ∀ k o, outTree st' !! k = Some o →
             outTree st !! k = Some o ∨ o_mtime o = now;
}.

(** The footprint of a batch of [processImage] calls on the files [L]:
    only the entries of [L] may be replaced. *)
Record batch_step (now : Z) (L : list string) (st st' : State) : Prop :=
  mkBatchStep {
  bs_flag : isProcessing st' = isProcessing st;
  bs_json : manifestJson st' = manifestJson st;
  bs_generatedAt : generatedAt (manifest st') = generatedAt (manifest st);
  bs_others : ∀ q, q ∉ L → images (manifest st') !! q = images (manifest st) !! q;
  bs_mono : ∀ k, is_Some (outTree st !! k) → is_Some (outTree st' !! k);
  bs_mtime : ∀ k o, outTree st' !! k = Some o →
             outTree st !! k = Some o ∨ o_mtime o = now;
}.

(** The invariant of a manifest entry for the Original [p]. *)
Record entry_ok (cfg : Config) (p : string) (e : ImageManifestEntry) : Prop :=
  mkEntryOk {
  eo_original : e_original e = p;
  eo_variants :
    Forall (λ v, v_width v ≤ e_width e ∧ v_width v ∈ sizes cfg ∧
                 v_size v = v_width v ∧
                 v_height v = targetHeightOf (v_width v) (e_width e) (e_height e) ∧
                 (∃ f, f ∈ formats cfg ∧ v_format v = format_name f) ∧
                 v_path v = getOutputFilename p (v_width v) (v_format v))
      (e_variants e);
}.

(** ** Sample environments *)

Definition image_file (mtime w h : Z) : SrcFile :=
  mkSrc mtime (Some (mkMetadata (Some w) (Some h) (Some "jpeg"))).

(** An environment in which nothing fails. *)
Definition calm_world (tree : gmap string SrcFile) : World :=
  {| inputDirExists := true; readdirOk := true; inputTree := tree;
     mkdirOk := λ _, true; encodeOk := λ _ _ _ _ _, true; writeOk := λ _, true;
     fileType := λ path,
       let ext := slice_from path (lastIndexOf path "." + 1) in
       "image/" +:+ (if String.eqb ext "jpg" then "jpeg" else ext) |}.

Definition config_with (fmts : list Format) (widths : list Z) : Config :=
  {| publicPath := "/optimized"; formats := fmts; sizes := widths; quality := 80;
     generateManifest := true; keepOriginal := false; skipExisting := true |}.

(** ** Responses *)

(** [response.headers.get(name)] *)
Definition header (name : string) (resp : Response) : option string :=
  snd <$> find (λ kv, String.eqb kv.1 name) (headers resp).

Definition hero_world : World :=
  calm_world {[ "hero.jpg" := image_file 100 1000 500 ]}.



(** ** Failures of the encoder *)

(** The wording of C1: the failure of one encode leaves the
    other variants of the same Original unaffected, so a variant whose own
    encode succeeds ends up on disk and in the entry of the Original. *)
Definition encode_failures_are_isolated : Prop :=
  ∀ W cfg now p st ow oh x,
    (∀ dir, mkdirOk W dir = true) →
    probe W p = Dimensions ow oh →
    x ∈ plan cfg ow oh →
    encodeOk W p (Some x.1.1) (Some x.1.2) (Some x.2) (Some (quality cfg)) = true →
    let st' := (processImage W cfg now p st).2 in
    is_Some (outTree st' !! outputOf p x) ∧
    ∃ e, images (manifest st') !! p = Some e ∧ variantOf p x ∈ e_variants e.

(** An environment whose encoder fails for webp only. *)
Definition no_webp_world : World :=
  {| inputDirExists := true; readdirOk := true;
     inputTree := {[ "a.jpg" := image_file 100 1000 500 ]};
     mkdirOk := λ _, true;
     encodeOk := λ _ _ _ fmt _,
       match fmt with Some webp => false | _ => true end;
     writeOk := λ _, true; fileType := λ _, "" |}.

(** ** Two runs in a row *)

(** The triples [processImage] visits for the Original [p]: none when the
    source cannot be measured. *)
Definition planOf (W : World) (cfg : Config) (p : string) : list (Z * Z * Format) :=
  match probe W p with
  | Dimensions ow oh => plan cfg ow oh
  | _ => []
  end.

(** The state of the Original [p] after a successful [processImage] at time
    [now]: its entry lists the whole plan, every planned output is on disk,
    and, unless existing outputs are skipped, carries the time of the run. *)
Definition settled (W : World) (cfg : Config) (now : Z) (p : string)
    (st : State) : Prop :=
  ∀ ow oh, probe W p = Dimensions ow oh →
    images (manifest st) !! p =
      Some (mkEntry p ow oh (variantOf p <$> plan cfg ow oh)) ∧
    ∀ x, x ∈ plan cfg ow oh →
      ∃ o, outTree st !! outputOf p x = Some o ∧
           (skipExisting cfg = false → o_mtime o = now).

(** Two incremental runs in a row, at the times [now1] and [now2], over an
    unchanged environment (the input and the output directory apart, so
    that no run changes what the next one scans): the second one adds no
    encoder call. *)
Definition second_run_is_free (W : World) (cfg : Config) (now1 now2 : Z)
    (st0 : State) : Prop :=
  let st1 := processAllImages W cfg now1 false st0 in
  let st2 := processAllImages W cfg now2 false st1 in
  encode_calls (trace st2) = encode_calls (trace st1).

(** The default configuration with [skipExisting] off. *)
Definition rebuild_config : Config :=
  {| publicPath := "/optimized"; formats := [webp]; sizes := [320; 640; 1280];
     quality := 80; generateManifest := true; keepOriginal := false;
     skipExisting := false |}.

(** Originals are copied to the output tree, widths 320 and 640. *)
Definition copy_config : Config :=
  {| publicPath := "/optimized"; formats := [webp]; sizes := [320; 640];
     quality := 80; generateManifest := true; keepOriginal := true;
     skipExisting := true |}.

(** A state whose manifest was written when only the width 320 was
    configured; the one output it lists is dated 6000. *)
Definition older_state : State :=
  {| manifest :=
       {| generatedAt := 0;
          images := {[ "a.jpg" :=
            mkEntry "a.jpg" 1000 500
              [mkVariant "webp" 320 "a-320w.webp" 320 160] ]} |};
     isProcessing := false;
     outTree := {[ "a-320w.webp" :=
       mkOut 6000 (Encoded "a.jpg" (Some 320) (Some 160) (Some webp) (Some 80)) ]};
     manifestJson := None; trace := [] |}.

(** An environment whose input directory may be missing and whose scan may
    throw. *)
Definition broken_world (dirExists scanOk : bool) : World :=
  {| inputDirExists := dirExists; readdirOk := scanOk;
     inputTree := {[ "a.jpg" := image_file 100 1000 500 ]};
     mkdirOk := λ _, true; encodeOk := λ _ _ _ _ _, true; writeOk := λ _, true;
     fileType := λ _, "" |}.

(** ** Resizing *)

(** A width or height that the resize accepts: a positive integer. *)
Definition positive_size (x : option Z) : bool :=
  match x with
  | Some z => 0 <? z
  | None => false
  end.

(** An environment whose encoder does what sharp's [resize] does with its
    arguments: it throws on a width or height that is not a positive integer
    (0, [NaN]), and delivers otherwise. *)
Definition resize_world (tree : gmap string SrcFile) : World :=
  {| inputDirExists := true; readdirOk := true; inputTree := tree;
     mkdirOk := λ _, true;
     encodeOk := λ _ w h _ _, positive_size w && positive_size h;
     writeOk := λ _, true;
     fileType := fileType (calm_world tree) |}.

(** The wording of C10: for a source that is there and gives both dimensions,
    a format outside the five known names never makes [optimizeOnTheFly]
    fail; it returns a buffer with the content type of the source. *)
Definition unknown_format_never_fails : Prop :=
  ∀ W relativePath width format quality st src md metaWidth metaHeight,
    inputTree W !! relativePath = Some src →
    metadata src = Some md →
    truthy (m_width md) = Some metaWidth →
    truthy (m_height md) = Some metaHeight →
    format ∉ VARIANT_FORMATS →
    ∃ buffer st',
      optimizeOnTheFly W relativePath width format quality st =
      (Ret (Some (buffer, "image/" +:+ default "jpeg" (m_format md))), st').

(** ** The disk between two runs *)

(** What the decoder makes of a file the plugin wrote: a planned variant is
    never larger than its source, so it has the size it was resized to, and
    a copy of an original decodes as the original does. *)
Definition readBack (W : World) (c : Content) : option Metadata :=
  match c with
  | Encoded _ w h fmt _ => Some (mkMetadata w h (format_name <$> fmt))
  | CopyOf src => inputTree W !! src ≫= metadata
  end.

(** The input tree as the next run finds it.  [place] says where the output
    directory lies, seen from the input directory: [None] when the two are
    apart (neither lies inside the other, and they are not the same),
    [Some d] when it is the directory [d] of the input directory (input
    [static], output [static/optimized]: [Some "optimized"]).  In the second
    case [readdir], [stat] and the decoder, given a path below [d], reach
    the file that the plugin wrote to the output tree. *)
Definition inputTreeAfter (place : option string)
    (decode : Content → option Metadata) (W : World) (st : State)
    : gmap string SrcFile :=
  match place with
  | None => inputTree W
  | Some d =>
      list_to_map
        ((λ kv, (d +:+ "/" +:+ kv.1, mkSrc (o_mtime kv.2) (decode (o_content kv.2))))
           <$> map_to_list (outTree st))
      ∪ inputTree W
  end.

(** The environment of a run that starts on the disk as the state [st]
    leaves it, everything else being as it was. *)
Definition diskAfter (place : option string) (decode : Content → option Metadata)
    (W : World) (st : State) : World :=
  {| inputDirExists := inputDirExists W; readdirOk := readdirOk W;
     inputTree := inputTreeAfter place decode W st;
     mkdirOk := mkdirOk W; encodeOk := encodeOk W; writeOk := writeOk W;
     fileType := fileType W |}.

(** Two incremental runs in a row, the second one on the disk that the
    first one left: the second one adds no encoder call. *)
Definition second_run_is_free_on_disk (place : option string)
    (decode : Content → option Metadata) (W : World) (cfg : Config)
    (now1 now2 : Z) (st0 : State) : Prop :=
  let st1 := processAllImages W cfg now1 false st0 in
  let st2 := processAllImages (diskAfter place decode W st1) cfg now2 false st1 in
  encode_calls (trace st2) = encode_calls (trace st1).

(** * The rest of the plugin *)

(** ** More of the variant generator *)

(** The state after a variant file was removed from the output tree. *)
Definition remove_output (path : string) (st : State) : State :=
  set_outTree (delete path (outTree st)) st.

(** ** Manifest file, restart and command line *)

(** [loadManifest]: when [manifest.json] is there, its content replaces the
    in-memory manifest and the answer is [true].  The file of the model holds
    a manifest, so the [catch] for a file that does not parse has no
    counterpart here. *)
Definition loadManifest (st : State) : bool * State :=
  match manifestJson st with
  | Some content => (true, set_manifest content st)
  | None => (false, st)
  end.

(** A new process over the same disk: the closure state is created afresh
    (an empty manifest stamped [t], the guard clear), the output tree and the
    manifest file are what the previous process left.  The trace is kept so
    that encoder calls can be counted across the restart. *)
Definition restart (t : Z) (st : State) : State :=
  {| manifest := {| generatedAt := t; images := ∅ |}; isProcessing := false;
     outTree := outTree st; manifestJson := manifestJson st; trace := trace st |}.

(** [serverStart.main]: load the manifest, then run incrementally. *)
Definition serverStart (W : World) (cfg : Config) (now : Z) (st : State) : State :=
  processAllImages W cfg now false (loadManifest st).2.

(** What [rm(outputDir, {recursive: true, force: true})] did: it went
    through, or it threw and left the given remnants behind. *)
Inductive RmResult :=
  | RmDone
  | RmFailed (leftTree : gmap string OutFile) (leftJson : option ImageManifest).

(** The [--clean] command: remove the output directory (the manifest file
    lives in it) and, when that went through, forget the entries.  The
    second component tells whether the [catch] branch logged a failure. *)
Definition cliClean (rm : RmResult) (st : State) : State * bool :=
  match rm with
  | RmDone =>
      (set_manifest {| generatedAt := generatedAt (manifest st); images := ∅ |}
         (set_manifestJson None (set_outTree ∅ st)), false)
  | RmFailed leftTree leftJson =>
      (set_manifestJson leftJson (set_outTree leftTree st), true)
  end.

(** The [--manifest] command: stamp and write the manifest, encode nothing. *)
Definition cliManifest (W : World) (now : Z) : M unit := writeManifest W now.

(** The [--process] command, with or without [--force]. *)
Definition cliProcess (W : World) (cfg : Config) (now : Z) (force : bool)
    (st : State) : State :=
  processAllImages W cfg now force (loadManifest st).2.

(** The files a run works on. *)
Definition todoOf (W : World) (forceAll : bool) (st : State) : list string :=
  if forceAll then scanImages W
  else filter (λ file, needsProcessing W file st = true) (scanImages W).

(** The manifest file and the in-memory manifest list the same entries (no
    file: no entry). *)
Definition in_sync (st : State) : Prop :=
  match manifestJson st with
  | Some content => images content = images (manifest st)
  | None => images (manifest st) = ∅
  end.

(** Every file of the output tree is a planned output of a scanned Original
    or, when originals are kept, the copy of one. *)
Definition only_planned (W : World) (cfg : Config) (st : State) : Prop :=
  ∀ k, is_Some (outTree st !! k) →
    ∃ p, p ∈ scanImages W ∧
         (k ∈ outputOf p <$> planOf W cfg p ∨ (keepOriginal cfg = true ∧ k = p)).

(** ** File watcher *)

(** The closure state that the watcher adds: the set [pendingFiles] (a JS
    [Set] iterates in insertion order, so a list without duplicates) and the
    debounce timer, armed with the time at which it fires or [None].  A step
    of the model is one watcher event or one timer callback run to its end:
    an event that arrives while a callback is still awaiting is outside. *)
Record Watcher := mkWatcher {
  w_state : State;
  pendingFiles : list string;
  debounceTimer : option Z;
}.

(** [Set.prototype.add] *)
Definition Set_add (x : string) (s : list string) : list string :=
  if bool_decide (x ∈ s) then s else s ++ [x].

(** [onFileSystemChange] at the time [t]. *)
Definition onFileSystemChange (t : Z) (filePath : string) (w : Watcher) : Watcher :=
  if negb (isImageFile filePath) then w
  else {| w_state := w_state w;
          pendingFiles := Set_add filePath (pendingFiles w);
          debounceTimer := Some (t + 300) |}.

(** [processPendingFiles] *)
Definition processPendingFiles (W : World) (cfg : Config) (now : Z)
    (w : Watcher) : Outcome unit * Watcher :=
  match pendingFiles w with
  | [] => (Ret tt, w)
  | files =>
      let '(r, st') :=
        (_ ← forM files (processImage W cfg now);
         if generateManifest cfg then writeManifest W now else mret tt)
          (w_state w) in
      (r, {| w_state := st'; pendingFiles := []; debounceTimer := debounceTimer w |})
  end.

(** The callback of the debounce timer: the assignment after the [await] is
    reached only when [processPendingFiles] returns. *)
Definition timerCallback (W : World) (cfg : Config) (now : Z) (w : Watcher)
    : Outcome unit * Watcher :=
  let '(r, w') := processPendingFiles W cfg now w in
  match r with
  | Ret _ => (r, {| w_state := w_state w'; pendingFiles := pendingFiles w';
                    debounceTimer := None |})
  | Throw _ => (r, w')
  end.

(** A burst of watcher events, oldest first. *)
Definition burst (events : list (Z * string)) (w : Watcher) : Watcher :=
  foldl (λ w ev, onFileSystemChange ev.1 ev.2 w) w events.

(** ** Generated files *)

(** What the encoder leaves for the pair [x] of the Original [p] at the
    time [now]: the file that [toFile] writes. *)
Definition encodedFile (cfg : Config) (now : Z) (p : string)
    (x : Z * Z * Format) : OutFile :=
  mkOut now (Encoded p (Some x.1.1) (Some x.1.2) (Some x.2) (Some (quality cfg))).

(** ** Manifest helpers *)

(** A manifest that a caller hands to the helpers is a plain object, and so
    is its [images]: the finite map holds its own properties, and every
    other key is looked up in [Object.prototype], which has these. *)
Definition OBJECT_PROTOTYPE_KEYS : list string :=
  ["constructor"; "__defineGetter__"; "__defineSetter__"; "hasOwnProperty";
   "__lookupGetter__"; "__lookupSetter__"; "isPrototypeOf";
   "propertyIsEnumerable"; "toString"; "valueOf"; "__proto__";
   "toLocaleString"].

(** [manifest.images[imagePath]]: an entry of the manifest, a member of
    [Object.prototype] (a function, or for [__proto__] the prototype
    itself: truthy, and without a property [variants]), or [undefined]. *)
Inductive Property :=
  | Own (entry : ImageManifestEntry)
  | Inherited
  | Absent.

Definition imagesAt (manifest : ImageManifest) (imagePath : string) : Property :=
  match images manifest !! imagePath with
  | Some entry => Own entry
  | None =>
      if bool_decide (imagePath ∈ OBJECT_PROTOTYPE_KEYS) then Inherited else Absent
  end.

(** How a call of a helper ends: with a value, or with the [TypeError] of
    reading [filter] or [map] of [undefined]. *)
Inductive Completion (A : Type) :=
  | Returned (a : A)
  | TypeError.

Arguments Returned {A} a.
Arguments TypeError {A}.

(** [Array.prototype.map] with a callback that may throw. *)
Fixpoint mapCompletion {A B : Type} (f : A → Completion B) (l : list A) : Completion (list B) :=
  match l with
  | [] => Returned []
  | x :: l' =>
      match f x with
      | TypeError => TypeError
      | Returned y =>
          match mapCompletion f l' with
          | TypeError => TypeError
          | Returned ys => Returned (y :: ys)
          end
      end
  end.

(** [Array.prototype.join] *)
Fixpoint join (sep : string) (l : list string) : string :=
  match l with
  | [] => ""
  | x :: l' =>
      match l' with
      | [] => x
      | _ :: _ => x +:+ sep +:+ join sep l'
      end
  end.

(** One candidate of a [srcset]: [`${v.path} ${v.width}w`]. *)
Definition srcsetItem (v : Variant) : string :=
  v_path v +:+ " " +:+ pretty (v_width v) +:+ "w".

Definition getSrcSet (manifest : ImageManifest) (imagePath format : string)
    : Completion string :=
  match imagesAt manifest imagePath with
  | Absent => Returned ""
  | Inherited => TypeError
  | Own entry =>
      Returned
        (join ", "
           (srcsetItem <$> filter (λ v, v_format v = format) (e_variants entry)))
  end.

(** [sort((a, b) => a.width - b.width)]: the sort of the platform is stable,
    so is this insertion sort. *)
Fixpoint insertByWidth (v : Variant) (l : list Variant) : list Variant :=
  match l with
  | [] => [v]
  | u :: l' =>
      if v_width v <=? v_width u then v :: u :: l'
      else u :: insertByWidth v l'
  end.

Definition sortByWidth (l : list Variant) : list Variant :=
  foldr insertByWidth [] l.

(** Ascending widths. *)
Fixpoint sortedByWidth (l : list Variant) : Prop :=
  match l with
  | [] => True
  | v :: l' => (∀ u, u ∈ l' → v_width v ≤ v_width u) ∧ sortedByWidth l'
  end.

(** [targetWidth] ranges over the integers. *)
Definition getOptimalSrc (manifest : ImageManifest) (imagePath : string)
    (targetWidth : Z) (format : string) : Completion (option string) :=
  match imagesAt manifest imagePath with
  | Absent => Returned None
  | Inherited => TypeError
  | Own entry =>
      let variants :=
        sortByWidth (filter (λ v, v_format v = format) (e_variants entry)) in
      match find (λ v, bool_decide (targetWidth ≤ v_width v)) variants with
      | Some optimal => Returned (Some (v_path optimal))
      | None => Returned (v_path <$> last variants)
      end
  end.

(** [[...new Set(l)]]: the first occurrences, in their order. *)
Fixpoint uniq (l : list string) : list string :=
  match l with
  | [] => []
  | x :: l' => x :: filter (λ y, y ≠ x) (uniq l')
  end.

Record PictureSource := mkPictureSource {
  ps_srcset : string;
  ps_type : string;
}.

(** The parameter [sizes] is accepted and not used. *)
Definition getPictureSources (manifest : ImageManifest) (imagePath : string)
    (sizes : string) : Completion (list PictureSource) :=
  match imagesAt manifest imagePath with
  | Absent => Returned []
  | Inherited => TypeError
  | Own entry =>
      mapCompletion
        (λ format,
           match getSrcSet manifest imagePath format with
           | Returned srcset => Returned (mkPictureSource srcset ("image/" +:+ format))
           | TypeError => TypeError
           end)
        (uniq (v_format <$> e_variants entry))
  end.

(** ** Imported images *)

(** The method [src] of the module that the import plugin generates for an
    image with the given variants.  [size] is [None] when the argument is
    left out; sizes are integers; [format] is the argument after its default
    was applied. *)
Definition moduleSrc (variants : list Variant) (publicPath relativePath : string)
    (size : option Z) (format : string) : string :=
  let matching := filter (λ v, v_format v = format) variants in
  if (match size with None => true | Some n => n =? 0 end)
  then
    match matching with
    | [] => publicPath +:+ "/" +:+ relativePath
    | v :: rest =>
        let largest :=
          foldl (λ a b, if v_width a >? v_width b then a else b) v rest in
        publicPath +:+ "/" +:+ v_path largest
    end
  else
    let size := default 0 size in
    let matching := sortByWidth matching in
    match find (λ v, bool_decide (v_width v = size)) matching with
    | Some exact => publicPath +:+ "/" +:+ v_path exact
    | None =>
        match find (λ v, bool_decide (size ≤ v_width v)) matching with
        | Some larger => publicPath +:+ "/" +:+ v_path larger
        | None =>
            match last matching with
            | Some widest => publicPath +:+ "/" +:+ v_path widest
            | None => publicPath +:+ "/" +:+ relativePath
            end
        end
    end.

(** ** Client-side URLs *)

(** [s.replace(/\/+/g, "/")] *)
Fixpoint collapse_from (afterSlash : bool) (s : string) : string :=
  match s with
  | EmptyString => EmptyString
  | String a s' =>
      if Ascii.eqb a "/"
      then if afterSlash then collapse_from true s'
           else String "/" (collapse_from true s')
      else String a (collapse_from false s')
  end.

Definition collapseSlashes (s : string) : string := collapse_from false s.

Definition buildVariantUrl (baseName : string) (width : Z) (format publicPath : string)
    : string :=
  collapseSlashes
    (publicPath +:+ "/" +:+ baseName +:+ "-" +:+ pretty width +:+ "w." +:+ format).

(** The route: [pathname.slice(config.publicPath.length + 1)] *)
Definition relativePathOf (publicPath pathname : string) : string :=
  slice_from pathname (len publicPath + 1).

(** ** The URL of a request *)

(** A character that the URL parser leaves as it is in a path and that
    means nothing there: an ASCII letter, a digit, [-] or [_]. *)
Definition url_plain_char (a : ascii) : bool :=
  let n := nat_of_ascii a in
  (((48 <=? n)%nat && (n <=? 57)%nat) || ((65 <=? n)%nat && (n <=? 90)%nat) ||
   ((97 <=? n)%nat && (n <=? 122)%nat) || (n =? 45)%nat || (n =? 95)%nat)%bool.

(** Segments of such characters and dots, none of them starting with a dot
    (so none is [.] or [..]). *)
Fixpoint url_plain_from (segmentStart : bool) (s : string) : bool :=
  match s with
  | EmptyString => true
  | String a s' =>
      if Ascii.eqb a "/" then url_plain_from true s'
      else if Ascii.eqb a "." then negb segmentStart && url_plain_from false s'
      else url_plain_char a && url_plain_from false s'
  end.

Definition url_plain (path : string) : bool :=
  match path with
  | String a s => Ascii.eqb a "/" && url_plain_from true s
  | EmptyString => false
  end.

(** [new URL(req.url).pathname] for a request to the path [path] of the
    server.  The parser percent-encodes some characters (a space, a quote,
    what is not ASCII), removes the segments [.] and [..], and cuts the path
    at [?] and [#].  It leaves a path of plain segments as it is, and only
    these are modelled: the others have no [pathname] here. *)
Definition pathnameOf (path : string) : option string :=
  if url_plain path then Some path else None.


(** * Properties *)

(** ** The definitions on small inputs *)

Example getOutputFilename_hero :
  getOutputFilename "photos/hero.jpg" 640 "webp" = "photos/hero-640w.webp".
Proof. reflexivity. Qed.

Example isImageFile_samples :
  isImageFile "a/b.JPG" = true ∧ isImageFile "noext" = false ∧
  isImageFile "manifest.json" = false.
Proof. repeat split; reflexivity. Qed.

Example variantMatch_samples :
  variantMatch "hero-640w.webp" = Some ("hero", "640", "webp") ∧
  variantMatch "a/b-c-12W.JPG" = Some ("a/b-c", "12", "JPG") ∧
  variantMatch "hero.jpg" = None ∧
  variantMatch "-640w.webp" = None ∧
  variantMatch "hero-w.png" = None ∧
  variantMatch "hero-640w.gif" = None.
Proof. repeat split; reflexivity. Qed.

Example parseInt_samples :
  parseInt "640" = Some 640 ∧ parseInt " -12px" = Some (-12) ∧
  parseInt "" = None ∧ parseInt "w8" = None ∧ parseInt "0x10" = Some 0.
Proof. repeat split; reflexivity. Qed.

Example Math_round_samples :
  Math_round (fdiv (of_Z 5) (of_Z 2)) = 3 ∧
  Math_round (fdiv (of_Z (-5)) (of_Z 2)) = -2 ∧
  Math_round (fdiv (of_Z 1) (of_Z 3)) = 0 ∧
  Math_round (fdiv (of_Z 2) (of_Z 3)) = 1 ∧
  Math_round (of_Z 640) = 640.
Proof. repeat split; vm_compute; reflexivity. Qed.

(** ** String primitives *)

Lemma lastIndexOf_from_shift c s i acc :
  lastIndexOf_from c s i acc =
  (if lastIndexOf_from c s 0 (-1) <? 0 then acc
   else i + lastIndexOf_from c s 0 (-1)).
Proof.
  revert i acc. induction s as [|a s IH]; intros i acc; simpl; [done|].
  rewrite (IH (i + 1)), (IH 1).
  destruct (lastIndexOf_from c s 0 (-1) <? 0) eqn:Hr.
  - destruct (Ascii.eqb a c); simpl; [f_equal; lia | done].
  - apply Z.ltb_ge in Hr.
    destruct (1 + lastIndexOf_from c s 0 (-1) <? 0) eqn:Hr'; [|lia].
    apply Z.ltb_lt in Hr'. lia.
Qed.

Lemma lastIndexOf_app_sep stem c ext :
  lastIndexOf ext c = -1 →
  lastIndexOf (stem +:+ String c ext) c = len stem.
Proof.
  unfold lastIndexOf, len. intros Hext.
  induction stem as [|a stem IH]; simpl.
  - rewrite Ascii.eqb_refl, lastIndexOf_from_shift, Hext. done.
  - rewrite lastIndexOf_from_shift, IH.
    destruct (Z.of_nat (String.length stem) <? 0) eqn:Hneg; [|lia].
    apply Z.ltb_lt in Hneg. lia.
Qed.

Lemma substring_prefix s1 s2 :
  String.substring 0 (String.length s1) (s1 +:+ s2) = s1.
Proof.
  induction s1 as [|a s1 IH]; simpl.
  - by destruct s2.
  - by rewrite IH.
Qed.

Lemma string_length_app s1 s2 :
  String.length (s1 +:+ s2) = (String.length s1 + String.length s2)%nat.
Proof. induction s1 as [|a s1 IH]; simpl; [done | by rewrite IH]. Qed.

Lemma slice_prefix s1 s2 : slice (s1 +:+ s2) 0 (len s1) = s1.
Proof.
  unfold slice, clamp_index, len. rewrite string_length_app.
  destruct (0 <? 0) eqn:H0; [done|].
  destruct (Z.of_nat (String.length s1) <? 0) eqn:H1;
    [apply Z.ltb_lt in H1; lia|].
  replace (Z.to_nat (Z.min 0 _)) with 0%nat by lia.
  replace (Z.to_nat _) with (String.length s1) by lia.
  apply substring_prefix.
Qed.

(** ** Output naming *)

(** On a name with an extension (a last dot followed by dot-free text) the
    extension is stripped and [-{width}w.{format}] appended. *)
Lemma getOutputFilename_strips_extension stem ext width format :
  lastIndexOf ext "." = -1 →
  getOutputFilename (stem +:+ "." +:+ ext) width format =
  stem +:+ "-" +:+ pretty width +:+ "w." +:+ format.
Proof.
  intros Hext. unfold getOutputFilename.
  change (stem +:+ "." +:+ ext) with (stem +:+ String "." ext).
  by rewrite (lastIndexOf_app_sep _ _ _ Hext), slice_prefix.
Qed.


(** The same slip on any dot-free name: the stem is the name without its
    last character. *)
Lemma getOutputFilename_no_dot name width format :
  lastIndexOf name "." = -1 →
  getOutputFilename name width format =
  slice name 0 (-1) +:+ "-" +:+ pretty width +:+ "w." +:+ format.
Proof. intros H. unfold getOutputFilename. by rewrite H. Qed.

(** ** The variant file name pattern *)

Lemma lastIndexOf_absent_cons c a s :
  lastIndexOf s c = -1 → a ≠ c → lastIndexOf (String a s) c = -1.
Proof.
  unfold lastIndexOf. intros Hs Hne. simpl.
  rewrite lastIndexOf_from_shift, Hs. simpl.
  destruct (Ascii.eqb_spec a c); [done|done].
Qed.

Lemma lastIndexOf_split s c :
  lastIndexOf s c = -1 ∨
  ∃ pre post, s = pre +:+ String c post ∧ lastIndexOf post c = -1.
Proof.
  induction s as [|a s IH]; [by left|].
  destruct IH as [Hno | (pre & post & -> & Hpost)].
  - destruct (decide (a = c)) as [->|Hne].
    + right. exists "", s. done.
    + left. by apply lastIndexOf_absent_cons.
  - right. exists (String a pre), post. done.
Qed.

Lemma len_nonneg s : 0 ≤ len s.
Proof. unfold len. lia. Qed.

Lemma substring_all s : String.substring 0 (String.length s) s = s.
Proof. induction s as [|a s IH]; simpl; [done | by rewrite IH]. Qed.

Lemma substring_suffix s1 s2 :
  String.substring (String.length s1) (String.length s2) (s1 +:+ s2) = s2.
Proof. induction s1 as [|a s1 IH]; simpl; [apply substring_all | done]. Qed.

Lemma slice_from_suffix s1 s2 : slice_from (s1 +:+ s2) (len s1) = s2.
Proof.
  unfold slice_from, slice, clamp_index, len. rewrite string_length_app.
  destruct (Z.of_nat (String.length s1) <? 0) eqn:H1;
    [apply Z.ltb_lt in H1; lia|].
  destruct (Z.of_nat (String.length s1 + String.length s2) <? 0) eqn:H2;
    [apply Z.ltb_lt in H2; lia|].
  replace (Z.to_nat (Z.min (Z.of_nat (String.length s1)) _))
    with (String.length s1) by lia.
  replace (Z.to_nat _) with (String.length s2) by lia.
  apply substring_suffix.
Qed.

Lemma string_app_assoc (s1 s2 s3 : string) : (s1 +:+ s2) +:+ s3 = s1 +:+ (s2 +:+ s3).
Proof.
  induction s1 as [|a s1 IH]; [done|].
  change (String a ((s1 +:+ s2) +:+ s3) = String a (s1 +:+ (s2 +:+ s3))).
  by rewrite IH.
Qed.

(** Cutting a string at its last [c]. *)
Lemma cut_at_last pre c post :
  lastIndexOf post c = -1 →
  let s := pre +:+ String c post in
  lastIndexOf s c = len pre ∧ slice s 0 (lastIndexOf s c) = pre ∧
  slice_from s (lastIndexOf s c + 1) = post.
Proof.
  intros Hpost s. subst s. rewrite (lastIndexOf_app_sep _ _ _ Hpost).
  split; [done|]. split; [apply slice_prefix|].
  change (pre +:+ String c post) with (pre +:+ (String c "" +:+ post)).
  rewrite <- string_app_assoc.
  replace (len pre + 1) with (len (pre +:+ String c "")).
  - apply slice_from_suffix.
  - unfold len. rewrite string_length_app. simpl. lia.
Qed.



Lemma span_digits_spec l ds rest :
  span_digits l = (ds, rest) →
  l = ds ++ rest ∧ Forall (λ a, is_digit a = true) ds.
Proof.
  revert ds rest. induction l as [|a l IH]; intros ds rest; simpl.
  - by intros [= <- <-].
  - destruct (is_digit a) eqn:Ha.
    + destruct (span_digits l) as [ds' rest'].
      intros [= <- <-]. destruct (IH ds' rest' eq_refl) as [-> Hds].
      split; [done|]. by constructor.
    + intros [= <- <-]. done.
Qed.

Lemma span_digits_app ds a rest :
  Forall (λ a, is_digit a = true) ds → is_digit a = false →
  span_digits (ds ++ a :: rest) = (ds, a :: rest).
Proof.
  intros Hds Ha. induction Hds as [|d ds Hd _ IH]; simpl.
  - by rewrite Ha.
  - by rewrite Hd, IH.
Qed.

Lemma string_of_chars_app l1 l2 :
  String.string_of_list_ascii (l1 ++ l2) =
  String.string_of_list_ascii l1 +:+ String.string_of_list_ascii l2.
Proof.
  induction l1 as [|a l1 IH]; [done|].
  change (String a (String.string_of_list_ascii (l1 ++ l2)) =
          String a (String.string_of_list_ascii l1 +:+ String.string_of_list_ascii l2)).
  by rewrite IH.
Qed.

Lemma chars_app s1 s2 : chars (s1 +:+ s2) = chars s1 ++ chars s2.
Proof.
  induction s1 as [|a s1 IH]; [done|].
  change (a :: chars (s1 +:+ s2) = a :: (chars s1 ++ chars s2)). by rewrite IH.
Qed.

Lemma string_of_chars s : String.string_of_list_ascii (chars s) = s.
Proof. apply String.string_of_list_ascii_of_string. Qed.

Lemma chars_of_string l : chars (String.string_of_list_ascii l) = l.
Proof. apply String.list_ascii_of_string_of_list_ascii. Qed.

Lemma lastIndexOf_absent s c : c ∉ chars s → lastIndexOf s c = -1.
Proof.
  induction s as [|a s IH]; [done|]. intros Hnot.
  apply not_elem_of_cons in Hnot as [Hne Hnot].
  apply lastIndexOf_absent_cons; auto.
Qed.

Lemma toLowerCase_keeps_dot s :
  "."%char ∈ chars s → "."%char ∈ chars (toLowerCase s).
Proof.
  induction s as [|a s IH]; [done|]. intros [<-|Hin]%elem_of_cons.
  - by left.
  - right. by apply IH.
Qed.

Lemma variant_format_has_no_dot format :
  toLowerCase format ∈ VARIANT_FORMATS → lastIndexOf format "." = -1.
Proof.
  intros Hfmt. apply lastIndexOf_absent. intros Hdot%toLowerCase_keeps_dot.
  unfold VARIANT_FORMATS in Hfmt.
  repeat (apply elem_of_cons in Hfmt as [Heq|Hfmt];
          [rewrite Heq in Hdot; vm_compute in Hdot;
           repeat (apply elem_of_cons in Hdot as [Hdot|Hdot]; [discriminate|]);
           by apply elem_of_nil in Hdot|]).
  by apply elem_of_nil in Hfmt.
Qed.

Lemma string_of_chars_rev_nil l : String.string_of_list_ascii (rev l) = "" → l = [].
Proof.
  intros H. rewrite <- (rev_involutive l). by destruct (rev l).
Qed.

(** [variantMatch] finds exactly the paths of the shape
    [base-digits(w|W).format]. *)
Lemma variantMatch_spec s base digits format :
  variantMatch s = Some (base, digits, format) ↔ variant_name s base digits format.
Proof.
  split.
  - unfold variantMatch. intros Hm.
    destruct (lastIndexOf_split s ".") as [Hno | (pre & post & Hs & Hpost)].
    { by rewrite Hno in Hm. }
    destruct (cut_at_last pre "." post Hpost) as (Hi & Hstem & Hfmt).
    rewrite <- Hs in Hi, Hstem, Hfmt. rewrite Hstem, Hfmt, Hi in Hm.
    destruct (len pre <? 0); [done|].
    destruct (bool_decide (toLowerCase post ∈ VARIANT_FORMATS)) eqn:Hin;
      [apply bool_decide_eq_true in Hin|done]. cbn [negb] in Hm.
    destruct (rev (String.list_ascii_of_string pre)) as [|c l] eqn:Hrev; [done|].
    destruct (Ascii.eqb_spec (lower_ascii c) "w") as [Hw|]; [|done].
    cbn [negb] in Hm.
    destruct (span_digits l) as [[|d ds] [|dash [|b bs]]] eqn:Hspan; try done.
    destruct (Ascii.eqb_spec dash "-") as [->|]; [|done]. cbn [andb] in Hm.
    destruct (forallb _ (b :: bs)) eqn:Hlt; [|done]. injection Hm as <- <- <-.
    change (rev bs ++ [b]) with (rev (b :: bs)).
    change (rev ds ++ [d]) with (rev (d :: ds)).
    apply span_digits_spec in Hspan as [-> Hds].
    assert (pre = String.string_of_list_ascii (rev (b :: bs)) +:+ "-" +:+
                  String.string_of_list_ascii (rev (d :: ds)) +:+ String c "") as ->.
    { rewrite <- (string_of_chars pre). fold (chars pre).
      rewrite <- (rev_involutive (chars pre)). unfold chars at 1. rewrite Hrev.
      change (c :: (d :: ds) ++ "-"%char :: b :: bs)
        with ([c] ++ (d :: ds) ++ ["-"%char] ++ (b :: bs)).
      rewrite !rev_app_distr, <- !app_assoc, !string_of_chars_app. done. }
    exists c. split; [|repeat split].
    + rewrite Hs, !string_app_assoc. done.
    + done.
    + by intros Hnil%string_of_chars_rev_nil.
    + rewrite chars_of_string. apply Forall_rev, Forall_forall.
      intros a Ha. rewrite forallb_forall in Hlt.
      apply negb_true_iff, Hlt. by apply list_elem_of_In.
    + by intros Hnil%string_of_chars_rev_nil.
    + rewrite chars_of_string. by apply Forall_rev.
    + done.
  - intros (w & -> & Hw & Hbase & Hlt & Hdigits & Hds & Hfmt).
    pose proof (variant_format_has_no_dot _ Hfmt) as Hdot.
    unfold variantMatch.
    replace (base +:+ "-" +:+ digits +:+ String w ("." +:+ format))
      with ((base +:+ "-" +:+ digits +:+ String w "") +:+ String "." format)
      by (by rewrite !string_app_assoc).
    destruct (cut_at_last (base +:+ "-" +:+ digits +:+ String w "") "." format Hdot)
      as (Hi & Hstem & Hsuffix).
    rewrite Hstem, Hsuffix, Hi.
    destruct (len _ <? 0) eqn:Hneg;
      [apply Z.ltb_lt in Hneg; pose proof (len_nonneg (base +:+ "-" +:+ digits +:+ String w "")); lia|].
    rewrite bool_decide_eq_true_2 by done. cbn [negb].
    fold (chars (base +:+ "-" +:+ digits +:+ String w "")).
    rewrite !chars_app. change (chars (String w "")) with [w].
    change (chars "-") with ["-"%char].
    replace (rev (chars base ++ ["-"%char] ++ chars digits ++ [w]))
      with (w :: rev (chars digits) ++ "-"%char :: rev (chars base)).
    2:{ rewrite !rev_app_distr. simpl. by rewrite <- app_assoc. }
    rewrite Hw, Ascii.eqb_refl. cbn [negb].
    rewrite (span_digits_app (rev (chars digits)) "-" (rev (chars base)));
      [|by apply Forall_rev|done].
    destruct (rev (chars digits)) as [|d ds] eqn:Hrd.
    { apply (f_equal (@rev ascii)) in Hrd. rewrite rev_involutive in Hrd.
      destruct digits; done. }
    destruct (rev (chars base)) as [|b bs] eqn:Hrb.
    { apply (f_equal (@rev ascii)) in Hrb. rewrite rev_involutive in Hrb.
      destruct base; done. }
    rewrite Ascii.eqb_refl. cbn [andb].
    assert (forallb (λ a, negb (is_line_terminator a)) (b :: bs) = true) as ->.
    { apply forallb_forall. intros a Ha. apply negb_true_iff.
      rewrite <- Hrb in Ha. apply in_rev in Ha.
      rewrite Forall_forall in Hlt. apply Hlt. by apply list_elem_of_In. }
    rewrite <- Hrb, <- Hrd, !rev_involutive, !string_of_chars. done.
Qed.

(** ** Staleness detector *)

Lemma fileExists_true path st :
  fileExists path st = true ↔ is_Some (outTree st !! path).
Proof. unfold fileExists. apply bool_decide_eq_true. Qed.

Lemma fileExists_false path st :
  fileExists path st = false ↔ outTree st !! path = None.
Proof.
  unfold fileExists. rewrite bool_decide_eq_false. symmetry.
  apply eq_None_not_Some.
Qed.

Lemma some_missing_existsb st (vs : list Variant) :
  existsb (λ variant, negb (fileExists (v_path variant) st)) vs = true ↔
  ∃ v, v ∈ vs ∧ outTree st !! v_path v = None.
Proof.
  rewrite existsb_exists. split; intros (v & Hin & Hv); exists v.
  - apply list_elem_of_In in Hin. apply negb_true_iff, fileExists_false in Hv. done.
  - split; [by apply list_elem_of_In|]. by apply negb_true_iff, fileExists_false.
Qed.

Lemma needsProcessing_STALE W p st :
  is_Some (inputTree W !! p) →
  needsProcessing W p st = true ↔ STALE W p st.
Proof.
  intros [src Hsrc]. unfold needsProcessing, STALE, no_entry_or_no_variants,
    some_variant_missing, source_newer_than_first_variant.
  destruct (images (manifest st) !! p) as [e|] eqn:He; [|by intuition].
  destruct (e_variants e) as [|v0 vs] eqn:Hvs; [by intuition|].
  destruct (existsb _ (v0 :: vs)) eqn:Hex.
  - apply some_missing_existsb in Hex as (v & Hin & Hv).
    split; [intros _|done]. right; left. exists e, v. by rewrite Hvs.
  - assert (Hall : ∀ v, v ∈ v0 :: vs → is_Some (outTree st !! v_path v)).
    { intros v Hin. destruct (outTree st !! v_path v) eqn:Hv; [done|].
      assert (existsb (λ variant, negb (fileExists (v_path variant) st))
                (v0 :: vs) = true) as Habs; [|congruence].
      apply some_missing_existsb. eauto. }
    rewrite Hsrc.
    destruct (Hall v0) as [o Ho]; [left|]. rewrite Ho.
    split.
    + intros Hgt. right; right. exists e, v0, src, o.
      rewrite Hvs. repeat split; try done. by apply Z.gtb_lt in Hgt.
    + intros [Hno | [(e' & v & He' & Hin & Hv) | (e' & v & src' & o' & He' & Hhd & Hs & Ho' & Hlt)]].
      * done.
      * simplify_eq. rewrite Hvs in Hin. destruct (Hall v Hin). congruence.
      * simplify_eq. rewrite Hvs in Hhd. simpl in Hhd. simplify_eq.
        by apply Z.gtb_lt.
Qed.

(** C4.  For an Original (a path whose source file is there to be
    stat'ed) [needsProcessing] answers STALE exactly when the path has no
    manifest entry or an entry without variants, or the output file of some
    variant is missing, or the source is strictly newer than the output file
    of the first variant; and FRESH otherwise. *)
Theorem needsProcessing_exactly_when_stale W p st :
  is_Some (inputTree W !! p) →
  (needsProcessing W p st = true ↔ STALE W p st) ∧
  (needsProcessing W p st = false ↔ ¬ STALE W p st).
Proof.
  intros Hsrc. pose proof (needsProcessing_STALE W p st Hsrc) as H.
  split; [done|]. rewrite <- H. by destruct (needsProcessing W p st).
Qed.

Lemma needsProcessing_exactly_when_stale_witness :
  let W := calm_world {[ "a.jpg" := image_file 100 500 300 ]} in
  (needsProcessing W "a.jpg" initial_state = true ↔ STALE W "a.jpg" initial_state) ∧
  (needsProcessing W "a.jpg" initial_state = false ↔ ¬ STALE W "a.jpg" initial_state).
Proof.
  apply (needsProcessing_exactly_when_stale
           (calm_world {[ "a.jpg" := image_file 100 500 300 ]}) "a.jpg"
           initial_state).
  vm_compute. eauto.
Defined.

(** What the [catch] of [needsProcessing] adds: a path whose source cannot
    be stat'ed is reported STALE although none of the three rules applies. *)
Lemma needsProcessing_source_gone W p st :
  inputTree W !! p = None → needsProcessing W p st = true.
Proof.
  intros Hsrc. unfold needsProcessing. rewrite Hsrc.
  destruct (images (manifest st) !! p) as [e|]; [|done].
  destruct (e_variants e); [done|]. by destruct (existsb _ _).
Qed.

(** ** Batch orchestrator: the single-flight guard *)

(** C8.  A call that finds the guard set returns the state it was given:
    manifest, output tree and trace untouched.  A call that finds it clear
    ends with the guard clear, whatever the [try] block did: returned early,
    ran to the end, or threw. *)
Theorem processAllImages_single_flight W cfg now forceAll st :
  if isProcessing st
  then processAllImages W cfg now forceAll st = st
  else isProcessing (processAllImages W cfg now forceAll st) = false.
Proof.
  unfold processAllImages. destruct (isProcessing st); [done|].
  by destruct (processAllImages_body _ _ _ _ _) as [[] ?].
Qed.

(** The exit paths of a run, each on a small environment: input directory
    missing, no image, nothing stale, a scan that throws, and a full run.
    The guard is clear after each. *)
Example guard_is_clear_after_every_exit :
  let run W st := processAllImages W default_config 1000 false st in
  let done := run hero_world initial_state in
  (* input directory missing *)
  (isProcessing (run (broken_world false true) initial_state) = false ∧
   trace (run (broken_world false true) initial_state) = [EvError LogInputMissing]) ∧
  (* no image found *)
  (run (calm_world ∅) initial_state = initial_state) ∧
  (* nothing stale: the second run changes nothing at all *)
  (encode_calls (trace done) = 2%nat ∧ run hero_world done = done) ∧
  (* the scan throws *)
  (isProcessing (run (broken_world true false) initial_state) = false ∧
   trace (run (broken_world true false) initial_state)
     = [EvError (LogBatchFailed ErrReaddir)]) ∧
  (* a full run *)
  isProcessing done = false.
Proof. vm_compute. repeat split. Qed.

(** ** Variant generator: the shape of a run *)

Lemma foldM_app {A B} (body : B → A → M B) acc (l1 l2 : list A) st :
  foldM body acc (l1 ++ l2) st =
  (acc' ← foldM body acc l1; foldM body acc' l2) st.
Proof.
  revert acc st. induction l1 as [|x l1 IH]; intros acc st; simpl.
  - done.
  - unfold_monad. destruct (body acc x st) as [[acc'|e] st']; [|done].
    apply IH.
Qed.

Lemma foldM_processFormat_map W cfg now p tw th fmts acc st :
  foldM (processFormat W cfg now p tw th) acc fmts st =
  foldM (processPair W cfg now p) acc ((λ f, (tw, th, f)) <$> fmts) st.
Proof.
  revert acc st. induction fmts as [|f fmts IH]; intros acc st; simpl; [done|].
  unfold_monad. unfold processPair at 1. simpl.
  destruct (processFormat W cfg now p tw th acc f st) as [[acc'|e] st']; [|done].
  apply IH.
Qed.

Lemma foldM_processSize_plan W cfg now p ow oh widths acc st :
  foldM (processSize W cfg now p ow oh) acc widths st =
  foldM (processPair W cfg now p) acc (planFor (formats cfg) ow oh widths) st.
Proof.
  revert acc st. induction widths as [|tw widths IH]; intros acc st; simpl; [done|].
  rewrite foldM_app. unfold_monad. unfold processSize at 1.
  destruct (tw >? ow); simpl.
  - apply IH.
  - rewrite foldM_processFormat_map.
    destruct (foldM _ acc (_ <$> formats cfg) st) as [[acc'|e] st']; [|done].
    apply IH.
Qed.

(** One step of the flattened loop. *)
Lemma processPair_run W cfg now p vs x st :
  processPair W cfg now p vs x st =
  if skipExisting cfg && fileExists (outputOf p x) st
  then (Ret (vs ++ [variantOf p x]), st)
  else if negb (mkdirOk W (parentDir (outputOf p x)))
  then (Throw (ErrMkdir (parentDir (outputOf p x))), st)
  else match toFile W cfg now p x.1.1 x.1.2 x.2 (outputOf p x) st with
       | (Ret _, st') => (Ret (vs ++ [variantOf p x]), st')
       | (Throw e, st') => (Throw e, st')
       end.
Proof.
  destruct x as [[tw th] f]. unfold processPair, processFormat, outputOf, variantOf.
  simpl. unfold_monad.
  destruct (skipExisting cfg && fileExists _ st); [done|].
  destruct (mkdirOk W _); simpl; [|done].
  by destruct (toFile _ _ _ _ _ _ _ _ _) as [[]].
Qed.

(** [processImage] once the two loops are flattened. *)
Lemma processImage_run W cfg now p st :
  processImage W cfg now p st =
  if negb (mkdirOk W (parentDir p)) then (Throw (ErrMkdir (parentDir p)), st)
  else
    match probe W p with
    | Unreadable =>
        (Ret tt, add_event (EvError (LogProcessFailed p (ErrDecode p))) st)
    | NoDimensions => (Ret tt, add_event (EvError (LogNoMetadata p)) st)
    | Dimensions ow oh =>
        match foldM (processPair W cfg now p) [] (plan cfg ow oh) st with
        | (Throw e, st1) =>
            (Ret tt, add_event (EvError (LogProcessFailed p e)) st1)
        | (Ret variants, st1) =>
            match (if keepOriginal cfg then copyOriginal W now p else mret tt) st1 with
            | (Throw e, st2) =>
                (Ret tt, add_event (EvError (LogProcessFailed p e)) st2)
            | (Ret _, st2) =>
                (Ret tt, set_entry p (mkEntry p ow oh variants) st2)
            end
        end
    end.
Proof.
  unfold processImage, probe, sharp_metadata. unfold_monad.
  destruct (mkdirOk W (parentDir p)); simpl; [|done].
  destruct (inputTree W !! p) as [[mt [md|]]|]; simpl; try done.
  destruct (truthy (m_width md)) as [ow|]; [|done].
  destruct (truthy (m_height md)) as [oh|]; [|done].
  rewrite foldM_processSize_plan. fold (plan cfg ow oh).
  destruct (foldM _ _ _ _) as [[vs|e] st1]; [|done].
  destruct (keepOriginal cfg); [|done].
  by destruct (copyOriginal W now p st1) as [[]].
Qed.

(** ** Variant generator: what a run may change *)

Lemma gen_step_refl now st : gen_step now st st.
Proof. split; auto. Qed.

Lemma gen_step_trans now st1 st2 st3 :
  gen_step now st1 st2 → gen_step now st2 st3 → gen_step now st1 st3.
Proof.
  intros [] []. split; try congruence; auto.
  intros k o Ho. destruct (gs_mtime1 k o Ho) as [H2|]; auto.
Qed.

Lemma gen_step_add_event now ev st : gen_step now st (add_event ev st).
Proof. split; auto. Qed.

Lemma gen_step_write now path c st :
  gen_step now st (set_outTree (<[path := mkOut now c]> (outTree st)) st).
Proof.
  split; simpl; auto.
  - intros k Hk. destruct (decide (path = k)) as [->|Hne].
    + rewrite lookup_insert_eq. eauto.
    + by rewrite lookup_insert_ne.
  - intros k o. destruct (decide (path = k)) as [->|Hne].
    + rewrite lookup_insert_eq. intros [= <-]. by right.
    + rewrite lookup_insert_ne by done. by left.
Qed.

Lemma toFile_gen_step W cfg now src w h f out st r st' :
  toFile W cfg now src w h f out st = (r, st') → gen_step now st st'.
Proof.
  unfold toFile. destruct (encodeOk _ _ _ _ _ _); intros [= <- <-].
  - eapply gen_step_trans; [apply gen_step_write | apply gen_step_add_event].
  - apply gen_step_add_event.
Qed.

Lemma processPair_gen_step W cfg now p vs x st r st' :
  processPair W cfg now p vs x st = (r, st') → gen_step now st st'.
Proof.
  rewrite processPair_run.
  destruct (skipExisting cfg && fileExists _ st).
  { intros [= <- <-]. apply gen_step_refl. }
  destruct (mkdirOk W _); simpl.
  2:{ intros [= <- <-]. apply gen_step_refl. }
  destruct (toFile _ _ _ _ _ _ _ _ _) as [[[]|e] st1] eqn:Hto;
    intros [= <- <-]; eapply toFile_gen_step; eauto.
Qed.

Lemma foldM_processPair_gen_step W cfg now p xs vs st r st' :
  foldM (processPair W cfg now p) vs xs st = (r, st') → gen_step now st st'.
Proof.
  revert vs st. induction xs as [|x xs IH]; intros vs st; simpl.
  - intros [= <- <-]. apply gen_step_refl.
  - unfold_monad.
    destruct (processPair W cfg now p vs x st) as [[vs1|e] st1] eqn:Hx.
    + intros H. eapply gen_step_trans; [eapply processPair_gen_step|eapply IH]; eauto.
    + intros [= <- <-]. eapply processPair_gen_step; eauto.
Qed.

Lemma copyOriginal_gen_step W now p st r st' :
  copyOriginal W now p st = (r, st') → gen_step now st st'.
Proof.
  unfold copyOriginal. unfold_monad.
  destruct (mkdirOk W _); simpl; [|intros [= <- <-]; apply gen_step_refl].
  destruct (writeOk W p); simpl; intros [= <- <-];
    [apply gen_step_write | apply gen_step_refl].
Qed.

Lemma batch_step_refl now L st : batch_step now L st st.
Proof. split; auto. Qed.

Lemma batch_step_trans now L1 L2 st1 st2 st3 :
  batch_step now L1 st1 st2 → batch_step now L2 st2 st3 →
  batch_step now (L1 ++ L2) st1 st3.
Proof.
  intros [] []. split; try congruence; auto.
  - intros q Hq. rewrite bs_others1, bs_others0; [done| |];
      intros ?; apply Hq, elem_of_app; auto.
  - intros k o Ho. destruct (bs_mtime1 k o Ho) as [H2|]; auto.
Qed.

Lemma gen_step_batch_step now L st st' : gen_step now st st' → batch_step now L st st'.
Proof. intros []. split; auto; congruence. Qed.

Lemma batch_step_set_entry now p e st st' :
  batch_step now [p] st st' → batch_step now [p] st (set_entry p e st').
Proof.
  intros []. split; simpl; auto.
  intros q Hq. rewrite lookup_insert_ne; [auto|]. intros ->. apply Hq. by left.
Qed.

(** [processImage] as a whole: the generator footprint, then possibly the
    replacement of the entry of [p]. *)
Lemma processImage_footprint W cfg now p st r st' :
  processImage W cfg now p st = (r, st') → batch_step now [p] st st'.
Proof.
  rewrite processImage_run.
  destruct (mkdirOk W (parentDir p)); simpl;
    [|intros [= <- <-]; apply batch_step_refl].
  destruct (probe W p) as [| |ow oh];
    try (intros [= <- <-]; apply gen_step_batch_step, gen_step_add_event).
  destruct (foldM _ _ _ _) as [[vs|e] st1] eqn:Hloop;
    apply foldM_processPair_gen_step in Hloop.
  2:{ intros [= <- <-]. apply gen_step_batch_step.
      eapply gen_step_trans; [done | apply gen_step_add_event]. }
  destruct (keepOriginal cfg).
  - destruct (copyOriginal W now p st1) as [[[]|e] st2] eqn:Hcopy;
      apply copyOriginal_gen_step in Hcopy;
      pose proof (gen_step_trans _ _ _ _ Hloop Hcopy) as Hstep;
      intros [= <- <-].
    + by apply batch_step_set_entry, gen_step_batch_step.
    + apply gen_step_batch_step.
      eapply gen_step_trans; [done | apply gen_step_add_event].
  - unfold_monad. intros [= <- <-].
    by apply batch_step_set_entry, gen_step_batch_step.
Qed.

(** ** Variant generator: the variant list *)

Lemma foldM_processPair_variants W cfg now p xs vs st vs' st' :
  foldM (processPair W cfg now p) vs xs st = (Ret vs', st') →
  vs' = vs ++ (variantOf p <$> xs).
Proof.
  revert vs st. induction xs as [|x xs IH]; intros vs st; simpl.
  - intros [= <- <-]. by rewrite app_nil_r.
  - unfold_monad.
    destruct (processPair W cfg now p vs x st) as [[vs1|e] st1] eqn:Hx; [|done].
    intros Hrest. apply IH in Hrest as ->.
    rewrite processPair_run in Hx.
    assert (vs1 = vs ++ [variantOf p x]) as ->.
    { destruct (skipExisting cfg && fileExists _ st); [congruence|].
      destruct (mkdirOk W _); simpl in Hx; [|done].
      destruct (toFile _ _ _ _ _ _ _ _ _) as [[[]|e] st2]; congruence. }
    by rewrite <- app_assoc.
Qed.

Lemma elem_of_planFor fmts ow oh widths x :
  x ∈ planFor fmts ow oh widths ↔
  x.1.1 ∈ widths ∧ x.1.1 ≤ ow ∧ x.1.2 = targetHeightOf x.1.1 ow oh ∧ x.2 ∈ fmts.
Proof.
  unfold planFor. rewrite list_elem_of_In, in_flat_map. split.
  - intros (tw & Htw & Hx). apply list_elem_of_In in Htw.
    destruct (tw >? ow) eqn:Hgt; [done|].
    apply list_elem_of_In, list_elem_of_fmap in Hx as (f & -> & Hf). simpl.
    rewrite Z.gtb_ltb in Hgt. apply Z.ltb_ge in Hgt. done.
  - destruct x as [[tw th] f]. simpl. intros (Htw & Hle & -> & Hf).
    exists tw. split; [by apply list_elem_of_In|].
    destruct (tw >? ow) eqn:Hgt.
    { rewrite Z.gtb_ltb in Hgt. apply Z.ltb_lt in Hgt. lia. }
    apply list_elem_of_In, list_elem_of_fmap. by exists f.
Qed.

Lemma entry_ok_plan cfg p ow oh :
  entry_ok cfg p (mkEntry p ow oh (variantOf p <$> plan cfg ow oh)).
Proof.
  split; [done|]. simpl. apply Forall_fmap, Forall_forall.
  intros [[tw th] f] Hx. apply elem_of_planFor in Hx as (? & ? & ? & ?).
  simpl in *. repeat split; eauto.
Qed.

(** What [processImage] does to the manifest: nothing, or the entry of [p]
    is replaced by the freshly measured one. *)
Lemma processImage_manifest W cfg now p st :
  let st' := (processImage W cfg now p st).2 in
  images (manifest st') = images (manifest st) ∨
  ∃ ow oh, probe W p = Dimensions ow oh ∧
    images (manifest st') =
    <[p := mkEntry p ow oh (variantOf p <$> plan cfg ow oh)]>
      (images (manifest st)).
Proof.
  simpl. rewrite processImage_run.
  destruct (mkdirOk W (parentDir p)); simpl; [|by left].
  destruct (probe W p) as [| |ow oh]; try by left.
  destruct (foldM _ _ _ _) as [[vs|e] st1] eqn:Hloop.
  2:{ left. apply foldM_processPair_gen_step in Hloop as []. simpl. congruence. }
  pose proof (foldM_processPair_variants _ _ _ _ _ _ _ _ _ Hloop) as ->.
  apply foldM_processPair_gen_step in Hloop as Hstep.
  assert (∀ r st2, (if keepOriginal cfg then copyOriginal W now p else mret tt) st1
                   = (r, st2) → manifest st2 = manifest st) as Hcopy.
  { intros r st2. destruct (keepOriginal cfg).
    - intros Hc. apply copyOriginal_gen_step in Hc as []. destruct Hstep. congruence.
    - unfold_monad. intros [= <- <-]. by destruct Hstep. }
  destruct (keepOriginal cfg);
    [destruct (copyOriginal W now p st1) as [[[]|e] st2] eqn:Hc|];
    simpl; try (left; by erewrite Hcopy).
  - right. exists ow, oh. split; [done|]. by erewrite Hcopy.
  - right. exists ow, oh. split; [done|]. by erewrite (Hcopy (Ret tt) st1).
Qed.

Lemma truthy_Some x z : truthy x = Some z → x = Some z ∧ z ≠ 0.
Proof.
  destruct x as [y|]; simpl; [|done].
  destruct (y =? 0) eqn:Hy; [done|]. intros [= ->].
  split; [done|]. by apply Z.eqb_neq.
Qed.

Lemma probe_Dimensions_metadata W p ow oh :
  probe W p = Dimensions ow oh →
  ∃ src md, inputTree W !! p = Some src ∧ metadata src = Some md ∧
            m_width md = Some ow ∧ m_height md = Some oh.
Proof.
  unfold probe. destruct (inputTree W !! p) as [[mt [md|]]|]; try done.
  destruct (truthy (m_width md)) as [w|] eqn:Hw; [|done].
  destruct (truthy (m_height md)) as [h|] eqn:Hh; [|done].
  intros [= <- <-]. apply truthy_Some in Hw as [Hw _]. apply truthy_Some in Hh as [Hh _].
  by exists (mkSrc mt (Some md)), md.
Qed.

(** The events one [processImage] adds to the trace.  *)
Lemma foldM_processPair_trace W cfg now p xs vs st r st' :
  foldM (processPair W cfg now p) vs xs st = (r, st') →
  ∃ new, trace st' = new ++ trace st ∧
    ∀ ev, ev ∈ new →
      ∃ x ok, x ∈ xs ∧
        ev = EvEncode p (Some x.1.1) (Some x.1.2) (Some x.2) (Some (outputOf p x)) ok.
Proof.
  revert vs st. induction xs as [|x xs IH]; intros vs st; simpl.
  - intros [= <- <-]. exists []. split; [done|]. by intros ev Hev%elem_of_nil.
  - unfold_monad. rewrite processPair_run.
    assert (∀ vs1 s1 new1,
              trace s1 = new1 ++ trace st →
              (∀ ev, ev ∈ new1 → ∃ ok,
                 ev = EvEncode p (Some x.1.1) (Some x.1.2) (Some x.2)
                        (Some (outputOf p x)) ok) →
              foldM (processPair W cfg now p) vs1 xs s1 = (r, st') →
              ∃ new, trace st' = new ++ trace st ∧
                ∀ ev, ev ∈ new →
                  ∃ y ok, y ∈ x :: xs ∧
                    ev = EvEncode p (Some y.1.1) (Some y.1.2) (Some y.2)
                           (Some (outputOf p y)) ok) as Hrest.
    { intros vs1 s1 new1 Htr Hnew1 Hfold.
      destruct (IH _ _ Hfold) as (new & Htr' & Hnew).
      exists (new ++ new1). split; [by rewrite Htr', Htr, app_assoc|].
      intros ev [Hev|Hev]%elem_of_app.
      - destruct (Hnew ev Hev) as (y & ok & Hy & ->). exists y, ok. split; [by right|done].
      - destruct (Hnew1 ev Hev) as (ok & ->). exists x, ok. split; [by left|done]. }
    destruct (skipExisting cfg && fileExists _ st).
    { apply (Hrest _ _ []); [done|]. by intros ev Hev%elem_of_nil. }
    destruct (mkdirOk W _); simpl.
    2:{ intros [= <- <-]. exists []. split; [done|]. by intros ev Hev%elem_of_nil. }
    unfold toFile. destruct (encodeOk _ _ _ _ _ _).
    + apply (Hrest _ _ [EvEncode p (Some x.1.1) (Some x.1.2) (Some x.2)
                          (Some (outputOf p x)) true]); [done|].
      intros ev [->|Hev]%elem_of_cons; [eauto|by apply elem_of_nil in Hev].
    + intros [= <- <-]. eexists [_]. split; [done|].
      intros ev [->|Hev]%elem_of_cons; [|by apply elem_of_nil in Hev].
      exists x, false. split; [by left|done].
Qed.

Lemma copyOriginal_keeps_trace W now p st r st' :
  copyOriginal W now p st = (r, st') → trace st' = trace st.
Proof.
  unfold copyOriginal, ensureDir. destruct (mkdirOk W _); unfold_monad; simpl.
  - destruct (writeOk W p); by intros [= <- <-].
  - by intros [= <- <-].
Qed.

(** The encoder calls of one [processImage]: one per planned pair at most,
    and none without measured dimensions. *)
Lemma processImage_encodes_the_plan W cfg now p st :
  ∃ new, trace (processImage W cfg now p st).2 = new ++ trace st ∧
    ∀ src w h f out ok, EvEncode src w h f out ok ∈ new →
      ∃ x, x ∈ planOf W cfg p ∧ src = p ∧ w = Some x.1.1 ∧ h = Some x.1.2 ∧ f = Some x.2.
Proof.
  unfold planOf. rewrite processImage_run.
  destruct (mkdirOk W (parentDir p)); simpl.
  2:{ exists []. split; [done|]. by intros ?????? Hev%elem_of_nil. }
  destruct (probe W p) as [| |ow oh]; simpl.
  1,2: (eexists [_]; split; [done|];
        intros ?????? [Hev|Hev]%elem_of_cons; [done|by apply elem_of_nil in Hev]).
  destruct (foldM _ _ _ _) as [[vs|e] st1] eqn:Hloop;
    destruct (foldM_processPair_trace _ _ _ _ _ _ _ _ _ Hloop) as (new & Htr & Hnew).
  - destruct ((if keepOriginal cfg then copyOriginal W now p else mret tt) st1)
      as [r2 st2] eqn:Hc.
    assert (trace st2 = trace st1) as Htr2.
    { destruct (keepOriginal cfg).
      - by eapply copyOriginal_keeps_trace.
      - revert Hc. unfold_monad. by intros [= <- <-]. }
    destruct r2 as [[]|e]; simpl; rewrite Htr2, Htr.
    + exists new. split; [done|]. intros src w h f out ok Hev.
      destruct (Hnew _ Hev) as (x & ok' & Hx & [= -> -> -> -> _ _]). by exists x.
    + exists (EvError (LogProcessFailed p e) :: new). split; [done|].
      intros src w h f out ok [Hev|Hev]%elem_of_cons; [done|].
      destruct (Hnew _ Hev) as (x & ok' & Hx & [= -> -> -> -> _ _]). by exists x.
  - simpl. rewrite Htr. exists (EvError (LogProcessFailed p e) :: new). split; [done|].
    intros src w h f out ok [Hev|Hev]%elem_of_cons; [done|].
    destruct (Hnew _ Hev) as (x & ok' & Hx & [= -> -> -> -> _ _]). by exists x.
Qed.

(** C3.  Every manifest entry that [processImage] produces keeps the
    no-enlargement invariant against the width that the decoder reports for
    the source: the entry records that width and that height, each of its
    variants has a width that is one of the configured widths and is at most
    that intrinsic width, and a configured width above it yields no variant.
    Whatever the outcome of the call, the encoder is never asked for a width
    above the intrinsic width of the source. *)
Theorem processImage_never_upscales W cfg now p st :
  let st' := (processImage W cfg now p st).2 in
  (images (manifest st') = images (manifest st) ∨
   ∃ src md originalWidth originalHeight e,
     inputTree W !! p = Some src ∧ metadata src = Some md ∧
     m_width md = Some originalWidth ∧ m_height md = Some originalHeight ∧
     images (manifest st') = <[p := e]> (images (manifest st)) ∧
     e_width e = originalWidth ∧ e_height e = originalHeight ∧
     Forall (λ v, v_width v ≤ originalWidth ∧ v_width v ∈ sizes cfg ∧
                  v_path v = getOutputFilename p (v_width v) (v_format v))
       (e_variants e) ∧
     (∀ targetWidth, originalWidth < targetWidth →
        ∀ v, v ∈ e_variants e → v_width v ≠ targetWidth)) ∧
  ∃ new, trace st' = new ++ trace st ∧
    ∀ src w h f out ok, EvEncode src w h f out ok ∈ new →
      ∃ source md originalWidth targetWidth,
        inputTree W !! p = Some source ∧ metadata source = Some md ∧
        m_width md = Some originalWidth ∧
        src = p ∧ w = Some targetWidth ∧ targetWidth ∈ sizes cfg ∧
        targetWidth ≤ originalWidth.
Proof.
  simpl. split.
  - destruct (processImage_manifest W cfg now p st) as [Hsame | (ow & oh & Hprobe & Hnew)];
      [by left|].
    right.
    destruct (probe_Dimensions_metadata _ _ _ _ Hprobe) as (src & md & Hsrc & Hmd & Hw & Hh).
    exists src, md, ow, oh, (mkEntry p ow oh (variantOf p <$> plan cfg ow oh)).
    destruct (entry_ok_plan cfg p ow oh) as [_ Hvs].
    do 7 (split; [done|]). split.
    + eapply Forall_impl; [exact Hvs|]. simpl.
      intros v (Hle & Hin & _ & _ & _ & Hpath). auto.
    + intros tw Hlt v Hv. rewrite Forall_forall in Hvs.
      destruct (Hvs v Hv) as (Hle & _). simpl in *. lia.
  - destruct (processImage_encodes_the_plan W cfg now p st) as (new & Htr & Hnew).
    exists new. split; [done|]. intros src w h f out ok Hev.
    destruct (Hnew _ _ _ _ _ _ Hev) as (x & Hx & -> & -> & _).
    unfold planOf in Hx. destruct (probe W p) as [| |ow oh] eqn:Hprobe;
      try (by apply elem_of_nil in Hx).
    destruct (probe_Dimensions_metadata _ _ _ _ Hprobe) as (source & md & Hsrc & Hmd & Hw & _).
    apply elem_of_planFor in Hx as (Hin & Hle & _).
    exists source, md, ow, x.1.1. done.
Qed.

(** An Original 500 pixels wide with the widths 320 and 640 configured: the
    entry has the 320 variant only, and no [-640w] file is written. *)
Example no_640w_variant_of_a_500_wide_original :
  let W := calm_world {[ "a.jpg" := image_file 100 500 300 ]} in
  let st' := (processImage W (config_with [webp] [320; 640]) 1000 "a.jpg"
                initial_state).2 in
  (λ e, v_path <$> e_variants e) <$> images (manifest st') !! "a.jpg"
    = Some ["a-320w.webp"] ∧
  outTree st' !! "a-640w.webp" = None.
Proof. split; vm_compute; reflexivity. Qed.

(** ** Variant generator: the recorded height *)

(** In every entry [processImage] writes, the height of a variant is
    [Math.round(width * (originalHeight / originalWidth))] evaluated in
    doubles, quotient first. *)
Lemma processImage_recorded_height W cfg now p st e :
  let st' := (processImage W cfg now p st).2 in
  images (manifest st') ≠ images (manifest st) →
  images (manifest st') !! p = Some e →
  Forall (λ v, v_height v = targetHeightOf (v_width v) (e_width e) (e_height e))
    (e_variants e).
Proof.
  simpl. intros Hne He.
  destruct (processImage_manifest W cfg now p st) as [Hsame | (ow & oh & _ & Hnew)];
    [done|].
  simpl in Hnew. rewrite Hnew, lookup_insert_eq in He. injection He as <-.
  destruct (entry_ok_plan cfg p ow oh) as [_ Hvs].
  eapply Forall_impl; [exact Hvs|]. simpl. intros v (_ & _ & _ & Hh & _). done.
Qed.

(** C9.  The recorded height is not always
    [round(targetWidth * originalHeight / originalWidth)].  For an Original
    of 640 by 408 and the configured width 200 the exact value is 127.5,
    which rounds to 128; the source first rounds [408 / 640] to a double,
    the product comes out just below 127.5, and the entry records 127. *)
Theorem recorded_height_is_one_below_exact_rounding :
  let W := calm_world {[ "banner.jpg" := image_file 100 640 408 ]} in
  let st' := (processImage W (config_with [webp] [200]) 1000 "banner.jpg"
                initial_state).2 in
  e_variants <$> images (manifest st') !! "banner.jpg"
    = Some [mkVariant "webp" 200 "banner-200w.webp" 200 127] ∧
  round_div (200 * 408) 640 = 128 ∧
  2 * (200 * 408) = 255 * 640.
Proof. repeat split; vm_compute; reflexivity. Qed.

(** Where the quotient is exact in binary the two agree, for instance on a
    1000 by 750 Original at the default widths. *)
Example recorded_height_default_widths :
  targetHeightOf 320 1000 750 = round_div (320 * 750) 1000 ∧
  targetHeightOf 640 1000 750 = round_div (640 * 750) 1000.
Proof. split; vm_compute; reflexivity. Qed.

(** ** On the fly: the format switch *)

Lemma encoderOf_unknown format : format ∉ VARIANT_FORMATS → encoderOf format = None.
Proof.
  unfold VARIANT_FORMATS, encoderOf. intros Hnot.
  repeat match goal with
  | |- context [String.eqb format ?s] =>
      destruct (String.eqb_spec format s) as [->|_];
      [exfalso; apply Hnot; set_solver|]
  end.
  done.
Qed.

(** [optimizeOnTheFly] on a source that is there with both dimensions: one
    encoder call, whose outcome decides the result. *)
Lemma optimizeOnTheFly_run W p width format quality st src md metaWidth metaHeight :
  inputTree W !! p = Some src →
  metadata src = Some md →
  truthy (m_width md) = Some metaWidth →
  truthy (m_height md) = Some metaHeight →
  let targetWidth := default (Some metaWidth) width in
  let targetHeight := (λ tw, targetHeightOf tw metaWidth metaHeight) <$> targetWidth in
  optimizeOnTheFly W p width format quality st =
  if encodeOk W p targetWidth targetHeight (encoderOf format) quality
  then (Ret (Some (Encoded p targetWidth targetHeight (encoderOf format) quality,
                   contentTypeOf format md)),
        add_event (EvEncode p targetWidth targetHeight (encoderOf format) None true) st)
  else (Ret None,
        add_event (EvError (LogOnTheFlyFailed p (ErrEncode p)))
          (add_event (EvEncode p targetWidth targetHeight (encoderOf format) None false)
             st)).
Proof.
  intros Hsrc Hmd Hw Hh tw th.
  unfold optimizeOnTheFly, inputExists, sharp_metadata, toBuffer.
  rewrite Hsrc. destruct src as [mt md']. simpl in Hmd. subst md'.
  rewrite bool_decide_eq_true_2 by eauto. simpl. unfold_monad.
  rewrite Hw, Hh. fold tw th.
  by destruct (encodeOk W p tw th (encoderOf format) quality).
Qed.


(** C10 as it is worded fails: the resize to width 0 ([?w=0&format=bmp]) is
    rejected, the [catch] logs it and the call returns [null], although the
    source is there and readable. *)
Lemma unknown_format_fails_at_width_0 : ¬ unknown_format_never_fails.
Proof.
  intros Hclaim.
  destruct (Hclaim (resize_world {[ "hero.jpg" := image_file 100 1000 500 ]})
              "hero.jpg" (Some (Some 0)) "bmp" (Some 80) initial_state
              (image_file 100 1000 500)
              (mkMetadata (Some 1000) (Some 500) (Some "jpeg")) 1000 500)
    as (buffer & st' & Hrun); try reflexivity.
  - vm_compute. intros H. repeat (apply elem_of_cons in H as [H|H]; [discriminate|]).
    by apply elem_of_nil in H.
  - vm_compute in Hrun. discriminate.
Qed.

(** C10, as the source has it.  For a source that exists and whose metadata
    gives both dimensions, a format outside webp, avif, jpeg, jpg, png takes
    the default branch of the switch: the pipeline is the resize alone (to
    the requested width, or the intrinsic one when none is given, and the
    height that follows from the aspect ratio) with no encoder attached.
    When that pipeline delivers its buffer, the result is the buffer with
    the content type ["image/"] followed by the detected format of the
    source, or ["image/jpeg"] when none was detected; when it throws, the
    failure is logged and the result is [null]. *)
Theorem optimizeOnTheFly_unknown_format W relativePath width format quality st
    src md metaWidth metaHeight :
  inputTree W !! relativePath = Some src →
  metadata src = Some md →
  truthy (m_width md) = Some metaWidth →
  truthy (m_height md) = Some metaHeight →
  format ∉ VARIANT_FORMATS →
  let targetWidth := default (Some metaWidth) width in
  let targetHeight := (λ tw, targetHeightOf tw metaWidth metaHeight) <$> targetWidth in
  optimizeOnTheFly W relativePath width format quality st =
  if encodeOk W relativePath targetWidth targetHeight None quality
  then (Ret (Some (Encoded relativePath targetWidth targetHeight None quality,
                   "image/" +:+ default "jpeg" (m_format md))),
        add_event (EvEncode relativePath targetWidth targetHeight None None true) st)
  else (Ret None,
        add_event (EvError (LogOnTheFlyFailed relativePath (ErrEncode relativePath)))
          (add_event (EvEncode relativePath targetWidth targetHeight None None false)
             st)).
Proof.
  intros Hsrc Hmd Hw Hh Hfmt tw th.
  rewrite (optimizeOnTheFly_run W relativePath width format quality st src md
             metaWidth metaHeight Hsrc Hmd Hw Hh).
  unfold contentTypeOf. rewrite (encoderOf_unknown _ Hfmt). done.
Qed.

Lemma optimizeOnTheFly_unknown_format_witness :
  optimizeOnTheFly (calm_world {[ "hero.jpg" := image_file 100 1000 500 ]})
    "hero.jpg" (Some (Some 400)) "bmp" (Some 80) initial_state =
  (Ret (Some (Encoded "hero.jpg" (Some 400) (Some 200) None (Some 80), "image/jpeg")),
   add_event (EvEncode "hero.jpg" (Some 400) (Some 200) None None true)
     initial_state).
Proof.
  apply (optimizeOnTheFly_unknown_format
           (calm_world {[ "hero.jpg" := image_file 100 1000 500 ]})
           "hero.jpg" (Some (Some 400)) "bmp" (Some 80) initial_state
           (image_file 100 1000 500)
           (mkMetadata (Some 1000) (Some 500) (Some "jpeg")) 1000 500);
    try reflexivity.
  vm_compute. intros H. repeat (apply elem_of_cons in H as [H|H]; [discriminate|]).
  by apply elem_of_nil in H.
Defined.

(** ** On the fly: responses *)

(** A request with a variant file name never gets the
    [X-Image-Optimized] header, whether the file is served from the output
    tree or generated for this request. *)
Lemma variant_request_has_no_signal W cfg now req st m resp st' :
  variantMatch (req_path req) = Some m →
  route W cfg now req st = (Ret resp, st') →
  header "X-Image-Optimized" resp = None.
Proof.
  intros Hm. unfold route. rewrite Hm. destruct m as [[basePath widthStr] format].
  destruct (_ || _); [by intros [= <- <-]|]. unfold_monad.
  destruct (fileExists _ st); [by intros [= <- <-]|].
  destruct (find _ _) as [ext|]; [|by intros [= <- <-]].
  destruct (optimizeOnTheFly _ _ _ _ _ _) as [[[[buffer contentType]|]|e] st1];
    [| by intros [= <- <-] | done].
  destruct (mkdirOk W _); simpl; [|done].
  unfold bunWrite. destruct (writeOk W _); simpl; [|done]. unfold_monad.
  by intros [= <- <-].
Qed.

(** A response served from a file never has the header either. *)
Lemma file_response_has_no_signal W cfg now req st resp st' :
  route W cfg now req st = (Ret resp, st') →
  (∀ buffer, body resp ≠ BodyBuffer buffer) →
  header "X-Image-Optimized" resp = None.
Proof.
  destruct (variantMatch (req_path req)) as [m|] eqn:Hm.
  { intros Hroute _. by eapply variant_request_has_no_signal. }
  unfold route. rewrite Hm.
  destruct (_ || _); [by intros [= <- <-]|]. unfold_monad.
  destruct (negb (present (req_w req)) && _ && _).
  - destruct (fileExists _ st); [by intros [= <- <-]|].
    destruct (inputExists W _); by intros [= <- <-].
  - destruct (optimizeOnTheFly _ _ _ _ _ _) as [[[[buffer contentType]|]|e] st1];
      [| by intros [= <- <-] | done].
    intros [= <- <-] Hbody. by destruct (Hbody buffer).
Qed.

(** C6.  The first request for [hero-640w.webp], with no such file in the
    output tree and [hero.jpg] in the input tree, is answered by live
    generation (one encoder call, the buffer as body, the file written); the
    second is answered from that file with no further encoder call.  The two
    responses carry the same status and the same headers, and neither has
    the [X-Image-Optimized] header: nothing in the response metadata tells
    the generated response from the cached one. *)
Theorem generated_variant_response_looks_cached :
  let req := mkRequest "hero-640w.webp" None None None in
  ∃ resp1 st1 resp2 st2,
    route hero_world default_config 1000 req initial_state = (Ret resp1, st1) ∧
    route hero_world default_config 2000 req st1 = (Ret resp2, st2) ∧
    body resp1 =
      BodyBuffer (Encoded "hero.jpg" (Some 640) (Some 320) (Some webp) (Some 80)) ∧
    encode_calls (trace st1) = 1%nat ∧
    body resp2 = BodyOutputFile "hero-640w.webp" ∧
    encode_calls (trace st2) = 1%nat ∧
    status resp1 = status resp2 ∧
    headers resp1 = headers resp2 ∧
    header "X-Image-Optimized" resp1 = None.
Proof. vm_compute. do 4 eexists. repeat split. Qed.


(** A parameter that is there but empty counts as absent: [hero.jpg?w=]
    is answered from the output tree when a file of that name is in it. *)
Lemma empty_parameter_is_served_from_file :
  let st := set_outTree {[ "hero.jpg" := mkOut 500 (CopyOf "hero.jpg") ]} initial_state in
  ∃ resp st',
    route hero_world default_config 1000 (mkRequest "hero.jpg" (Some "") None None) st
      = (Ret resp, st') ∧
    body resp = BodyOutputFile "hero.jpg" ∧ encode_calls (trace st') = 0%nat.
Proof. vm_compute. do 2 eexists. repeat split. Qed.




(** ** Variant generator: failures *)

(** With webp before avif, the webp failure ends the run for the Original:
    the avif variant is never encoded and no entry is written. *)
Lemma one_failure_stops_the_original : ¬ encode_failures_are_isolated.
Proof.
  intros Hclaim.
  destruct (Hclaim no_webp_world (config_with [webp; avif] [320]) 1000 "a.jpg"
              initial_state 1000 500 (320, 160, avif)) as [[o Hfile] _].
  - done.
  - reflexivity.
  - vm_compute. apply elem_of_cons. right. apply elem_of_cons. by left.
  - reflexivity.
  - vm_compute in Hfile. discriminate.
Qed.

(** C1, as the source has it.  The loops run inside one [try]: when the
    encode of a variant fails, [processImage] stops at that variant.  It
    returns normally after logging the failure, the state it leaves is the
    state reached after the variants before the failing one plus the failed
    call and the log line, so no later variant is attempted and the files
    written before stay on disk, and the manifest is not touched: the
    Original contributes no new entry. *)
Theorem encode_failure_abandons_the_original W cfg now p st ow oh
    before x after vs st1 :
  mkdirOk W (parentDir p) = true →
  probe W p = Dimensions ow oh →
  plan cfg ow oh = before ++ x :: after →
  foldM (processPair W cfg now p) [] before st = (Ret vs, st1) →
  skipExisting cfg && fileExists (outputOf p x) st1 = false →
  mkdirOk W (parentDir (outputOf p x)) = true →
  encodeOk W p (Some x.1.1) (Some x.1.2) (Some x.2) (Some (quality cfg)) = false →
  processImage W cfg now p st =
    (Ret tt,
     add_event (EvError (LogProcessFailed p (ErrEncode p)))
       (add_event (EvEncode p (Some x.1.1) (Some x.1.2) (Some x.2)
                     (Some (outputOf p x)) false) st1)) ∧
  manifest st1 = manifest st.
Proof.
  intros Hdir Hprobe Hplan Hbefore Hskip Hmk Henc.
  rewrite processImage_run, Hdir, Hprobe, Hplan. simpl.
  rewrite foldM_app. unfold_monad. rewrite Hbefore. simpl. unfold_monad.
  rewrite processPair_run, Hskip, Hmk. simpl. unfold toFile. rewrite Henc.
  split; [done|].
  by apply foldM_processPair_gen_step in Hbefore as [].
Qed.

Lemma encode_failure_abandons_the_original_witness :
  processImage no_webp_world (config_with [avif; webp] [320; 640]) 1000 "a.jpg"
    initial_state =
    (Ret tt,
     add_event (EvError (LogProcessFailed "a.jpg" (ErrEncode "a.jpg")))
       (add_event (EvEncode "a.jpg" (Some 320) (Some 160) (Some webp)
                     (Some "a-320w.webp") false)
          (add_event (EvEncode "a.jpg" (Some 320) (Some 160) (Some avif)
                        (Some "a-320w.avif") true)
             (set_outTree {[ "a-320w.avif" :=
                 mkOut 1000 (Encoded "a.jpg" (Some 320) (Some 160) (Some avif) (Some 80)) ]}
                initial_state)))) ∧
  manifest
    (add_event (EvEncode "a.jpg" (Some 320) (Some 160) (Some avif)
                  (Some "a-320w.avif") true)
       (set_outTree {[ "a-320w.avif" :=
           mkOut 1000 (Encoded "a.jpg" (Some 320) (Some 160) (Some avif) (Some 80)) ]}
          initial_state)) = manifest initial_state.
Proof.
  apply (encode_failure_abandons_the_original no_webp_world
           (config_with [avif; webp] [320; 640]) 1000 "a.jpg" initial_state
           1000 500 [(320, 160, avif)] (320, 160, webp)
           [(640, 320, avif); (640, 320, webp)]
           [variantOf "a.jpg" (320, 160, avif)]);
    vm_compute; reflexivity.
Defined.

(** The total failure of the specification: a source that cannot be decoded
    contributes nothing, and the error is logged, not thrown. *)
Lemma processImage_unreadable_source W cfg now p st :
  mkdirOk W (parentDir p) = true →
  probe W p = Unreadable →
  processImage W cfg now p st =
  (Ret tt, add_event (EvError (LogProcessFailed p (ErrDecode p))) st).
Proof. intros Hdir Hprobe. by rewrite processImage_run, Hdir, Hprobe. Qed.

(** ** Idempotence of the batch *)

Lemma forM_cons {A} (x : A) l (body : A → M unit) st :
  forM (x :: l) body st =
  match body x st with
  | (Ret _, st') => forM l body st'
  | (Throw e, st') => (Throw e, st')
  end.
Proof.
  unfold forM. simpl. unfold_monad. by destruct (body x st) as [[[]|e] st'].
Qed.

Lemma foldM_processPair_all_skipped W cfg now p xs vs st :
  skipExisting cfg = true →
  (∀ x, x ∈ xs → is_Some (outTree st !! outputOf p x)) →
  foldM (processPair W cfg now p) vs xs st =
  (Ret (vs ++ (variantOf p <$> xs)), st).
Proof.
  intros Hskip. revert vs. induction xs as [|x xs IH]; intros vs Hall; simpl.
  - by rewrite app_nil_r.
  - unfold_monad. rewrite processPair_run, Hskip.
    rewrite (proj2 (fileExists_true _ _)) by (apply Hall; by left). simpl.
    rewrite IH by (intros y Hy; apply Hall; by right).
    by rewrite <- app_assoc.
Qed.

Lemma copyOriginal_trace W now p st r st' :
  copyOriginal W now p st = (r, st') → trace st' = trace st.
Proof.
  unfold copyOriginal. unfold_monad.
  destruct (mkdirOk W _); simpl; [|by intros [= <- <-]].
  destruct (writeOk W p); simpl; by intros [= <- <-].
Qed.

(** A call of [processImage] in which every planned output is skipped as
    existing does not reach the encoder. *)
Lemma processImage_no_encode W cfg now p st :
  (∀ x, x ∈ planOf W cfg p →
     skipExisting cfg = true ∧ is_Some (outTree st !! outputOf p x)) →
  encode_calls (trace (processImage W cfg now p st).2) = encode_calls (trace st).
Proof.
  unfold planOf. intros Hall. rewrite processImage_run.
  destruct (mkdirOk W (parentDir p)); simpl; [|done].
  destruct (probe W p) as [| |ow oh]; try done.
  assert (foldM (processPair W cfg now p) [] (plan cfg ow oh) st =
          (Ret (variantOf p <$> plan cfg ow oh), st)) as ->.
  { destruct (plan cfg ow oh) as [|x xs] eqn:Hplan; [done|].
    destruct (Hall x) as [Hskip _]; [by left|].
    rewrite (foldM_processPair_all_skipped _ _ _ _ _ [] st Hskip); [done|].
    intros y Hy. by apply Hall. }
  destruct (keepOriginal cfg); [|done].
  destruct (copyOriginal W now p st) as [[[]|e] st2] eqn:Hcopy;
    apply copyOriginal_trace in Hcopy; simpl; by rewrite Hcopy.
Qed.

Lemma forM_processImage_no_encode W cfg now L st :
  (∀ p x, p ∈ L → x ∈ planOf W cfg p →
     skipExisting cfg = true ∧ is_Some (outTree st !! outputOf p x)) →
  encode_calls (trace (forM L (processImage W cfg now) st).2) =
  encode_calls (trace st).
Proof.
  revert st. induction L as [|p L IH]; intros st Hall; [done|].
  rewrite forM_cons.
  pose proof (processImage_no_encode W cfg now p st) as Hp.
  destruct (processImage W cfg now p st) as [[[]|e] st1] eqn:Hrun; simpl in Hp.
  - rewrite IH; [apply Hp; intros x Hx; apply Hall; [by left|done]|].
    intros q x Hq Hx. destruct (Hall q x) as [Hskip Hfile]; [by right|done|].
    split; [done|]. apply processImage_footprint in Hrun as []. auto.
  - simpl. apply Hp. intros x Hx. apply Hall; [by left|done].
Qed.

Lemma settled_preserved W cfg now L p st st' :
  settled W cfg now p st → batch_step now L st st' → p ∉ L →
  settled W cfg now p st'.
Proof.
  intros Hset [] Hp ow oh Hprobe. destruct (Hset ow oh Hprobe) as [Hentry Hfiles].
  split; [by rewrite bs_others0|].
  intros x Hx. destruct (Hfiles x Hx) as (o & Ho & Hnow).
  destruct (bs_mono0 (outputOf p x)) as [o' Ho']; [eauto|].
  exists o'. split; [done|]. intros Hskip.
  destruct (bs_mtime0 _ _ Ho') as [Hsame|]; [|done].
  rewrite Ho in Hsame. injection Hsame as <-. auto.
Qed.

Section FirstRun.

Context (W : World) (cfg : Config).

(** No directory creation, encode or write fails. *)
Hypothesis mkdir_ok : ∀ dir, mkdirOk W dir = true.
Hypothesis encode_ok : ∀ src w h f q, encodeOk W src w h f q = true.
Hypothesis write_ok : ∀ path, writeOk W path = true.

Lemma foldM_processPair_ok now p xs vs st :
  ∃ st',
    foldM (processPair W cfg now p) vs xs st =
      (Ret (vs ++ (variantOf p <$> xs)), st') ∧
    ∀ x, x ∈ xs →
      ∃ o, outTree st' !! outputOf p x = Some o ∧
           (skipExisting cfg = false → o_mtime o = now).
Proof.
  revert vs st. induction xs as [|x xs IH]; intros vs st.
  { exists st. simpl. rewrite app_nil_r. split; [done|]. by intros x Hx%elem_of_nil. }
  simpl. unfold_monad.
  destruct (processPair W cfg now p vs x st) as [r st1] eqn:Hx.
  assert (r = Ret (vs ++ [variantOf p x]) ∧
          ∃ o, outTree st1 !! outputOf p x = Some o ∧
               (skipExisting cfg = false → o_mtime o = now)) as [-> (o & Ho & Hnow)].
  { rewrite processPair_run in Hx.
    destruct (skipExisting cfg) eqn:Hskip; simpl in Hx.
    - destruct (fileExists (outputOf p x) st) eqn:Hex.
      + injection Hx as <- <-. split; [done|].
        apply fileExists_true in Hex as [o Ho]. by exists o.
      + rewrite mkdir_ok in Hx. simpl in Hx. unfold toFile in Hx.
        rewrite encode_ok in Hx. injection Hx as <- <-. split; [done|].
        simpl. rewrite lookup_insert_eq. eauto.
    - rewrite mkdir_ok in Hx. simpl in Hx. unfold toFile in Hx.
      rewrite encode_ok in Hx. injection Hx as <- <-. split; [done|].
      simpl. rewrite lookup_insert_eq. eauto. }
  destruct (IH (vs ++ [variantOf p x]) st1) as (st' & Hrest & Hfiles).
  exists st'. rewrite Hrest, <- app_assoc. split; [done|].
  intros y [->|Hy]%elem_of_cons; [|by apply Hfiles].
  apply foldM_processPair_gen_step in Hrest as [].
  destruct (gs_mono0 (outputOf p x)) as [o' Ho']; [eauto|].
  exists o'. split; [done|]. intros Hskip.
  destruct (gs_mtime0 _ _ Ho') as [Hsame|]; [|done].
  rewrite Ho in Hsame. injection Hsame as <-. auto.
Qed.

Lemma processImage_ok now p st :
  ∃ st', processImage W cfg now p st = (Ret tt, st') ∧ settled W cfg now p st'.
Proof.
  rewrite processImage_run, mkdir_ok. simpl. unfold settled.
  destruct (probe W p) as [| |ow oh] eqn:Hprobe;
    try (eexists; split; [reflexivity|]; intros ???; discriminate).
  destruct (foldM_processPair_ok now p (plan cfg ow oh) [] st)
    as (st1 & -> & Hfiles). simpl.
  destruct (keepOriginal cfg).
  - unfold copyOriginal. unfold_monad. rewrite mkdir_ok, write_ok. simpl.
    eexists. split; [reflexivity|]. intros ow' oh' [= <- <-]. simpl.
    rewrite lookup_insert_eq. split; [done|].
    intros x Hx. destruct (Hfiles x Hx) as (o & Ho & Hnow).
    destruct (decide (p = outputOf p x)) as [Heq|Hne].
    + rewrite <- Heq, lookup_insert_eq. eauto.
    + rewrite lookup_insert_ne by done. eauto.
  - unfold_monad. eexists. split; [reflexivity|].
    intros ow' oh' [= <- <-]. simpl. rewrite lookup_insert_eq. done.
Qed.

Lemma forM_processImage_ok now L st :
  ∃ st',
    forM L (processImage W cfg now) st = (Ret tt, st') ∧
    batch_step now L st st' ∧
    ∀ p, p ∈ L → settled W cfg now p st'.
Proof.
  revert st. induction L as [|p L IH]; intros st.
  { exists st. split; [done|]. split; [apply batch_step_refl|].
    by intros p Hp%elem_of_nil. }
  rewrite forM_cons.
  destruct (processImage_ok now p st) as (st1 & Hrun & Hset). rewrite Hrun.
  destruct (IH st1) as (st' & Hrest & Hstep & Hall).
  exists st'. split; [done|].
  apply processImage_footprint in Hrun. split.
  - apply (batch_step_trans now [p] L _ _ _ Hrun Hstep).
  - intros q [->|Hq]%elem_of_cons; [|by apply Hall].
    destruct (decide (p ∈ L)) as [Hin|Hnin]; [by apply Hall|].
    by eapply settled_preserved.
Qed.

End FirstRun.

(** With [skipExisting] on and [keepOriginal] off no file of the output tree
    is ever overwritten. *)
Lemma processPair_keeps_files W cfg now p vs x st r st' :
  skipExisting cfg = true →
  processPair W cfg now p vs x st = (r, st') → outTree st ⊆ outTree st'.
Proof.
  intros Hskip. rewrite processPair_run, Hskip. simpl.
  destruct (fileExists (outputOf p x) st) eqn:Hex; [by intros [= <- <-]|].
  apply fileExists_false in Hex.
  destruct (mkdirOk W _); simpl; [|by intros [= <- <-]].
  unfold toFile. destruct (encodeOk _ _ _ _ _ _); intros [= <- <-]; simpl; [|done].
  by apply insert_subseteq.
Qed.

Lemma foldM_processPair_keeps_files W cfg now p xs vs st r st' :
  skipExisting cfg = true →
  foldM (processPair W cfg now p) vs xs st = (r, st') → outTree st ⊆ outTree st'.
Proof.
  intros Hskip. revert vs st. induction xs as [|x xs IH]; intros vs st; simpl.
  - by intros [= <- <-].
  - unfold_monad.
    destruct (processPair W cfg now p vs x st) as [[vs1|e] st1] eqn:Hx;
      apply processPair_keeps_files in Hx; try done.
    + intros Hrest. apply IH in Hrest. by etrans.
    + by intros [= <- <-].
Qed.

Lemma processImage_keeps_files W cfg now p st r st' :
  skipExisting cfg = true → keepOriginal cfg = false →
  processImage W cfg now p st = (r, st') → outTree st ⊆ outTree st'.
Proof.
  intros Hskip Hkeep. rewrite processImage_run, Hkeep.
  destruct (mkdirOk W (parentDir p)); simpl; [|by intros [= <- <-]].
  destruct (probe W p) as [| |ow oh]; try by intros [= <- <-].
  destruct (foldM _ _ _ _) as [[vs|e] st1] eqn:Hloop;
    apply foldM_processPair_keeps_files in Hloop; try done;
    unfold_monad; by intros [= <- <-].
Qed.

Lemma forM_processImage_keeps_files W cfg now L st r st' :
  skipExisting cfg = true → keepOriginal cfg = false →
  forM L (processImage W cfg now) st = (r, st') → outTree st ⊆ outTree st'.
Proof.
  intros Hskip Hkeep. revert st. induction L as [|p L IH]; intros st.
  - by intros [= <- <-].
  - rewrite forM_cons.
    destruct (processImage W cfg now p st) as [[[]|e] st1] eqn:Hp;
      apply processImage_keeps_files in Hp; try done.
    + intros Hrest. apply IH in Hrest. by etrans.
    + by intros [= <- <-].
Qed.

(** The staleness of a path only depends on its entry and on the output
    tree. *)
Lemma needsProcessing_ext W p st st' :
  images (manifest st) = images (manifest st') → outTree st = outTree st' →
  needsProcessing W p st = needsProcessing W p st'.
Proof.
  intros Himg Hout. unfold needsProcessing, fileExists. by rewrite Himg, Hout.
Qed.

Lemma all_variants_exist st (vs : list Variant) :
  existsb (λ variant, negb (fileExists (v_path variant) st)) vs = false ↔
  ∀ v, v ∈ vs → is_Some (outTree st !! v_path v).
Proof.
  rewrite <- not_true_iff_false, some_missing_existsb. split.
  - intros Hno v Hv. destruct (outTree st !! v_path v) eqn:Hlook; [done|].
    destruct Hno. eauto.
  - intros Hall (v & Hv & Hnone). destruct (Hall v Hv). congruence.
Qed.

(** A FRESH path stays FRESH when its entry is kept, no output disappears,
    and an output that changed is not older than the source. *)
Lemma needsProcessing_false_preserved W p st st' :
  needsProcessing W p st = false →
  images (manifest st') !! p = images (manifest st) !! p →
  (∀ k, is_Some (outTree st !! k) → is_Some (outTree st' !! k)) →
  (∀ k o o' src,
     outTree st !! k = Some o → outTree st' !! k = Some o' →
     inputTree W !! p = Some src → o' = o ∨ mtimeMs src ≤ o_mtime o') →
  needsProcessing W p st' = false.
Proof.
  unfold needsProcessing. intros Hfresh Hentry Hmono Hmtime. rewrite Hentry.
  destruct (images (manifest st) !! p) as [e|]; [|done].
  destruct (e_variants e) as [|v0 vs] eqn:Hvs; [done|].
  destruct (existsb _ (v0 :: vs)) eqn:Hex in Hfresh; [done|].
  rewrite all_variants_exist in Hex.
  rewrite (proj2 (all_variants_exist st' (v0 :: vs))) by (intros v Hv; auto).
  destruct (inputTree W !! p) as [src|] eqn:Hsrc; [|done].
  destruct (outTree st !! v_path v0) as [o|] eqn:Ho; [|done].
  destruct (Hmono (v_path v0)) as [o' Ho']; [eauto|]. rewrite Ho'.
  destruct (Hmtime _ _ _ _ Ho Ho' eq_refl) as [->|Hle]; [done|].
  rewrite Z.gtb_ltb. apply Z.ltb_ge. done.
Qed.

Lemma needsProcessing_fresh_intro W p st e v0 vs src o :
  images (manifest st) !! p = Some e → e_variants e = v0 :: vs →
  (∀ v, v ∈ v0 :: vs → is_Some (outTree st !! v_path v)) →
  inputTree W !! p = Some src → outTree st !! v_path v0 = Some o →
  mtimeMs src ≤ o_mtime o →
  needsProcessing W p st = false.
Proof.
  intros He Hvs Hall Hsrc Ho Hle. unfold needsProcessing.
  rewrite He, Hvs, (proj2 (all_variants_exist st (v0 :: vs)) Hall), Hsrc, Ho.
  rewrite Z.gtb_ltb. by apply Z.ltb_ge.
Qed.

(** An Original processed without skipping, whose plan is not empty, is
    FRESH afterwards provided its source is not dated after the run. *)
Lemma settled_fresh W cfg now p st ow oh src :
  settled W cfg now p st →
  probe W p = Dimensions ow oh → plan cfg ow oh ≠ [] →
  skipExisting cfg = false →
  inputTree W !! p = Some src → mtimeMs src ≤ now →
  needsProcessing W p st = false.
Proof.
  intros Hset Hprobe Hplan Hskip Hsrc Hle.
  destruct (Hset ow oh Hprobe) as [Hentry Hfiles].
  destruct (plan cfg ow oh) as [|x xs] eqn:Hxs; [done|].
  destruct (Hfiles x) as (o & Ho & Hnow); [by left|].
  eapply (needsProcessing_fresh_intro W p st _ (variantOf p x)
            (variantOf p <$> xs) src o); eauto.
  - intros v Hv. change (v ∈ variantOf p <$> x :: xs) in Hv.
    apply list_elem_of_fmap in Hv as (y & -> & Hy).
    destruct (Hfiles y Hy) as (o' & Ho' & _). simpl. eauto.
  - by rewrite (Hnow Hskip).
Qed.

Lemma writeManifest_effects W now st r st' :
  writeManifest W now st = (r, st') →
  images (manifest st') = images (manifest st) ∧ outTree st' = outTree st ∧
  trace st' = trace st.
Proof.
  unfold writeManifest. unfold_monad. simpl.
  destruct (writeOk W _); by intros [= <- <-].
Qed.

(** The [try] block of an incremental run, when the scan goes through. *)
Lemma processAllImages_body_run W cfg now st :
  inputDirExists W = true → readdirOk W = true → mkdirOk W "" = true →
  processAllImages_body W cfg now false st =
  match filter (λ file, needsProcessing W file st = true) (scanImages W) with
  | [] => (Ret tt, st)
  | stale =>
      (_ ← forM stale (processImage W cfg now);
       if generateManifest cfg then writeManifest W now else mret tt) st
  end.
Proof.
  intros Hin Hread Hmk. unfold processAllImages_body, getImageFiles.
  rewrite Hin, Hread. simpl. unfold_monad.
  destruct (scanImages W) as [|f fs] eqn:Hscan; [done|].
  rewrite Hmk. simpl.
  destruct (filter _ (f :: fs)) as [|p stale] eqn:Hstale; [done|].
  rewrite bool_decide_eq_false_2 by done. done.
Qed.

Lemma probe_Dimensions_source W p ow oh :
  probe W p = Dimensions ow oh → is_Some (inputTree W !! p).
Proof. unfold probe. by destruct (inputTree W !! p). Qed.

Section SecondRun.

Context (W : World) (cfg : Config) (now1 : Z).

Hypothesis mkdir_ok : ∀ dir, mkdirOk W dir = true.
Hypothesis encode_ok : ∀ src w h f q, encodeOk W src w h f q = true.
Hypothesis write_ok : ∀ path, writeOk W path = true.

(** Either nothing is ever overwritten, or no source is dated after the
    first run. *)
Hypothesis regime :
  (skipExisting cfg = true ∧ keepOriginal cfg = false) ∨
  (∀ p src, inputTree W !! p = Some src → mtimeMs src ≤ now1).

Lemma fresh_stays_fresh L p s0 sa r :
  forM L (processImage W cfg now1) s0 = (r, sa) →
  batch_step now1 L s0 sa → p ∉ L →
  needsProcessing W p s0 = false → needsProcessing W p sa = false.
Proof.
  intros Hrun [] Hp Hfresh.
  apply (needsProcessing_false_preserved W p s0 sa); auto.
  intros k o o' src Ho Ho' Hsrc. destruct regime as [[Hskip Hkeep]|Hdate].
  - left. apply (forM_processImage_keeps_files _ _ _ _ _ _ _ Hskip Hkeep) in Hrun.
    apply (lookup_weaken _ _ _ _ Ho) in Hrun. congruence.
  - destruct (bs_mtime0 k o' Ho') as [Hsame|Hnow]; [left; congruence|].
    right. rewrite Hnow. eauto.
Qed.

Lemma settled_then_skipped p sa x :
  settled W cfg now1 p sa → needsProcessing W p sa = true →
  x ∈ planOf W cfg p →
  skipExisting cfg = true ∧ is_Some (outTree sa !! outputOf p x).
Proof.
  unfold planOf. intros Hset Hneeds Hx.
  destruct (probe W p) as [| |ow oh] eqn:Hprobe;
    try by apply elem_of_nil in Hx.
  destruct (Hset ow oh Hprobe) as [_ Hfiles].
  destruct (Hfiles x Hx) as (o & Ho & _). split; [|eauto].
  destruct (skipExisting cfg) eqn:Hskip; [done|].
  destruct regime as [[? _]|Hdate]; [done|].
  destruct (probe_Dimensions_source _ _ _ _ Hprobe) as [src Hsrc].
  assert (needsProcessing W p sa = false) as Hfresh; [|congruence].
  apply (settled_fresh W cfg now1 p sa ow oh src); eauto.
  intros Hnil. rewrite Hnil in Hx. by apply elem_of_nil in Hx.
Qed.

(** After the [try] block of the first run, every scanned Original that is
    (still, or again) STALE has all its planned outputs on disk and will
    have them skipped. *)
Lemma first_body_outcome s0 :
  inputDirExists W = true → readdirOk W = true →
  ∃ s1,
    processAllImages_body W cfg now1 false s0 = (Ret tt, s1) ∧
    ∀ p x, p ∈ scanImages W → needsProcessing W p s1 = true →
           x ∈ planOf W cfg p →
           skipExisting cfg = true ∧ is_Some (outTree s1 !! outputOf p x).
Proof.
  intros Hin Hread. rewrite processAllImages_body_run by auto.
  destruct (filter _ (scanImages W)) as [|q stale] eqn:Hstale.
  { exists s0. split; [done|]. intros p x Hp Hneeds _. exfalso.
    assert (p ∈ filter (λ file, needsProcessing W file s0 = true) (scanImages W))
      as Hmem by (by apply list_elem_of_filter).
    rewrite Hstale in Hmem. by apply elem_of_nil in Hmem. }
  destruct (forM_processImage_ok W cfg mkdir_ok encode_ok write_ok now1
              (q :: stale) s0) as (sa & Hrun & Hstep & Hsettled).
  unfold mbind, M_bind. rewrite Hrun.
  assert (∃ sb, (if generateManifest cfg then writeManifest W now1 else mret tt) sa
                = (Ret tt, sb) ∧
                images (manifest sb) = images (manifest sa) ∧
                outTree sb = outTree sa) as (sb & -> & Himg & Hout).
  { destruct (generateManifest cfg).
    - unfold writeManifest. unfold_monad. rewrite write_ok. simpl.
      eexists. by split.
    - exists sa. by split. }
  exists sb. split; [done|]. intros p x Hp Hneeds Hx.
  rewrite (needsProcessing_ext W p sb sa) in Hneeds by done. rewrite Hout.
  destruct (decide (p ∈ q :: stale)) as [Hmem|Hnot].
  - by apply settled_then_skipped; [apply Hsettled| |].
  - exfalso. rewrite <- Hstale in Hnot.
    assert (needsProcessing W p s0 = false) as Hfresh.
    { destruct (needsProcessing W p s0) eqn:Hn; [|done].
      destruct Hnot. by apply list_elem_of_filter. }
    rewrite Hstale in Hnot.
    rewrite (fresh_stays_fresh _ _ _ _ _ Hrun Hstep Hnot Hfresh) in Hneeds.
    done.
Qed.

End SecondRun.

Lemma processAllImages_unfold W cfg now forceAll st :
  isProcessing st = false →
  ∃ r s,
    processAllImages_body W cfg now forceAll (set_isProcessing true st) = (r, s) ∧
    processAllImages W cfg now forceAll st =
      set_isProcessing false
        (match r with
         | Ret _ => s
         | Throw err => add_event (EvError (LogBatchFailed err)) s
         end) ∧
    encode_calls (trace (processAllImages W cfg now forceAll st)) =
      encode_calls (trace s).
Proof.
  intros Hflag. unfold processAllImages. rewrite Hflag.
  destruct (processAllImages_body _ _ _ _ _) as [r s].
  exists r, s. repeat split. by destruct r.
Qed.

(** An incremental run whose entry check or scan fails calls no encoder. *)
Lemma processAllImages_body_no_scan W cfg now st :
  inputDirExists W = false ∨ readdirOk W = false →
  encode_calls (trace (processAllImages_body W cfg now false st).2) =
  encode_calls (trace st).
Proof.
  unfold processAllImages_body, getImageFiles.
  destruct (inputDirExists W); simpl; [|done].
  intros [|Hread]; [done|]. by rewrite Hread.
Qed.

Lemma diskAfter_apart decode W st : diskAfter None decode W st = W.
Proof. by destruct W. Qed.

(** C2, as the source has it.  Provided the input and the output directory
    are apart, no directory creation, encode or write fails, and either existing outputs are skipped and originals are not
    copied (the default configuration) or no source file is dated after the
    first run, a second incremental run on the disk that the first one left
    calls the encoder not once: every scanned Original is FRESH, or, when it
    is STALE again, all its outputs exist and are skipped. *)
Theorem second_incremental_run_encodes_nothing W cfg now1 now2 st0 place decode :
  place = None →
  (∀ dir, mkdirOk W dir = true) →
  (∀ src w h f q, encodeOk W src w h f q = true) →
  (∀ path, writeOk W path = true) →
  (skipExisting cfg = true ∧ keepOriginal cfg = false) ∨
  (∀ p src, inputTree W !! p = Some src → mtimeMs src ≤ now1) →
  second_run_is_free_on_disk place decode W cfg now1 now2 st0.
Proof.
  intros -> Hmk Henc Hwr Hregime. unfold second_run_is_free_on_disk.
  rewrite diskAfter_apart.
  destruct (isProcessing st0) eqn:Hflag.
  { unfold processAllImages. by rewrite !Hflag. }
  destruct (processAllImages_unfold W cfg now1 false st0 Hflag)
    as (r1 & s1 & Hbody1 & Hst1 & _).
  set (st1 := processAllImages W cfg now1 false st0) in *.
  assert (isProcessing st1 = false) as Hflag1 by (by rewrite Hst1).
  destruct (processAllImages_unfold W cfg now2 false st1 Hflag1)
    as (r2 & s2 & Hbody2 & _ & ->).
  change (encode_calls (trace st1))
    with (encode_calls (trace (set_isProcessing true st1))).
  replace s2 with (processAllImages_body W cfg now2 false
                     (set_isProcessing true st1)).2 by (by rewrite Hbody2).
  clear r2 s2 Hbody2.
  destruct (inputDirExists W) eqn:Hin;
    [|by apply processAllImages_body_no_scan; left].
  destruct (readdirOk W) eqn:Hread;
    [|by apply processAllImages_body_no_scan; right].
  destruct (first_body_outcome W cfg now1 Hmk Henc Hwr Hregime
              (set_isProcessing true st0) Hin Hread) as (s1' & Hbody1' & Hskipped).
  rewrite Hbody1 in Hbody1'. injection Hbody1' as -> <-.
  rewrite processAllImages_body_run by auto.
  destruct (filter _ (scanImages W)) as [|q stale] eqn:Hstale; [done|].
  pose proof (forM_processImage_no_encode W cfg now2 (q :: stale)
                (set_isProcessing true st1)) as Hfree.
  unfold mbind, M_bind.
  destruct (forM (q :: stale) (processImage W cfg now2) (set_isProcessing true st1))
    as [[[]|e] sa] eqn:Hrun; simpl in Hfree.
  - assert (encode_calls (trace sa) =
            encode_calls (trace (set_isProcessing true st1))) as <-.
    { apply Hfree. intros p x Hp Hx. rewrite <- Hstale in Hp.
      apply list_elem_of_filter in Hp as [Hneeds Hscan].
      rewrite Hst1. simpl. apply Hskipped; [done| |done].
      rewrite <- Hneeds. apply needsProcessing_ext; by rewrite Hst1. }
    destruct (generateManifest cfg); [|done].
    destruct (writeManifest W now2 sa) as [r sb] eqn:Hwrite.
    apply writeManifest_effects in Hwrite as (_ & _ & Htrace).
    simpl. by rewrite Htrace.
  - simpl. apply Hfree. intros p x Hp Hx. rewrite <- Hstale in Hp.
    apply list_elem_of_filter in Hp as [Hneeds Hscan].
    rewrite Hst1. simpl. apply Hskipped; [done| |done].
    rewrite <- Hneeds. apply needsProcessing_ext; by rewrite Hst1.
Qed.

Lemma second_incremental_run_encodes_nothing_witness :
  let W := calm_world {[ "a.jpg" := image_file 100 1000 500;
                         "b/c.png" := image_file 200 300 300 ]} in
  second_run_is_free_on_disk None (readBack W) W default_config 1000 2000
    initial_state.
Proof.
  apply (second_incremental_run_encodes_nothing
           (calm_world {[ "a.jpg" := image_file 100 1000 500;
                          "b/c.png" := image_file 200 300 300 ]})
           default_config 1000 2000 initial_state None
           (readBack (calm_world {[ "a.jpg" := image_file 100 1000 500;
                                    "b/c.png" := image_file 200 300 300 ]}))).
  - reflexivity.
  - intros dir. reflexivity.
  - intros src w h f q. reflexivity.
  - intros path. reflexivity.
  - left. split; reflexivity.
Defined.

(** C2 as it is worded fails: with [skipExisting] off and a source dated
    after the first run (its clock reads 1000, the file says 5000), the
    outputs written by the first run are older than the source, the second
    run finds the Original STALE and encodes both variants again. *)
Lemma second_run_encodes_again :
  ¬ second_run_is_free (calm_world {[ "a.jpg" := image_file 5000 1000 500 ]})
      rebuild_config 1000 2000 initial_state.
Proof. vm_compute. discriminate. Qed.

(** An encode that keeps failing is attempted again by every run, also in
    the default configuration: the failure leaves no manifest entry. *)
Lemma failing_encode_is_retried :
  ¬ second_run_is_free no_webp_world default_config 1000 2000 initial_state.
Proof. vm_compute. discriminate. Qed.

(** A manifest written under an older configuration (width 320 only), a
    source dated in the future, and a file of the input tree that carries a
    variant name: copying that original over the first variant of [a.jpg]
    makes [a.jpg] STALE for the second run, which then encodes its 640
    variant.  This is why copies of originals are excluded above when
    sources may be dated after the run. *)
Lemma copied_original_makes_stale :
  ¬ second_run_is_free
      (calm_world {[ "a.jpg" := image_file 5000 1000 500;
                     "a-320w.webp" := image_file 100 400 200 ]})
      copy_config 1000 2000 older_state.
Proof. vm_compute. discriminate. Qed.

(** With the output directory inside the input directory the second run is
    not free, although nothing fails and the configuration is the default
    one: it scans the two variants that the first run wrote, finds them
    without an entry, and encodes variants of them. *)
Lemma nested_output_is_scanned_again :
  let W := calm_world {[ "a.jpg" := image_file 100 1000 500 ]} in
  ¬ second_run_is_free_on_disk (Some "optimized") (readBack W) W default_config
      1000 2000 initial_state.
Proof. vm_compute. discriminate. Qed.


(** * Further properties *)

(** ** Decimal numerals *)

Lemma pretty_N_char_digit x : (x < 10)%N → is_digit (pretty_N_char x) = true.
Proof.
  intros Hx.
  assert (x = 0 ∨ x = 1 ∨ x = 2 ∨ x = 3 ∨ x = 4 ∨ x = 5 ∨ x = 6 ∨ x = 7 ∨
          x = 8 ∨ x = 9)%N as Hcases by lia.
  repeat (destruct Hcases as [->|Hcases]; [done|]). by subst.
Qed.

Lemma pretty_N_char_value x :
  (x < 10)%N → digit_value (pretty_N_char x) = Z.of_N x.
Proof.
  intros Hx.
  assert (x = 0 ∨ x = 1 ∨ x = 2 ∨ x = 3 ∨ x = 4 ∨ x = 5 ∨ x = 6 ∨ x = 7 ∨
          x = 8 ∨ x = 9)%N as Hcases by lia.
  repeat (destruct Hcases as [->|Hcases]; [done|]). by subst.
Qed.

Lemma pretty_N_go_digits x s :
  Forall (λ a, is_digit a = true) (chars s) →
  Forall (λ a, is_digit a = true) (chars (pretty_N_go x s)).
Proof.
  revert s. induction (N.lt_wf_0 x) as [x _ IH]; intros s Hs.
  assert (x = 0 ∨ 0 < x)%N as [->|Hpos] by lia; [by rewrite pretty_N_go_0|].
  rewrite pretty_N_go_step by done. apply IH.
  - by apply N.div_lt.
  - constructor; [|done]. apply pretty_N_char_digit. by apply N.mod_lt.
Qed.

Lemma pretty_N_go_nonempty x s : (0 < x)%N → pretty_N_go x s ≠ "".
Proof.
  revert s. induction (N.lt_wf_0 x) as [x _ IH]; intros s Hpos.
  rewrite pretty_N_go_step by done.
  destruct (N.eq_0_gt_0_cases (x `div` 10)) as [->|Hq].
  - by rewrite pretty_N_go_0.
  - apply IH; [by apply N.div_lt|done].
Qed.

(** Reading back what [pretty_N_go] wrote. *)
Lemma parse_digits_pretty_N_go x s :
  parse_digits (pretty_N_go x s) None =
  parse_digits s (if decide (x = 0)%N then None else Some (Z.of_N x)).
Proof.
  revert s. induction (N.lt_wf_0 x) as [x _ IH]; intros s.
  destruct (decide (x = 0)%N) as [->|Hne]; [by rewrite pretty_N_go_0|].
  rewrite pretty_N_go_step by lia. rewrite IH by (apply N.div_lt; lia).
  simpl. rewrite pretty_N_char_digit by (apply N.mod_lt; lia).
  rewrite pretty_N_char_value by (apply N.mod_lt; lia).
  f_equal. f_equal.
  pose proof (N.div_mod x 10 ltac:(lia)) as Hdm.
  destruct (decide (x `div` 10 = 0)%N) as [Hz|Hnz]; simpl; lia.
Qed.

Lemma pretty_nonneg_digits (w : Z) :
  0 ≤ w →
  pretty w ≠ "" ∧ Forall (λ a, is_digit a = true) (chars (pretty w)).
Proof.
  intros Hw. destruct w as [|p|p]; [| |lia].
  - split; [done|]. by repeat constructor.
  - unfold pretty, pretty_Z, pretty, pretty_positive, pretty, pretty_N.
    destruct (decide (N.pos p = 0)%N); [done|]. split.
    + by apply pretty_N_go_nonempty.
    + by apply pretty_N_go_digits.
Qed.

Lemma skip_spaces_digit a s : is_digit a = true → skip_spaces (String a s) = String a s.
Proof.
  intros Ha. simpl. destruct (is_space a) eqn:Hs; [|done].
  exfalso. revert Ha Hs. unfold is_digit, is_space.
  destruct (nat_of_ascii a) as [|n]; [done|].
  intros Ha Hs. apply andb_true_iff in Ha as [Ha1 Ha2].
  apply Nat.leb_le in Ha1, Ha2.
  apply orb_true_iff in Hs as [Hs|Hs].
  - apply Nat.eqb_eq in Hs. lia.
  - apply andb_true_iff in Hs as [_ Hs]. apply Nat.leb_le in Hs. lia.
Qed.

Lemma parseInt_digits s :
  s ≠ "" → Forall (λ a, is_digit a = true) (chars s) →
  parseInt s = parse_digits s None.
Proof.
  intros Hne Hds. destruct s as [|a s]; [done|].
  apply Forall_cons in Hds as [Ha _].
  unfold parseInt. rewrite skip_spaces_digit by done.
  destruct (Ascii.eqb_spec a "-") as [->|Hm]; [done|].
  destruct (Ascii.eqb_spec a "+") as [->|Hp]; [done|].
  revert Ha Hm Hp. clear.
  destruct a as [[] [] [] [] [] [] [] []]; try done.
Qed.

Lemma parseInt_pretty_nonneg (w : Z) : 0 ≤ w → parseInt (pretty w) = Some w.
Proof.
  intros Hw. destruct (pretty_nonneg_digits w Hw) as [Hne Hds].
  rewrite parseInt_digits by done.
  destruct w as [|p|p]; [done| |lia].
  unfold pretty, pretty_Z, pretty, pretty_positive, pretty, pretty_N.
  destruct (decide (N.pos p = 0)%N); [done|].
  rewrite parse_digits_pretty_N_go. by destruct (decide (N.pos p = 0)%N).
Qed.

(** [parseInt(String(z), 10)] gives [z] back, for every integer. *)
Lemma parseInt_pretty (z : Z) : parseInt (pretty z) = Some z.
Proof.
  destruct (Z.le_gt_cases 0 z) as [Hz|Hz]; [by apply parseInt_pretty_nonneg|].
  destruct z as [|p|p]; [lia|lia|].
  pose proof (parseInt_pretty_nonneg (Z.pos p) ltac:(lia)) as Hp.
  destruct (pretty_nonneg_digits (Z.pos p) ltac:(lia)) as [Hne Hds].
  rewrite parseInt_digits in Hp by done.
  change (pretty (Z.neg p)) with ("-" +:+ pretty (Z.pos p)).
  unfold parseInt. change ("-" +:+ pretty (Z.pos p)) with (String "-" (pretty (Z.pos p))).
  simpl skip_spaces. cbv iota. by rewrite Hp.
Qed.

(** ** Image names *)

Lemma toLowerCase_app s1 s2 :
  toLowerCase (s1 +:+ s2) = toLowerCase s1 +:+ toLowerCase s2.
Proof.
  induction s1 as [|a s1 IH]; [done|].
  change (String (lower_ascii a) (toLowerCase (s1 +:+ s2)) =
          String (lower_ascii a) (toLowerCase s1 +:+ toLowerCase s2)).
  by rewrite IH.
Qed.

Lemma toLowerCase_len s : len (toLowerCase s) = len s.
Proof.
  unfold len. f_equal. induction s as [|a s IH]; simpl; [done | by rewrite IH].
Qed.

Lemma lower_ascii_dot a : lower_ascii a = "."%char → a = "."%char.
Proof. destruct a as [[] [] [] [] [] [] [] []]; vm_compute; congruence. Qed.

Lemma substring_length_le n m s : (String.length (String.substring n m s) ≤ m)%nat.
Proof.
  revert n m. induction s as [|a s IH]; intros n m.
  - destruct n, m; simpl; lia.
  - destruct n as [|n]; destruct m as [|m]; simpl; try lia.
    + specialize (IH 0%nat m). lia.
    + apply IH.
    + apply IH.
Qed.

Lemma slice_last_char_length s : (String.length (slice_from s (-1)) ≤ 1)%nat.
Proof.
  unfold slice_from, slice, clamp_index.
  etrans; [apply substring_length_le|].
  pose proof (len_nonneg s).
  destruct (len s <? 0) eqn:Hneg; [apply Z.ltb_lt in Hneg; lia|].
  change (-1 <? 0) with true. cbv iota. lia.
Qed.

Lemma supported_extension_shape ext :
  toLowerCase ext ∈ SUPPORTED_EXTENSIONS →
  ∃ post, ext = String "." post ∧ lastIndexOf post "." = -1 ∧
          (4 ≤ String.length ext)%nat.
Proof.
  intros Hin. destruct ext as [|a post].
  { exfalso. unfold SUPPORTED_EXTENSIONS in Hin.
    repeat (apply elem_of_cons in Hin as [Hin|Hin]; [discriminate|]).
    by apply elem_of_nil in Hin. }
  assert (lower_ascii a = "."%char ∧
          toLowerCase post ∈ ["jpg"; "jpeg"; "png"; "gif"; "webp"; "avif"; "tiff"; "svg"])
    as [Ha Hpost].
  { unfold SUPPORTED_EXTENSIONS in Hin. simpl in Hin.
    repeat (apply elem_of_cons in Hin as [Hin|Hin];
            [injection Hin as -> ->; split; [done|set_solver]|]).
    by apply elem_of_nil in Hin. }
  apply lower_ascii_dot in Ha as ->. exists post. split; [done|]. split.
  - apply lastIndexOf_absent. intros Hdot%toLowerCase_keeps_dot.
    repeat (apply elem_of_cons in Hpost as [Heq|Hpost];
            [rewrite Heq in Hdot; vm_compute in Hdot;
             repeat (apply elem_of_cons in Hdot as [Hdot|Hdot]; [discriminate|]);
             by apply elem_of_nil in Hdot|]).
    by apply elem_of_nil in Hpost.
  - assert (3 ≤ String.length (toLowerCase post))%nat as Hlen.
    { repeat (apply elem_of_cons in Hpost as [->|Hpost]; [simpl; lia|]).
      by apply elem_of_nil in Hpost. }
    pose proof (toLowerCase_len post) as Hl. unfold len in Hl. simpl. lia.
Qed.

Lemma isImageFile_at_last_dot pre post :
  lastIndexOf post "." = -1 →
  isImageFile (pre +:+ String "." post) =
  bool_decide (toLowerCase (String "." post) ∈ SUPPORTED_EXTENSIONS).
Proof.
  intros Hpost. unfold isImageFile.
  rewrite (lastIndexOf_app_sep _ _ _ Hpost), toLowerCase_app.
  by rewrite <- (toLowerCase_len pre), slice_from_suffix.
Qed.

Lemma isImageFile_inv filename :
  isImageFile filename = true →
  ∃ pre post, filename = pre +:+ String "." post ∧ lastIndexOf post "." = -1 ∧
              toLowerCase (String "." post) ∈ SUPPORTED_EXTENSIONS.
Proof.
  intros Himg.
  destruct (lastIndexOf_split filename ".") as [Hno | (pre & post & -> & Hpost)].
  - exfalso. unfold isImageFile in Himg. rewrite Hno in Himg.
    apply bool_decide_eq_true in Himg.
    pose proof (slice_last_char_length (toLowerCase filename)) as Hlen.
    unfold SUPPORTED_EXTENSIONS in Himg.
    repeat (apply elem_of_cons in Himg as [Heq|Himg];
            [rewrite Heq in Hlen; simpl in Hlen; lia|]).
    by apply elem_of_nil in Himg.
  - rewrite (isImageFile_at_last_dot _ _ Hpost) in Himg.
    apply bool_decide_eq_true in Himg. by exists pre, post.
Qed.

(** X1.  On names whose characters are all below 256 (Latin-1, where
    [toLowerCase] keeps the length of a string), [isImageFile] accepts
    exactly the names that end in one of the eight supported extensions, in
    any letter case. *)
Theorem isImageFile_iff_supported_extension filename :
  isImageFile filename = true ↔
  ∃ stem ext, filename = stem +:+ ext ∧ toLowerCase ext ∈ SUPPORTED_EXTENSIONS.
Proof.
  split.
  - intros (pre & post & -> & _ & Hext)%isImageFile_inv.
    by exists pre, (String "." post).
  - intros (stem & ext & -> & Hext).
    destruct (supported_extension_shape ext Hext) as (post & -> & Hpost & _).
    rewrite (isImageFile_at_last_dot _ _ Hpost). by apply bool_decide_eq_true.
Qed.

(** X2.  On a name [isImageFile] accepts, [getOutputFilename] removes exactly the
    extension the name was accepted for. *)
Theorem getOutputFilename_of_image_name name :
  isImageFile name = true →
  ∃ stem ext,
    name = stem +:+ ext ∧ toLowerCase ext ∈ SUPPORTED_EXTENSIONS ∧
    ∀ width format,
      getOutputFilename name width format =
      stem +:+ "-" +:+ pretty width +:+ "w." +:+ format.
Proof.
  intros (stem & post & -> & Hpost & Hext)%isImageFile_inv.
  exists stem, (String "." post). repeat split; [done|].
  intros width format. by apply getOutputFilename_strips_extension.
Qed.

Lemma getOutputFilename_of_image_name_witness :
  ∃ stem ext,
    "photos/hero.JPG" = stem +:+ ext ∧ toLowerCase ext ∈ SUPPORTED_EXTENSIONS ∧
    ∀ width format,
      getOutputFilename "photos/hero.JPG" width format =
      stem +:+ "-" +:+ pretty width +:+ "w." +:+ format.
Proof. apply (getOutputFilename_of_image_name "photos/hero.JPG"). reflexivity. Defined.

(** ** From the generator to the route *)

Lemma format_name_variant (f : Format) : toLowerCase (format_name f) ∈ VARIANT_FORMATS.
Proof. destruct f; vm_compute; set_solver. Qed.

(** The name the generator gives a variant is one the route recognises, and
    the route reads back the stem, the width and the format it was built
    from. *)
Lemma variantMatch_of_output_name stem ext (width : Z) (f : Format) :
  lastIndexOf ext "." = -1 →
  stem ≠ "" → Forall (λ a, is_line_terminator a = false) (chars stem) →
  0 ≤ width →
  variantMatch (getOutputFilename (stem +:+ "." +:+ ext) width (format_name f)) =
    Some (stem, pretty width, format_name f).
Proof.
  intros Hext Hstem Hlt Hw.
  rewrite (getOutputFilename_strips_extension _ _ _ _ Hext).
  apply variantMatch_spec. exists "w"%char.
  destruct (pretty_nonneg_digits width Hw) as [Hne Hds].
  repeat split; try done. apply format_name_variant.
Qed.

Lemma encoderOf_format_name (f : Format) : encoderOf (format_name f) = Some f.
Proof. by destruct f. Qed.


(** ** Variant generator: existing outputs *)

(** X3.  With [skipExisting] on and every planned output on disk, [processImage]
    rewrites the entry and does nothing else: no encoder call, no file
    touched, whatever the modification times are. *)
Theorem processImage_skips_existing_outputs W cfg now p st ow oh :
  skipExisting cfg = true → keepOriginal cfg = false →
  mkdirOk W (parentDir p) = true →
  probe W p = Dimensions ow oh →
  (∀ x, x ∈ plan cfg ow oh → is_Some (outTree st !! outputOf p x)) →
  processImage W cfg now p st =
  (Ret tt, set_entry p (mkEntry p ow oh (variantOf p <$> plan cfg ow oh)) st).
Proof.
  intros Hskip Hkeep Hdir Hprobe Hall.
  rewrite processImage_run, Hdir, Hprobe, Hkeep. simpl.
  by rewrite (foldM_processPair_all_skipped _ _ _ _ _ [] st Hskip Hall).
Qed.

Lemma processImage_skips_existing_outputs_witness :
  let st := set_outTree {[ "a-320w.webp" := mkOut 5 (CopyOf "elsewhere") ]} initial_state in
  processImage (calm_world {[ "a.jpg" := image_file 100 500 300 ]})
    (config_with [webp] [320; 640]) 1000 "a.jpg" st =
  (Ret tt,
   set_entry "a.jpg"
     (mkEntry "a.jpg" 500 300
        (variantOf "a.jpg" <$> plan (config_with [webp] [320; 640]) 500 300)) st).
Proof.
  apply (processImage_skips_existing_outputs
           (calm_world {[ "a.jpg" := image_file 100 500 300 ]})
           (config_with [webp] [320; 640]) 1000 "a.jpg"
           (set_outTree {[ "a-320w.webp" := mkOut 5 (CopyOf "elsewhere") ]} initial_state)
           500 300); try reflexivity.
  intros x Hx. vm_compute in Hx.
  apply elem_of_cons in Hx as [->|Hx]; [vm_compute; eauto|].
  by apply elem_of_nil in Hx.
Defined.

(** X4.  With [skipExisting] on, an Original whose outputs are all on disk is as
    STALE after [processImage] as before: when its source is newer than the
    first output, processing it does not refresh that output, and the next
    incremental run selects it again. *)
Theorem skipped_original_stays_stale W cfg now p st ow oh x xs src o :
  skipExisting cfg = true → keepOriginal cfg = false →
  mkdirOk W (parentDir p) = true →
  probe W p = Dimensions ow oh →
  (∀ y, y ∈ plan cfg ow oh → is_Some (outTree st !! outputOf p y)) →
  plan cfg ow oh = x :: xs →
  inputTree W !! p = Some src → outTree st !! outputOf p x = Some o →
  o_mtime o < mtimeMs src →
  needsProcessing W p (processImage W cfg now p st).2 = true.
Proof.
  intros Hskip Hkeep Hdir Hprobe Hall Hplan Hsrc Ho Hlt.
  rewrite processImage_run, Hdir, Hprobe, Hkeep. simpl.
  rewrite (foldM_processPair_all_skipped _ _ _ _ _ [] st Hskip Hall). simpl.
  apply needsProcessing_STALE; [eauto|]. right; right.
  exists (mkEntry p ow oh (variantOf p <$> plan cfg ow oh)), (variantOf p x), src, o.
  simpl. rewrite lookup_insert_eq, Hplan. done.
Qed.

Lemma skipped_original_stays_stale_witness :
  let st := set_outTree {[ "a-320w.webp" := mkOut 5 (CopyOf "elsewhere") ]} initial_state in
  needsProcessing (calm_world {[ "a.jpg" := image_file 100 500 300 ]}) "a.jpg"
    (processImage (calm_world {[ "a.jpg" := image_file 100 500 300 ]})
       (config_with [webp] [320; 640]) 1000 "a.jpg" st).2 = true.
Proof.
  apply (skipped_original_stays_stale
           (calm_world {[ "a.jpg" := image_file 100 500 300 ]})
           (config_with [webp] [320; 640]) 1000 "a.jpg"
           (set_outTree {[ "a-320w.webp" := mkOut 5 (CopyOf "elsewhere") ]} initial_state)
           500 300 (320, 192, webp) [] (image_file 100 500 300)
           (mkOut 5 (CopyOf "elsewhere"))); try reflexivity.
  intros x Hx. vm_compute in Hx.
  apply elem_of_cons in Hx as [->|Hx]; [vm_compute; eauto|].
  by apply elem_of_nil in Hx.
Defined.

(** ** Variant generator: the files it writes *)

Lemma foldM_processPair_creates_only_planned W cfg now p xs vs st r st' k :
  foldM (processPair W cfg now p) vs xs st = (r, st') →
  is_Some (outTree st' !! k) →
  is_Some (outTree st !! k) ∨ k ∈ outputOf p <$> xs.
Proof.
  revert vs st. induction xs as [|x xs IH]; intros vs st; simpl.
  - intros [= <- <-]. by left.
  - unfold_monad. rewrite processPair_run.
    assert (∀ vs1 s1, (∀ j, is_Some (outTree s1 !! j) →
                           is_Some (outTree st !! j) ∨ j = outputOf p x) →
              foldM (processPair W cfg now p) vs1 xs s1 = (r, st') →
              is_Some (outTree st' !! k) →
              is_Some (outTree st !! k) ∨ k ∈ outputOf p x :: (outputOf p <$> xs))
      as Hrest.
    { intros vs1 s1 Hs1 Hfold Hk. destruct (IH _ _ Hfold Hk) as [Hin|Hin].
      - destruct (Hs1 k Hin) as [? | ->]; [by left|right; by left].
      - right. by right. }
    destruct (skipExisting cfg && fileExists _ st).
    { apply Hrest. intros j Hj. by left. }
    destruct (mkdirOk W _); simpl; [|intros [= <- <-] Hk; by left].
    unfold toFile. destruct (encodeOk _ _ _ _ _ _).
    + apply Hrest. intros j. simpl.
      destruct (decide (outputOf p x = j)) as [<-|Hne]; [by right|].
      rewrite lookup_insert_ne by done. by left.
    + intros [= <- <-] Hk. by left.
Qed.

(** The only files [processImage] can add to the output tree are the planned
    outputs of the Original and, when originals are kept, its copy. *)
Lemma processImage_new_files W cfg now p st k :
  is_Some (outTree (processImage W cfg now p st).2 !! k) →
  is_Some (outTree st !! k) ∨ k ∈ outputOf p <$> planOf W cfg p ∨
  (keepOriginal cfg = true ∧ k = p).
Proof.
  unfold planOf. rewrite processImage_run.
  destruct (mkdirOk W (parentDir p)); simpl; [|by left].
  destruct (probe W p) as [| |ow oh]; try by left.
  destruct (foldM _ _ _ _) as [[vs|e] st1] eqn:Hloop.
  2:{ simpl. intros Hk.
      destruct (foldM_processPair_creates_only_planned _ _ _ _ _ _ _ _ _ k Hloop Hk);
        auto. }
  assert (∀ m : gmap string OutFile,
            (∀ j, is_Some (m !! j) → is_Some (outTree st1 !! j) ∨
                  (keepOriginal cfg = true ∧ j = p)) →
            is_Some (m !! k) →
            is_Some (outTree st !! k) ∨ k ∈ outputOf p <$> plan cfg ow oh ∨
            keepOriginal cfg = true ∧ k = p) as Hend.
  { intros m Hm Hk. destruct (Hm k Hk) as [Hk1|?]; [|auto].
    destruct (foldM_processPair_creates_only_planned _ _ _ _ _ _ _ _ _ k Hloop Hk1);
      auto. }
  destruct (keepOriginal cfg) eqn:Hkeep.
  - unfold copyOriginal. unfold_monad.
    destruct (mkdirOk W _); simpl; [|apply Hend; by left].
    destruct (writeOk W p); simpl; [|apply Hend; by left].
    apply Hend. intros j. destruct (decide (p = j)) as [<-|Hne]; [by right|].
    rewrite lookup_insert_ne by done. by left.
  - unfold_monad. simpl. apply Hend. by left.
Qed.

Lemma planFor_length fmts ow oh widths :
  length (planFor fmts ow oh widths) =
  (length (filter (λ w, (w ≤ ow)%Z) widths) * length fmts)%nat.
Proof.
  induction widths as [|w widths IH]; [done|].
  simpl. rewrite length_app, IH, filter_cons.
  destruct (w >? ow) eqn:Hgt.
  - rewrite Z.gtb_ltb in Hgt. apply Z.ltb_lt in Hgt.
    destruct (decide (w ≤ ow)); [lia|done].
  - rewrite Z.gtb_ltb in Hgt. apply Z.ltb_ge in Hgt.
    destruct (decide (w ≤ ow)); [|lia]. rewrite length_fmap. simpl. lia.
Qed.

(** X5.  When nothing fails, [processImage] replaces the entry of a measurable
    Original by one that records the intrinsic size and one variant for every
    configured width not above the intrinsic width and every configured
    format, in configuration order; each recorded path is on disk. *)
Theorem processImage_writes_the_whole_plan W cfg now p st ow oh :
  (∀ dir, mkdirOk W dir = true) →
  (∀ src w h f q, encodeOk W src w h f q = true) →
  (∀ path, writeOk W path = true) →
  probe W p = Dimensions ow oh →
  ∃ st' e,
    processImage W cfg now p st = (Ret tt, st') ∧
    images (manifest st') !! p = Some e ∧
    e_width e = ow ∧ e_height e = oh ∧
    e_variants e = variantOf p <$> plan cfg ow oh ∧
    length (e_variants e) =
      (length (filter (λ w, (w ≤ ow)%Z) (sizes cfg)) * length (formats cfg))%nat ∧
    ∀ v, v ∈ e_variants e → is_Some (outTree st' !! v_path v).
Proof.
  intros Hmk Henc Hwr Hprobe.
  destruct (processImage_ok W cfg Hmk Henc Hwr now p st) as (st' & Hrun & Hset).
  destruct (Hset ow oh Hprobe) as [Hentry Hfiles].
  exists st', (mkEntry p ow oh (variantOf p <$> plan cfg ow oh)).
  repeat split; try done.
  - simpl. rewrite length_fmap. apply planFor_length.
  - simpl. intros v (x & -> & Hx)%list_elem_of_fmap.
    destruct (Hfiles x Hx) as (o & Ho & _). simpl. eauto.
Qed.

Lemma processImage_writes_the_whole_plan_witness :
  ∃ st' e,
    processImage (calm_world {[ "a/b.jpg" := image_file 100 1000 750 ]})
      (config_with [webp] [320; 640]) 1000 "a/b.jpg" initial_state = (Ret tt, st') ∧
    images (manifest st') !! "a/b.jpg" = Some e ∧
    e_width e = 1000 ∧ e_height e = 750 ∧
    e_variants e = variantOf "a/b.jpg" <$> plan (config_with [webp] [320; 640]) 1000 750 ∧
    length (e_variants e) =
      Nat.mul (length (filter (λ w, w ≤ 1000) (sizes (config_with [webp] [320; 640]))))
        (length (formats (config_with [webp] [320; 640]))) ∧
    ∀ v, v ∈ e_variants e → is_Some (outTree st' !! v_path v).
Proof.
  apply (processImage_writes_the_whole_plan
           (calm_world {[ "a/b.jpg" := image_file 100 1000 750 ]})
           (config_with [webp] [320; 640]) 1000 "a/b.jpg" initial_state 1000 750);
    try (intros; reflexivity).
Defined.

(** ** Staleness round trip *)

(** X6.  Removing the file of one recorded variant makes the Original STALE;
    processing it again (nothing failing, existing outputs skipped, originals
    not copied) restores the same set of files, leaves every other file as it
    was, and writes the same entry. *)
Theorem removed_variant_is_regenerated W cfg now now' p st ow oh x :
  (∀ dir, mkdirOk W dir = true) →
  (∀ src w h f q, encodeOk W src w h f q = true) →
  (∀ path, writeOk W path = true) →
  skipExisting cfg = true → keepOriginal cfg = false →
  probe W p = Dimensions ow oh →
  settled W cfg now p st →
  x ∈ plan cfg ow oh →
  let st0 := remove_output (outputOf p x) st in
  needsProcessing W p st0 = true ∧
  ∃ st',
    processImage W cfg now' p st0 = (Ret tt, st') ∧
    dom (outTree st') = dom (outTree st) ∧
    (∀ k, k ≠ outputOf p x → outTree st' !! k = outTree st !! k) ∧
    images (manifest st') !! p = images (manifest st) !! p.
Proof.
  intros Hmk Henc Hwr Hskip Hkeep Hprobe Hset Hx st0.
  destruct (Hset ow oh Hprobe) as [Hentry Hfiles]. split.
  - apply needsProcessing_STALE; [by eapply probe_Dimensions_source|].
    right; left. exists (mkEntry p ow oh (variantOf p <$> plan cfg ow oh)), (variantOf p x).
    repeat split; [done|by apply list_elem_of_fmap_2|].
    simpl. apply lookup_delete_eq.
  - destruct (processImage_ok W cfg Hmk Henc Hwr now' p st0) as (st' & Hrun & Hset').
    destruct (Hset' ow oh Hprobe) as [Hentry' Hfiles'].
    exists st'. split; [done|].
    pose proof (processImage_keeps_files _ _ _ _ _ _ _ Hskip Hkeep Hrun) as Hsub.
    assert (∀ k, k ≠ outputOf p x → outTree st' !! k = outTree st !! k) as Hothers.
    { intros k Hk. destruct (outTree st !! k) as [o|] eqn:Hold.
      - eapply lookup_weaken; [|exact Hsub]. simpl. by rewrite lookup_delete_ne.
      - destruct (outTree st' !! k) as [o'|] eqn:Hnew; [|done]. exfalso.
        pose proof (processImage_new_files W cfg now' p st0 k) as Hplanned.
        rewrite Hrun in Hplanned. simpl in Hplanned.
        destruct Hplanned as [[o Ho]|[Hin|[Hk' _]]]; [eauto| | |congruence].
        + rewrite lookup_delete_ne in Ho by done. congruence.
        + unfold planOf in Hin. rewrite Hprobe in Hin.
          apply list_elem_of_fmap in Hin as (y & -> & Hy).
          destruct (Hfiles y Hy) as (o & Ho & _). congruence. }
    split; [|split; [done|by rewrite Hentry, Hentry']].
    apply set_eq. intros k. rewrite !elem_of_dom.
    destruct (decide (k = outputOf p x)) as [->|Hne]; [|by rewrite Hothers].
    destruct (Hfiles x Hx) as (o & Ho & _). destruct (Hfiles' x Hx) as (o' & Ho' & _).
    rewrite Ho, Ho'. done.
Qed.

Lemma removed_variant_is_regenerated_witness :
  let W := calm_world {[ "a.jpg" := image_file 100 500 300 ]} in
  let cfg := config_with [webp] [320; 640] in
  let st := (processImage W cfg 1000 "a.jpg" initial_state).2 in
  let st0 := remove_output (outputOf "a.jpg" (320, 192, webp)) st in
  needsProcessing W "a.jpg" st0 = true ∧
  ∃ st',
    processImage W cfg 2000 "a.jpg" st0 = (Ret tt, st') ∧
    dom (outTree st') = dom (outTree st) ∧
    (∀ k, k ≠ outputOf "a.jpg" (320, 192, webp) →
          outTree st' !! k = outTree st !! k) ∧
    images (manifest st') !! "a.jpg" = images (manifest st) !! "a.jpg".
Proof.
  apply (removed_variant_is_regenerated
           (calm_world {[ "a.jpg" := image_file 100 500 300 ]})
           (config_with [webp] [320; 640]) 1000 2000 "a.jpg"
           (processImage (calm_world {[ "a.jpg" := image_file 100 500 300 ]})
              (config_with [webp] [320; 640]) 1000 "a.jpg" initial_state).2
           500 300 (320, 192, webp)); try reflexivity.
  - intros ow oh Hprobe. vm_compute in Hprobe. injection Hprobe as <- <-.
    split; [vm_compute; reflexivity|].
    intros x Hx. vm_compute in Hx.
    apply elem_of_cons in Hx as [->|Hx]; [|by apply elem_of_nil in Hx].
    eexists. split; [vm_compute; reflexivity|]. intros Hskip. discriminate Hskip.
  - vm_compute. by left.
Defined.

(** ** Batch orchestrator: what a run may change *)

Lemma batch_step_weaken now L L' st st' :
  (∀ q, q ∈ L → q ∈ L') → batch_step now L st st' → batch_step now L' st st'.
Proof. intros Hsub []. split; auto. Qed.

Lemma forM_processImage_footprint W cfg now L st r st' :
  forM L (processImage W cfg now) st = (r, st') → batch_step now L st st'.
Proof.
  revert st. induction L as [|p L IH]; intros st.
  - intros [= <- <-]. apply batch_step_refl.
  - rewrite forM_cons.
    destruct (processImage W cfg now p st) as [[[]|e] st1] eqn:Hp;
      apply processImage_footprint in Hp.
    + intros Hrest. apply IH in Hrest.
      apply (batch_step_trans now [p] L _ _ _ Hp Hrest).
    + intros [= <- <-]. revert Hp. apply batch_step_weaken.
      intros q Hq. apply elem_of_cons. left.
      apply elem_of_cons in Hq as [Hq|Hq]; [done|by apply elem_of_nil in Hq].
Qed.

(** Both kinds of run, when the scan goes through. *)
Lemma processAllImages_body_cases W cfg now forceAll st :
  inputDirExists W = true → readdirOk W = true → mkdirOk W "" = true →
  processAllImages_body W cfg now forceAll st =
  match (if forceAll then scanImages W
         else filter (λ file, needsProcessing W file st = true) (scanImages W)) with
  | [] => (Ret tt, st)
  | todo =>
      (_ ← forM todo (processImage W cfg now);
       if generateManifest cfg then writeManifest W now else mret tt) st
  end.
Proof.
  intros Hin Hread Hmk. destruct forceAll; [|by apply processAllImages_body_run].
  unfold processAllImages_body, getImageFiles.
  rewrite Hin, Hread. simpl. unfold_monad.
  destruct (scanImages W) as [|f fs] eqn:Hscan; [done|]. by rewrite Hmk.
Qed.

Lemma processAllImages_body_footprint W cfg now forceAll st r st' :
  processAllImages_body W cfg now forceAll st = (r, st') →
  ∃ sm, batch_step now (scanImages W) st sm ∧
        images (manifest st') = images (manifest sm) ∧
        outTree st' = outTree sm ∧ isProcessing st' = isProcessing sm.
Proof.
  unfold processAllImages_body, getImageFiles.
  destruct (inputDirExists W); simpl.
  2:{ intros [= <- <-]. exists st. split; [apply batch_step_refl|done]. }
  destruct (readdirOk W); unfold_monad.
  2:{ intros [= <- <-]. exists st. split; [apply batch_step_refl|done]. }
  destruct (scanImages W) as [|f fs] eqn:Hscan.
  { intros [= <- <-]. exists st. split; [apply batch_step_refl|done]. }
  destruct (mkdirOk W ""); simpl.
  2:{ intros [= <- <-]. exists st. split; [apply batch_step_refl|done]. }
  set (todo := if forceAll then f :: fs
               else filter (λ file, needsProcessing W file st = true) (f :: fs)).
  assert (∀ q, q ∈ todo → q ∈ f :: fs) as Hsub.
  { subst todo. destruct forceAll; [done|].
    intros q Hq. by apply list_elem_of_filter in Hq as [_ ?]. }
  destruct (negb forceAll && bool_decide (todo = [])).
  { intros [= <- <-]. exists st. split; [apply batch_step_refl|done]. }
  destruct (forM todo (processImage W cfg now) st) as [[[]|e] sa] eqn:Hrun;
    apply forM_processImage_footprint in Hrun;
    apply (batch_step_weaken _ _ _ _ _ Hsub) in Hrun.
  2:{ intros [= <- <-]. by exists sa. }
  destruct (generateManifest cfg).
  - intros Hw. exists sa. split; [done|].
    unfold writeManifest in Hw. unfold_monad. simpl in Hw.
    destruct (writeOk W _); by injection Hw as <- <-.
  - intros [= <- <-]. by exists sa.
Qed.

(** X7.  A run, incremental or forced, never removes a file from the output tree
    and never touches the entry of a path that the scan does not return:
    entries and outputs of sources that are gone stay for good. *)
Theorem processAllImages_never_prunes W cfg now forceAll st :
  let st' := processAllImages W cfg now forceAll st in
  (∀ q, q ∉ scanImages W →
        images (manifest st') !! q = images (manifest st) !! q) ∧
  (∀ k, is_Some (outTree st !! k) → is_Some (outTree st' !! k)) ∧
  (∀ k o, outTree st' !! k = Some o → outTree st !! k = Some o ∨ o_mtime o = now).
Proof.
  simpl. unfold processAllImages. destruct (isProcessing st).
  { repeat split; auto. }
  destruct (processAllImages_body _ _ _ _ _) as [r s] eqn:Hbody.
  apply processAllImages_body_footprint in Hbody as (sm & [] & Himg & Hout & _).
  assert (images (manifest (set_isProcessing false
            (match r with Ret _ => s | Throw err => add_event (EvError (LogBatchFailed err)) s end)))
          = images (manifest sm)) as -> by (by destruct r).
  assert (outTree (set_isProcessing false
            (match r with Ret _ => s | Throw err => add_event (EvError (LogBatchFailed err)) s end))
          = outTree sm) as -> by (by destruct r).
  repeat split; auto.
Qed.

(** X8.  An incremental run that finds every scanned Original FRESH returns the
    state it was given: no entry, no file, not even the time stamp of the
    manifest or [manifest.json] changes. *)
Theorem up_to_date_run_changes_nothing W cfg now st :
  isProcessing st = false →
  inputDirExists W = true → readdirOk W = true → mkdirOk W "" = true →
  (∀ f, f ∈ scanImages W → needsProcessing W f st = false) →
  processAllImages W cfg now false st = st.
Proof.
  intros Hflag Hin Hread Hmk Hfresh. unfold processAllImages. rewrite Hflag.
  rewrite processAllImages_body_run by done.
  destruct (filter _ (scanImages W)) as [|p stale] eqn:Hstale.
  - destruct st. simpl in Hflag. by subst.
  - exfalso.
    assert (p ∈ filter (λ file, needsProcessing W file (set_isProcessing true st) = true)
                  (scanImages W)) as Hp by (rewrite Hstale; by left).
    apply list_elem_of_filter in Hp as [Hneeds Hscan].
    rewrite (needsProcessing_ext W p _ st) in Hneeds by done.
    rewrite (Hfresh p Hscan) in Hneeds. done.
Qed.

Lemma up_to_date_run_changes_nothing_witness :
  let W := calm_world {[ "a.jpg" := image_file 100 500 300 ]} in
  let st := processAllImages W default_config 1000 false initial_state in
  needsProcessing W "a.jpg" st = false ∧
  processAllImages W default_config 2000 false st = st.
Proof.
  split; [vm_compute; reflexivity|].
  apply (up_to_date_run_changes_nothing
           (calm_world {[ "a.jpg" := image_file 100 500 300 ]}) default_config 2000
           (processAllImages (calm_world {[ "a.jpg" := image_file 100 500 300 ]})
              default_config 1000 false initial_state)); try reflexivity.
  intros f Hf. vm_compute in Hf.
  apply elem_of_cons in Hf as [->|Hf]; [vm_compute; reflexivity|].
  by apply elem_of_nil in Hf.
Defined.

(** ** Batch orchestrator: what a run achieves *)

Lemma settled_ext W cfg now p st st' :
  images (manifest st') = images (manifest st) → outTree st' = outTree st →
  settled W cfg now p st → settled W cfg now p st'.
Proof. unfold settled. intros -> ->. done. Qed.

Lemma elem_of_todoOf W forceAll st p :
  p ∈ todoOf W forceAll st ↔
  p ∈ scanImages W ∧ (forceAll = true ∨ needsProcessing W p st = true).
Proof.
  unfold todoOf. destruct forceAll.
  - split; [intros ?; split; auto|by intros [? _]].
  - rewrite list_elem_of_filter. split.
    + intros [? ?]. split; auto.
    + intros [? [?|?]]; [done|by split].
Qed.

Lemma todoOf_ext W forceAll st st' :
  images (manifest st) = images (manifest st') → outTree st = outTree st' →
  todoOf W forceAll st = todoOf W forceAll st'.
Proof.
  intros Himg Hout. unfold todoOf. destruct forceAll; [done|].
  induction (scanImages W) as [|p L IH]; [done|].
  rewrite !filter_cons, IH.
  by rewrite (needsProcessing_ext W p st st').
Qed.

(** The closed form of a run in which nothing fails. *)
Lemma processAllImages_run_ok W cfg now forceAll st :
  (∀ dir, mkdirOk W dir = true) →
  (∀ src w h f q, encodeOk W src w h f q = true) →
  (∀ path, writeOk W path = true) →
  isProcessing st = false → inputDirExists W = true → readdirOk W = true →
  (todoOf W forceAll st = [] ∧ processAllImages W cfg now forceAll st = st) ∨
  ∃ sa,
    forM (todoOf W forceAll st) (processImage W cfg now) (set_isProcessing true st)
      = (Ret tt, sa) ∧
    (∀ p, p ∈ todoOf W forceAll st → settled W cfg now p sa) ∧
    processAllImages W cfg now forceAll st =
      set_isProcessing false
        (if generateManifest cfg
         then let m := {| generatedAt := now; images := images (manifest sa) |} in
              set_manifestJson (Some m) (set_manifest m sa)
         else sa).
Proof.
  intros Hmk Henc Hwr Hflag Hin Hread.
  unfold processAllImages. rewrite Hflag.
  rewrite processAllImages_body_cases by done.
  fold (todoOf W forceAll (set_isProcessing true st)).
  rewrite <- (todoOf_ext W forceAll st (set_isProcessing true st)) by done.
  destruct (todoOf W forceAll st) as [|p L] eqn:Htodo.
  - left. split; [done|]. destruct st. simpl in Hflag. by subst.
  - right.
    destruct (forM_processImage_ok W cfg Hmk Henc Hwr now (p :: L)
                (set_isProcessing true st)) as (sa & Hrun & _ & Hset).
    exists sa. split; [done|]. split; [done|].
    unfold_monad. rewrite Hrun.
    destruct (generateManifest cfg); [|done].
    unfold writeManifest. unfold_monad. simpl. by rewrite Hwr.
Qed.

(** X9.  When nothing fails, a run leaves every file it works on (every scanned
    Original when forced, every STALE one otherwise) with its whole plan
    recorded and on disk; with [generateManifest] the manifest file then
    equals the in-memory manifest and carries the time of the run; the guard
    is clear again. *)
Theorem run_settles_what_it_processes W cfg now forceAll st p :
  (∀ dir, mkdirOk W dir = true) →
  (∀ src w h f q, encodeOk W src w h f q = true) →
  (∀ path, writeOk W path = true) →
  isProcessing st = false → inputDirExists W = true → readdirOk W = true →
  p ∈ scanImages W → forceAll = true ∨ needsProcessing W p st = true →
  let st' := processAllImages W cfg now forceAll st in
  settled W cfg now p st' ∧
  isProcessing st' = false ∧
  (generateManifest cfg = true →
   manifestJson st' = Some (manifest st') ∧ generatedAt (manifest st') = now).
Proof.
  intros Hmk Henc Hwr Hflag Hin Hread Hscan Hwhy. simpl.
  assert (p ∈ todoOf W forceAll st) as Hp by (by apply elem_of_todoOf).
  destruct (processAllImages_run_ok W cfg now forceAll st Hmk Henc Hwr Hflag Hin Hread)
    as [[Hnil _]|(sa & _ & Hset & ->)].
  { rewrite Hnil in Hp. by apply elem_of_nil in Hp. }
  split; [|split; [done|]].
  - apply (settled_ext W cfg now p sa); [| |by apply Hset];
      by destruct (generateManifest cfg).
  - by intros ->.
Qed.

Lemma run_settles_what_it_processes_witness :
  let W := calm_world {[ "a.jpg" := image_file 100 500 300 ]} in
  let st' := processAllImages W (config_with [webp] [320; 640]) 1000 true initial_state in
  settled W (config_with [webp] [320; 640]) 1000 "a.jpg" st' ∧
  isProcessing st' = false ∧
  (generateManifest (config_with [webp] [320; 640]) = true →
   manifestJson st' = Some (manifest st') ∧ generatedAt (manifest st') = 1000).
Proof.
  apply (run_settles_what_it_processes
           (calm_world {[ "a.jpg" := image_file 100 500 300 ]})
           (config_with [webp] [320; 640]) 1000 true initial_state "a.jpg");
    try reflexivity.
  - vm_compute. by left.
  - by left.
Defined.

(** ** Batch orchestrator: encoder calls *)

Lemma processAllImages_encode_free W cfg now forceAll st :
  (inputDirExists W = true → readdirOk W = true →
   ∀ p x, p ∈ todoOf W forceAll st → x ∈ planOf W cfg p →
     skipExisting cfg = true ∧ is_Some (outTree st !! outputOf p x)) →
  encode_calls (trace (processAllImages W cfg now forceAll st)) =
  encode_calls (trace st).
Proof.
  intros Hall. unfold processAllImages.
  destruct (isProcessing st) eqn:Hflag; [done|].
  assert (∀ r s, encode_calls (trace (set_isProcessing false
            (match r : Outcome unit with
             | Ret _ => s
             | Throw err => add_event (EvError (LogBatchFailed err)) s end)))
          = encode_calls (trace s)) as Hwrap by (by intros []).
  destruct (processAllImages_body _ _ _ _ _) as [r s] eqn:Hbody.
  rewrite Hwrap. clear Hwrap.
  change (trace st) with (trace (set_isProcessing true st)).
  revert Hbody. unfold processAllImages_body, getImageFiles.
  destruct (inputDirExists W); simpl; [|by intros [= <- <-]].
  destruct (readdirOk W); unfold_monad; [|by intros [= <- <-]].
  specialize (Hall eq_refl eq_refl).
  destruct (scanImages W) as [|f fs] eqn:Hscan; [by intros [= <- <-]|].
  destruct (mkdirOk W ""); simpl; [|by intros [= <- <-]].
  rewrite <- Hscan. fold (todoOf W forceAll (set_isProcessing true st)).
  rewrite <- (todoOf_ext W forceAll st (set_isProcessing true st)) by done.
  destruct (negb forceAll && bool_decide (todoOf W forceAll st = []));
    [by intros [= <- <-]|].
  pose proof (forM_processImage_no_encode W cfg now (todoOf W forceAll st)
                (set_isProcessing true st)) as Hfree.
  destruct (forM _ _ _) as [[[]|e] sa] eqn:Hrun; simpl in Hfree.
  2:{ intros [= <- <-]. apply Hfree. intros q x Hq Hx. by apply Hall. }
  destruct (generateManifest cfg).
  - intros Hw. apply writeManifest_effects in Hw as (_ & _ & ->).
    apply Hfree. intros q x Hq Hx. by apply Hall.
  - intros [= <- <-]. apply Hfree. intros q x Hq Hx. by apply Hall.
Qed.

Lemma settled_output_exists W cfg now p st x :
  settled W cfg now p st → x ∈ planOf W cfg p →
  is_Some (outTree st !! outputOf p x).
Proof.
  unfold planOf. intros Hset Hx.
  destruct (probe W p) as [| |ow oh] eqn:Hprobe;
    try (by apply elem_of_nil in Hx).
  destruct (Hset ow oh Hprobe) as [_ Hout].
  destruct (Hout x Hx) as (o & -> & _). by eexists.
Qed.

(** X10.  With [skipExisting] (the default) and the input and the output
    directory apart, forcing a run right after a forced run in
    which nothing failed calls the encoder not once: [forceAll] selects
    every file, and the generator then skips every output that is already
    there. *)
Theorem forced_rerun_encodes_nothing W cfg now1 now2 st0 place decode :
  place = None →
  (∀ dir, mkdirOk W dir = true) →
  (∀ src w h f q, encodeOk W src w h f q = true) →
  (∀ path, writeOk W path = true) →
  skipExisting cfg = true →
  let st1 := processAllImages W cfg now1 true st0 in
  let st2 := processAllImages (diskAfter place decode W st1) cfg now2 true st1 in
  encode_calls (trace st2) = encode_calls (trace st1).
Proof.
  intros -> Hmk Henc Hwr Hskip. simpl. rewrite diskAfter_apart.
  destruct (isProcessing st0) eqn:Hflag.
  { unfold processAllImages at 2. rewrite Hflag.
    unfold processAllImages. by rewrite Hflag. }
  apply processAllImages_encode_free. intros Hin Hread p x Hp Hx. split; [done|].
  apply elem_of_todoOf in Hp as [Hscan _].
  destruct (processAllImages_run_ok W cfg now1 true st0 Hmk Henc Hwr Hflag Hin Hread)
    as [[Hnil _]|(sa & _ & Hset & ->)].
  { unfold todoOf in Hnil. rewrite Hnil in Hscan. by apply elem_of_nil in Hscan. }
  assert (is_Some (outTree sa !! outputOf p x)) as Hsa.
  { apply (settled_output_exists W cfg now1 p sa x); [|done]. by apply Hset. }
  by destruct (generateManifest cfg).
Qed.

Lemma forced_rerun_encodes_nothing_witness :
  let W := calm_world {[ "a.jpg" := image_file 100 500 300 ]} in
  let st1 := processAllImages W default_config 1000 true initial_state in
  let st2 := processAllImages (diskAfter None (readBack W) W st1) default_config
               2000 true st1 in
  encode_calls (trace st2) = encode_calls (trace st1).
Proof.
  apply (forced_rerun_encodes_nothing
           (calm_world {[ "a.jpg" := image_file 100 500 300 ]})
           default_config 1000 2000 initial_state None
           (readBack (calm_world {[ "a.jpg" := image_file 100 500 300 ]})));
    reflexivity.
Defined.

(** ** Batch orchestrator: the files of the output tree *)

Lemma forM_processImage_new_files W cfg now L st k :
  is_Some (outTree (forM L (processImage W cfg now) st).2 !! k) →
  is_Some (outTree st !! k) ∨
  ∃ p, p ∈ L ∧ (k ∈ outputOf p <$> planOf W cfg p ∨ (keepOriginal cfg = true ∧ k = p)).
Proof.
  revert st. induction L as [|p L IH]; intros st.
  - by left.
  - rewrite forM_cons.
    pose proof (processImage_new_files W cfg now p st k) as Hp.
    destruct (processImage W cfg now p st) as [[[]|e] st1]; simpl in Hp.
    + intros Hk. destruct (IH _ Hk) as [Hk1|(q & Hq & Hwhy)].
      * destruct (Hp Hk1) as [?|Hwhy]; [by left|].
        right. exists p. split; [by left|done].
      * right. exists q. split; [by right|done].
    + simpl. intros Hk. destruct (Hp Hk) as [?|Hwhy]; [by left|].
      right. exists p. split; [by left|done].
Qed.

Lemma processAllImages_new_files W cfg now forceAll st k :
  is_Some (outTree (processAllImages W cfg now forceAll st) !! k) →
  is_Some (outTree st !! k) ∨
  ∃ p, p ∈ scanImages W ∧
       (k ∈ outputOf p <$> planOf W cfg p ∨ (keepOriginal cfg = true ∧ k = p)).
Proof.
  unfold processAllImages. destruct (isProcessing st); [by left|].
  destruct (processAllImages_body _ _ _ _ _) as [r s] eqn:Hbody.
  assert (outTree (set_isProcessing false
            (match r with Ret _ => s | Throw err => add_event (EvError (LogBatchFailed err)) s end))
          = outTree s) as -> by (by destruct r).
  change (outTree st) with (outTree (set_isProcessing true st)).
  revert Hbody. unfold processAllImages_body, getImageFiles.
  destruct (inputDirExists W); simpl; [|intros [= <- <-]; by left].
  destruct (readdirOk W); unfold_monad; [|intros [= <- <-]; by left].
  destruct (scanImages W) as [|f fs] eqn:Hscan; [intros [= <- <-]; by left|].
  destruct (mkdirOk W ""); simpl; [|intros [= <- <-]; by left].
  rewrite <- Hscan. fold (todoOf W forceAll (set_isProcessing true st)).
  destruct (negb forceAll && bool_decide (todoOf W forceAll _ = []));
    [intros [= <- <-]; by left|].
  pose proof (forM_processImage_new_files W cfg now
                (todoOf W forceAll (set_isProcessing true st))
                (set_isProcessing true st) k) as Hnew.
  assert (is_Some (outTree (forM (todoOf W forceAll (set_isProcessing true st))
                              (processImage W cfg now) (set_isProcessing true st)).2 !! k) →
          is_Some (outTree (set_isProcessing true st) !! k) ∨
          ∃ p, p ∈ scanImages W ∧
               (k ∈ outputOf p <$> planOf W cfg p ∨ (keepOriginal cfg = true ∧ k = p)))
    as Hnew'.
  { intros Hk. destruct (Hnew Hk) as [?|(p & Hp & Hwhy)]; [by left|].
    right. exists p. split; [|done]. by apply elem_of_todoOf in Hp as [? _]. }
  clear Hnew. destruct (forM _ _ _) as [[[]|e] sa] eqn:Hrun; simpl in Hnew'.
  2:{ by intros [= <- <-]. }
  destruct (generateManifest cfg).
  - intros Hw. by apply writeManifest_effects in Hw as (_ & -> & _).
  - by intros [= <- <-].
Qed.

(** X11.  While the input tree stays as it is, a run keeps the output tree free of
    strangers: if every file in it was a planned output (or kept copy) of a
    scanned Original before the run, so it is after the run. *)
Theorem only_planned_is_invariant W cfg now forceAll st :
  only_planned W cfg st → only_planned W cfg (processAllImages W cfg now forceAll st).
Proof.
  intros Hinv k Hk.
  destruct (processAllImages_new_files W cfg now forceAll st k Hk) as [Hold|Hnew];
    [by apply Hinv|done].
Qed.

Lemma only_planned_is_invariant_witness :
  only_planned (calm_world {[ "a.jpg" := image_file 100 500 300 ]}) default_config
    (processAllImages (calm_world {[ "a.jpg" := image_file 100 500 300 ]})
       default_config 1000 false initial_state).
Proof.
  apply (only_planned_is_invariant
           (calm_world {[ "a.jpg" := image_file 100 500 300 ]})
           default_config 1000 false initial_state).
  intros k Hk. vm_compute in Hk. by destruct Hk.
Defined.

(** ** Restart and command line *)

Lemma in_sync_preserved W cfg now forceAll st :
  (∀ dir, mkdirOk W dir = true) →
  (∀ src w h f q, encodeOk W src w h f q = true) →
  (∀ path, writeOk W path = true) →
  generateManifest cfg = true →
  in_sync st → in_sync (processAllImages W cfg now forceAll st).
Proof.
  intros Hmk Henc Hwr Hgen Hsync. unfold processAllImages.
  destruct (isProcessing st); [done|].
  destruct (processAllImages_body _ _ _ _ _) as [r s] eqn:Hbody.
  assert (in_sync s → in_sync (set_isProcessing false
            (match r with Ret _ => s | Throw err => add_event (EvError (LogBatchFailed err)) s end)))
    as Hwrap by (by destruct r).
  apply Hwrap. clear Hwrap.
  assert (in_sync (set_isProcessing true st)) as Hsync' by done.
  revert Hbody. unfold processAllImages_body, getImageFiles.
  destruct (inputDirExists W); simpl; [|by intros [= <- <-]].
  destruct (readdirOk W); unfold_monad; [|by intros [= <- <-]].
  destruct (scanImages W) as [|f fs] eqn:Hscan; [by intros [= <- <-]|].
  destruct (mkdirOk W ""); simpl; [|by intros [= <- <-]].
  rewrite <- Hscan. fold (todoOf W forceAll (set_isProcessing true st)).
  destruct (negb forceAll && bool_decide (todoOf W forceAll _ = []));
    [by intros [= <- <-]|].
  destruct (forM_processImage_ok W cfg Hmk Henc Hwr now
              (todoOf W forceAll (set_isProcessing true st))
              (set_isProcessing true st)) as (sa & -> & _).
  rewrite Hgen. unfold writeManifest. unfold_monad. simpl. rewrite Hwr.
  by intros [= <- <-].
Qed.

Lemma loadManifest_restart t st :
  in_sync st →
  let sR := (loadManifest (restart t st)).2 in
  images (manifest sR) = images (manifest st) ∧ outTree sR = outTree st ∧
  trace sR = trace st ∧ isProcessing sR = false ∧ in_sync sR.
Proof.
  unfold in_sync, loadManifest, restart. simpl.
  destruct (manifestJson st) as [content|]; simpl.
  - by intros <-.
  - by intros ->.
Qed.

(** X12.  A restart between two incremental runs costs nothing: the second
    process starts from an empty manifest on the disk that the first one
    left, loads the file that the first one wrote, and, under the conditions
    of the second-run property (the input and the output directory apart
    among them), calls the encoder not once. *)
Theorem restart_keeps_the_second_run_free W cfg now1 now2 t st0 place decode :
  place = None →
  (∀ dir, mkdirOk W dir = true) →
  (∀ src w h f q, encodeOk W src w h f q = true) →
  (∀ path, writeOk W path = true) →
  (skipExisting cfg = true ∧ keepOriginal cfg = false) ∨
  (∀ p src, inputTree W !! p = Some src → mtimeMs src ≤ now1) →
  generateManifest cfg = true →
  isProcessing st0 = false → in_sync st0 →
  let st1 := processAllImages W cfg now1 false st0 in
  let st2 := serverStart (diskAfter place decode W st1) cfg now2 (restart t st1) in
  encode_calls (trace st2) = encode_calls (trace st1).
Proof.
  intros -> Hmk Henc Hwr Hregime Hgen Hflag Hsync. simpl. rewrite diskAfter_apart.
  pose proof (in_sync_preserved W cfg now1 false st0 Hmk Henc Hwr Hgen Hsync) as Hsync1.
  destruct (loadManifest_restart t _ Hsync1) as (Himg & Hout & Htr & _ & _).
  unfold serverStart. rewrite <- Htr.
  apply processAllImages_encode_free. intros Hin Hread p x Hp Hx.
  apply elem_of_todoOf in Hp as [Hscan [?|Hneeds]]; [done|].
  rewrite Hout.
  rewrite (needsProcessing_ext W p _ (processAllImages W cfg now1 false st0))
    in Hneeds by done.
  clear Himg Hout Htr Hsync1.
  revert Hneeds. unfold processAllImages. rewrite Hflag.
  destruct (first_body_outcome W cfg now1 Hmk Henc Hwr Hregime
              (set_isProcessing true st0) Hin Hread) as (s1 & -> & Hs1).
  intros Hneeds. apply (Hs1 p x Hscan); [|done].
  by rewrite (needsProcessing_ext W p s1 (set_isProcessing false s1)).
Qed.

Lemma restart_keeps_the_second_run_free_witness :
  let W := calm_world {[ "a.jpg" := image_file 100 500 300 ]} in
  let st1 := processAllImages W default_config 1000 false initial_state in
  let st2 := serverStart (diskAfter None (readBack W) W st1) default_config 2000
               (restart 1500 st1) in
  encode_calls (trace st2) = encode_calls (trace st1).
Proof.
  apply (restart_keeps_the_second_run_free
           (calm_world {[ "a.jpg" := image_file 100 500 300 ]})
           default_config 1000 2000 1500 initial_state None
           (readBack (calm_world {[ "a.jpg" := image_file 100 500 300 ]})));
    try reflexivity.
  left. split; reflexivity.
Defined.

(** X13.  [--clean] followed by [--process] in a new process rebuilds from
    nothing: when nothing fails, every scanned Original ends with its whole
    plan recorded and on disk, and the output tree holds no other file than
    the planned outputs (and kept copies) of the scanned Originals. *)
Theorem clean_then_process_rebuilds W cfg now t forceAll st :
  (∀ dir, mkdirOk W dir = true) →
  (∀ src w h f q, encodeOk W src w h f q = true) →
  (∀ path, writeOk W path = true) →
  inputDirExists W = true → readdirOk W = true →
  let st' := cliProcess W cfg now forceAll (restart t (cliClean RmDone st).1) in
  (∀ p, p ∈ scanImages W → settled W cfg now p st') ∧
  only_planned W cfg st'.
Proof.
  intros Hmk Henc Hwr Hin Hread st'. subst st'. unfold cliProcess.
  set (s0 := (loadManifest (restart t (cliClean RmDone st).1)).2).
  assert (images (manifest s0) = ∅ ∧ outTree s0 = ∅ ∧ isProcessing s0 = false)
    as (Himg & Hout & Hflag) by done.
  split.
  - intros p Hscan.
    assert (p ∈ todoOf W forceAll s0) as Hp.
    { apply elem_of_todoOf. split; [done|]. right.
      unfold needsProcessing. by rewrite Himg, lookup_empty. }
    destruct (processAllImages_run_ok W cfg now forceAll s0 Hmk Henc Hwr Hflag Hin Hread)
      as [[Hnil _]|(sa & _ & Hset & ->)].
    { rewrite Hnil in Hp. by apply elem_of_nil in Hp. }
    apply (settled_ext W cfg now p sa); [| |by apply Hset];
      by destruct (generateManifest cfg).
  - intros k Hk.
    destruct (processAllImages_new_files W cfg now forceAll s0 k Hk) as [Hold|Hnew];
      [|done].
    rewrite Hout, lookup_empty in Hold. by destruct Hold.
Qed.

Lemma clean_then_process_rebuilds_witness :
  let W := calm_world {[ "a.jpg" := image_file 100 500 300 ]} in
  let st' := cliProcess W default_config 1000 false
               (restart 900 (cliClean RmDone initial_state).1) in
  (∀ p, p ∈ scanImages W → settled W default_config 1000 p st') ∧
  only_planned W default_config st'.
Proof.
  apply (clean_then_process_rebuilds
           (calm_world {[ "a.jpg" := image_file 100 500 300 ]})
           default_config 1000 900 false initial_state); reflexivity.
Defined.

(** ** The [--manifest] command *)

(** X14.  Run in a process of its own, [--manifest] does not regenerate anything:
    it writes the empty manifest of the new process over the manifest file,
    and the next process that loads the file finds every path STALE. *)
Theorem manifest_command_forgets_the_entries W now t t' st p :
  writeOk W "manifest.json" = true →
  let st1 := (cliManifest W now (restart t st)).2 in
  manifestJson st1 = Some {| generatedAt := now; images := ∅ |} ∧
  outTree st1 = outTree st ∧
  needsProcessing W p (loadManifest (restart t' st1)).2 = true.
Proof.
  intros Hwr. simpl. unfold cliManifest, writeManifest. unfold_monad. simpl.
  rewrite Hwr. simpl. repeat split.
Qed.

Lemma manifest_command_forgets_the_entries_witness :
  let W := calm_world {[ "a.jpg" := image_file 100 500 300 ]} in
  let st := processAllImages W default_config 1000 false initial_state in
  let st1 := (cliManifest W 2000 (restart 1500 st)).2 in
  manifestJson st1 = Some {| generatedAt := 2000; images := ∅ |} ∧
  outTree st1 = outTree st ∧
  needsProcessing W "a.jpg" (loadManifest (restart 2500 st1)).2 = true.
Proof.
  apply (manifest_command_forgets_the_entries
           (calm_world {[ "a.jpg" := image_file 100 500 300 ]}) 2000 1500 2500
           (processAllImages (calm_world {[ "a.jpg" := image_file 100 500 300 ]})
              default_config 1000 false initial_state) "a.jpg").
  reflexivity.
Defined.

(** ** File watcher *)

Lemma Set_add_NoDup x s : NoDup s → NoDup (Set_add x s).
Proof.
  intros Hs. unfold Set_add. case_bool_decide as Hx; [done|].
  apply NoDup_app. repeat split; [done| |apply NoDup_singleton].
  intros y Hy Hy'. apply elem_of_cons in Hy' as [->|Hy']; [done|].
  by apply elem_of_nil in Hy'.
Qed.

Lemma elem_of_Set_add x s y : y ∈ Set_add x s ↔ y = x ∨ y ∈ s.
Proof.
  unfold Set_add. case_bool_decide as Hx.
  - split; [by right|]. by intros [->|?].
  - rewrite elem_of_app, elem_of_cons, elem_of_nil. tauto.
Qed.

Lemma burst_snoc events ev w :
  burst (events ++ [ev]) w = onFileSystemChange ev.1 ev.2 (burst events w).
Proof. unfold burst. by rewrite foldl_app. Qed.

(** X15.  A burst of watcher events does no work by itself: the plugin state is
    untouched, and the pending set ends up holding, each once, what it held
    before plus the paths of the burst that are image names. *)
Theorem burst_only_collects events w :
  NoDup (pendingFiles w) →
  let w' := burst events w in
  w_state w' = w_state w ∧
  NoDup (pendingFiles w') ∧
  ∀ p, p ∈ pendingFiles w' ↔
       p ∈ pendingFiles w ∨ (p ∈ events.*2 ∧ isImageFile p = true).
Proof.
  intros Hnd. simpl. induction events as [|ev events IH] using rev_ind.
  - repeat split; [done| |].
    + by left.
    + intros [?|[Hp _]]; [done|]. by apply elem_of_nil in Hp.
  - rewrite burst_snoc. destruct IH as (Hst & Hnd' & Hmem).
    unfold onFileSystemChange.
    destruct (isImageFile ev.2) eqn:Himg; simpl.
    + split; [done|]. split; [by apply Set_add_NoDup|].
      intros p. rewrite elem_of_Set_add, Hmem, fmap_app, elem_of_app.
      simpl. rewrite elem_of_cons, elem_of_nil. split.
      * intros [->|[?|[? ?]]]; auto.
      * intros [?|[[?|[->|[]]] ?]]; auto.
    + split; [done|]. split; [done|].
      intros p. rewrite Hmem, fmap_app, elem_of_app.
      simpl. rewrite elem_of_cons, elem_of_nil. split.
      * intros [?|[? ?]]; auto.
      * intros [?|[[?|[->|[]]] ?]]; auto. congruence.
Qed.

Lemma burst_only_collects_witness :
  let w := mkWatcher initial_state [] None in
  let w' := burst [(10, "a.jpg"); (20, "notes.txt"); (30, "a.jpg")] w in
  w_state w' = w_state w ∧
  NoDup (pendingFiles w') ∧
  ∀ p, p ∈ pendingFiles w' ↔
       p ∈ pendingFiles w ∨
       (p ∈ [(10, "a.jpg"); (20, "notes.txt"); (30, "a.jpg")].*2 ∧ isImageFile p = true).
Proof.
  apply (burst_only_collects [(10, "a.jpg"); (20, "notes.txt"); (30, "a.jpg")]
           (mkWatcher initial_state [] None)).
  simpl. apply NoDup_nil_2.
Defined.

Lemma timerCallback_run W cfg now w p L :
  pendingFiles w = p :: L →
  timerCallback W cfg now w =
  match (_ ← forM (p :: L) (processImage W cfg now);
         if generateManifest cfg then writeManifest W now else mret tt) (w_state w) with
  | (Ret _, st') => (Ret tt, mkWatcher st' [] None)
  | (Throw e, st') => (Throw e, mkWatcher st' [] (debounceTimer w))
  end.
Proof.
  intros Hpend. unfold timerCallback, processPendingFiles. rewrite Hpend.
  by destruct ((_ ← forM (p :: L) (processImage W cfg now);
                if generateManifest cfg then writeManifest W now else mret tt)
                 (w_state w)) as [[[]|e] st'].
Qed.

(** X16.  When nothing fails, the timer callback leaves every pending file with
    its whole plan recorded and on disk, empties the pending set and disarms
    the timer; with [generateManifest] the manifest file is rewritten. *)
Theorem timerCallback_settles_pending W cfg now w p :
  (∀ dir, mkdirOk W dir = true) →
  (∀ src w h f q, encodeOk W src w h f q = true) →
  (∀ path, writeOk W path = true) →
  p ∈ pendingFiles w →
  ∃ w', timerCallback W cfg now w = (Ret tt, w') ∧
        settled W cfg now p (w_state w') ∧
        pendingFiles w' = [] ∧ debounceTimer w' = None ∧
        (generateManifest cfg = true →
         manifestJson (w_state w') = Some (manifest (w_state w'))).
Proof.
  intros Hmk Henc Hwr Hp.
  destruct (pendingFiles w) as [|q L] eqn:Hpend; [by apply elem_of_nil in Hp|].
  rewrite (timerCallback_run W cfg now w q L Hpend). unfold_monad.
  destruct (forM_processImage_ok W cfg Hmk Henc Hwr now (q :: L) (w_state w))
    as (sa & -> & _ & Hset).
  destruct (generateManifest cfg).
  - unfold writeManifest. unfold_monad. simpl. rewrite Hwr.
    eexists. split; [done|]. simpl. split; [|done].
    apply (settled_ext W cfg now p sa); [done|done|by apply Hset].
  - eexists. split; [done|]. simpl. split; [by apply Hset|done].
Qed.

Lemma timerCallback_settles_pending_witness :
  let W := calm_world {[ "a.jpg" := image_file 100 500 300 ]} in
  let w := burst [(10, "a.jpg"); (20, "a.jpg")] (mkWatcher initial_state [] None) in
  ∃ w', timerCallback W default_config 1000 w = (Ret tt, w') ∧
        settled W default_config 1000 "a.jpg" (w_state w') ∧
        pendingFiles w' = [] ∧ debounceTimer w' = None ∧
        (generateManifest default_config = true →
         manifestJson (w_state w') = Some (manifest (w_state w'))).
Proof.
  apply (timerCallback_settles_pending
           (calm_world {[ "a.jpg" := image_file 100 500 300 ]}) default_config 1000
           (burst [(10, "a.jpg"); (20, "a.jpg")] (mkWatcher initial_state [] None))
           "a.jpg"); try reflexivity.
  vm_compute. by left.
Defined.

(** X17.  The watcher does not re-encode a modified source whose outputs are
    there: with [skipExisting] (the default), a callback whose pending files
    all have their planned outputs on disk calls the encoder not once,
    whatever the modification times are. *)
Theorem watched_change_is_not_reencoded W cfg now w :
  skipExisting cfg = true →
  (∀ p x, p ∈ pendingFiles w → x ∈ planOf W cfg p →
          is_Some (outTree (w_state w) !! outputOf p x)) →
  encode_calls (trace (w_state (timerCallback W cfg now w).2)) =
  encode_calls (trace (w_state w)).
Proof.
  intros Hskip Hall.
  destruct (pendingFiles w) as [|q L] eqn:Hpend.
  { unfold timerCallback, processPendingFiles. by rewrite Hpend. }
  rewrite (timerCallback_run W cfg now w q L Hpend). unfold_monad.
  pose proof (forM_processImage_no_encode W cfg now (q :: L) (w_state w)) as Hfree.
  destruct (forM _ _ _) as [[[]|e] sa] eqn:Hrun; simpl in Hfree.
  2:{ simpl. apply Hfree. intros p x Hp Hx. split; [done|by apply Hall]. }
  destruct (generateManifest cfg).
  - destruct (writeManifest W now sa) as [[[]|e] sb] eqn:Hw;
      apply writeManifest_effects in Hw as (_ & _ & Htr); simpl; rewrite Htr;
      apply Hfree; intros p x Hp Hx; (split; [done|by apply Hall]).
  - simpl. apply Hfree. intros p x Hp Hx. split; [done|by apply Hall].
Qed.

Lemma watched_change_is_not_reencoded_witness :
  let W := calm_world {[ "a.jpg" := image_file 5000 500 300 ]} in
  let st := processAllImages W default_config 1000 false initial_state in
  let w := burst [(6000, "a.jpg")] (mkWatcher st [] None) in
  encode_calls (trace (w_state (timerCallback W default_config 6300 w).2)) =
  encode_calls (trace (w_state w)).
Proof.
  apply (watched_change_is_not_reencoded
           (calm_world {[ "a.jpg" := image_file 5000 500 300 ]}) default_config 6300
           (burst [(6000, "a.jpg")]
              (mkWatcher (processAllImages
                            (calm_world {[ "a.jpg" := image_file 5000 500 300 ]})
                            default_config 1000 false initial_state) [] None)));
    [reflexivity|].
  intros p x Hp Hx. vm_compute in Hp.
  apply elem_of_cons in Hp as [->|Hp]; [|by apply elem_of_nil in Hp].
  vm_compute in Hx.
  apply elem_of_cons in Hx as [->|Hx]; [|by apply elem_of_nil in Hx].
  vm_compute. eauto.
Defined.

(** X18.  A watcher event for a source that is gone (or cannot be decoded) removes
    nothing: the callback logs the failure and leaves the entry of the path,
    every other entry and the whole output tree as they were. *)
Theorem watched_removal_keeps_outputs W cfg now w p :
  pendingFiles w = [p] →
  mkdirOk W (parentDir p) = true →
  probe W p = Unreadable →
  let w' := (timerCallback W cfg now w).2 in
  images (manifest (w_state w')) = images (manifest (w_state w)) ∧
  outTree (w_state w') = outTree (w_state w) ∧
  head (trace (w_state w')) = Some (EvError (LogProcessFailed p (ErrDecode p))).
Proof.
  intros Hpend Hdir Hprobe. simpl.
  rewrite (timerCallback_run W cfg now w p [] Hpend). unfold_monad.
  rewrite forM_cons, (processImage_unreadable_source W cfg now p _ Hdir Hprobe).
  change (forM [] _ ?s) with (@Ret unit tt, s).
  destruct (generateManifest cfg); [|done].
  unfold writeManifest. unfold_monad. simpl.
  by destruct (writeOk W "manifest.json").
Qed.

Lemma watched_removal_keeps_outputs_witness :
  let W := calm_world ∅ in
  let w := burst [(10, "a.jpg")] (mkWatcher initial_state [] None) in
  let w' := (timerCallback W default_config 1000 w).2 in
  images (manifest (w_state w')) = images (manifest (w_state w)) ∧
  outTree (w_state w') = outTree (w_state w) ∧
  head (trace (w_state w')) = Some (EvError (LogProcessFailed "a.jpg" (ErrDecode "a.jpg"))).
Proof.
  apply (watched_removal_keeps_outputs (calm_world ∅) default_config 1000
           (burst [(10, "a.jpg")] (mkWatcher initial_state [] None)) "a.jpg");
    reflexivity.
Defined.

(** X19.  A callback that throws loses its work list: when the directory of the
    first pending file cannot be created, nothing is processed, the manifest
    file is not written, the pending set is empty all the same, and the timer
    variable keeps its value. *)
Theorem failed_drain_drops_pending W cfg now w p L :
  pendingFiles w = p :: L →
  mkdirOk W (parentDir p) = false →
  timerCallback W cfg now w =
  (Throw (ErrMkdir (parentDir p)), mkWatcher (w_state w) [] (debounceTimer w)).
Proof.
  intros Hpend Hdir.
  rewrite (timerCallback_run W cfg now w p L Hpend). unfold_monad.
  by rewrite forM_cons, processImage_run, Hdir.
Qed.

Lemma failed_drain_drops_pending_witness :
  let W := {| inputDirExists := true; readdirOk := true;
              inputTree := {[ "a.jpg" := image_file 100 500 300 ]};
              mkdirOk := λ _, false; encodeOk := λ _ _ _ _ _, true;
              writeOk := λ _, true; fileType := λ _, "image/jpeg" |} in
  let w := mkWatcher initial_state ["a.jpg"; "b.jpg"] (Some 310) in
  timerCallback W default_config 1000 w =
  (Throw (ErrMkdir (parentDir "a.jpg")), mkWatcher (w_state w) [] (debounceTimer w)).
Proof.
  apply (failed_drain_drops_pending
           {| inputDirExists := true; readdirOk := true;
              inputTree := {[ "a.jpg" := image_file 100 500 300 ]};
              mkdirOk := λ _, false; encodeOk := λ _ _ _ _ _, true;
              writeOk := λ _, true; fileType := λ _, "image/jpeg" |}
           default_config 1000
           (mkWatcher initial_state ["a.jpg"; "b.jpg"] (Some 310)) "a.jpg" ["b.jpg"]);
    reflexivity.
Defined.

(** ** Route: footprint *)



(** ** Route: variants *)

(** X21.  A variant request that was answered with 200 once is from then on
    answered from the output tree: the same path gets the stored file with
    the immutable headers, the state stays as it is and the encoder is not
    called, whatever the query string says. *)
Theorem variant_is_served_from_file_after_success W cfg now now' req req' st resp st1 m :
  variantMatch (req_path req) = Some m →
  route W cfg now req st = (Ret resp, st1) →
  status resp = 200 →
  req_path req' = req_path req →
  route W cfg now' req' st1 =
  (Ret (mkResponse 200 (BodyOutputFile (req_path req))
          [("Content-Type", fileType W (req_path req));
           ("Cache-Control", CACHE_IMMUTABLE)]), st1).
Proof.
  intros Hm Hrun Hok Hpath.
  assert (fileExists (req_path req) st1 = true ∧
          String.eqb (req_path req) "" || negb (isImageFile (req_path req)) = false)
    as [Hfile Himg].
  { revert Hrun. unfold route.
    destruct (String.eqb (req_path req) "" || negb (isImageFile (req_path req)));
      [intros [= <- <-]; discriminate Hok|].
    rewrite Hm. destruct m as [[basePath widthStr] format]. unfold_monad.
    destruct (fileExists (req_path req) st) eqn:Hfile; [by intros [= <- <-]|].
    destruct (find _ CANDIDATE_EXTENSIONS) as [ext|];
      [|intros [= <- <-]; discriminate Hok].
    destruct (optimizeOnTheFly W _ _ _ _ st) as [[[[buffer contentType]|]|e] s1];
      [|intros [= <- <-]; discriminate Hok|done].
    unfold ensureDir. destruct (mkdirOk W _); simpl; [|done].
    unfold bunWrite. destruct (writeOk W _); unfold_monad; simpl; [|done].
    intros [= <- <-]. split; [|done].
    unfold fileExists. apply bool_decide_eq_true. simpl.
    rewrite lookup_insert_eq. eauto. }
  unfold route. rewrite Hpath, Himg, Hm. destruct m as [[basePath widthStr] format].
  unfold_monad. by rewrite Hfile.
Qed.

Lemma variant_is_served_from_file_after_success_witness :
  let req := mkRequest "hero-320w.webp" None None None in
  let st1 := (route hero_world default_config 1000 req initial_state).2 in
  route hero_world default_config 2000 (mkRequest "hero-320w.webp" (Some "64") None None) st1 =
  (Ret (mkResponse 200 (BodyOutputFile "hero-320w.webp")
          [("Content-Type", fileType hero_world "hero-320w.webp");
           ("Cache-Control", CACHE_IMMUTABLE)]), st1).
Proof.
  apply (variant_is_served_from_file_after_success hero_world default_config 1000 2000
           (mkRequest "hero-320w.webp" None None None)
           (mkRequest "hero-320w.webp" (Some "64") None None)
           initial_state
           (mkResponse 200
              (BodyBuffer (Encoded "hero.jpg" (Some 320) (Some 160) (Some webp) (Some 80)))
              [("Content-Type", "image/webp"); ("Cache-Control", CACHE_IMMUTABLE)])
           (route hero_world default_config 1000
              (mkRequest "hero-320w.webp" None None None) initial_state).2
           ("hero", "320", "webp")).
  - vm_compute. reflexivity.
  - vm_compute. reflexivity.
  - vm_compute. reflexivity.
  - vm_compute. reflexivity.
Defined.



(** ** Plain paths *)

Lemma url_plain_from_app b s t :
  url_plain_from b s = true → (∀ b', url_plain_from b' t = true) →
  url_plain_from b (s +:+ t) = true.
Proof.
  intros Hs Ht. revert b Hs. induction s as [|a s IH]; intros b Hs; [apply Ht|].
  change (String a s +:+ t) with (String a (s +:+ t)). simpl in *.
  destruct (Ascii.eqb a "/"); [by apply IH|].
  destruct (Ascii.eqb a ".").
  - apply andb_true_iff in Hs as [-> Hs]. by apply IH.
  - apply andb_true_iff in Hs as [-> Hs]. by apply IH.
Qed.

Lemma url_plain_app s t :
  url_plain s = true → (∀ b, url_plain_from b t = true) → url_plain (s +:+ t) = true.
Proof.
  destruct s as [|a s]; [done|]. intros Hs Ht.
  change (String a s +:+ t) with (String a (s +:+ t)). unfold url_plain in *.
  apply andb_true_iff in Hs as [-> Hs]. by apply url_plain_from_app.
Qed.




(** What the generator appends to a stem keeps a path plain. *)
Lemma variant_suffix_plain (width : Z) (f : Format) b :
  0 ≤ width →
  url_plain_from b ("-" +:+ pretty width +:+ "w." +:+ format_name f) = true.
Proof.
  intros Hw. destruct (pretty_nonneg_digits width Hw) as [_ Hdigits].
  change ("-" +:+ pretty width +:+ "w." +:+ format_name f)
    with (String "-" (pretty width +:+ "w." +:+ format_name f)).
  cbn [url_plain_from]. change (Ascii.eqb "-" "/") with false.
  change (Ascii.eqb "-" ".") with false. cbv iota.
  change (url_plain_char "-") with true. cbn [andb].
  apply url_plain_from_app.
  - generalize (pretty width) Hdigits. clear. intros s Hs.
    generalize false. induction s as [|a s IH]; intros b; [done|].
    apply Forall_cons in Hs as [Ha Hs]. simpl.
    assert (Ascii.eqb a "/" = false ∧ Ascii.eqb a "." = false ∧ url_plain_char a = true)
      as (-> & -> & ->).
    { revert Ha. clear. destruct a as [[] [] [] [] [] [] [] []]; by vm_compute. }
    by apply IH.
  - intros b'. by destruct f.
Qed.

Lemma relativePathOf_public publicPath name :
  relativePathOf publicPath (publicPath +:+ "/" +:+ name) = name.
Proof.
  unfold relativePathOf.
  replace (publicPath +:+ "/" +:+ name) with ((publicPath +:+ "/") +:+ name)
    by (by rewrite string_app_assoc).
  replace (len publicPath + 1) with (len (publicPath +:+ "/")).
  - apply slice_from_suffix.
  - unfold len. rewrite string_length_app. simpl. lia.
Qed.





(** ** What the generator writes *)

Lemma outputOf_inj stem ext x y :
  lastIndexOf ext "." = -1 →
  stem ≠ "" → Forall (λ a, is_line_terminator a = false) (chars stem) →
  0 ≤ x.1.1 → 0 ≤ y.1.1 →
  outputOf (stem +:+ "." +:+ ext) x = outputOf (stem +:+ "." +:+ ext) y →
  x.1.1 = y.1.1 ∧ x.2 = y.2.
Proof.
  intros Hext Hstem Hlt Hx Hy Heq.
  pose proof (variantMatch_of_output_name stem ext x.1.1 x.2 Hext Hstem Hlt Hx) as Mx.
  pose proof (variantMatch_of_output_name stem ext y.1.1 y.2 Hext Hstem Hlt Hy) as My.
  fold (outputOf (stem +:+ "." +:+ ext) x) in Mx.
  fold (outputOf (stem +:+ "." +:+ ext) y) in My.
  rewrite Heq, My in Mx. injection Mx as Hw Hf. split.
  - pose proof (parseInt_pretty x.1.1) as Px. rewrite <- Hw, parseInt_pretty in Px.
    by injection Px.
  - pose proof (encoderOf_format_name x.2) as Ex.
    rewrite <- Hf, encoderOf_format_name in Ex. by injection Ex.
Qed.

Lemma output_name_differs stem ext x :
  lastIndexOf ext "." = -1 →
  outputOf (stem +:+ "." +:+ ext) x ≠ stem +:+ "." +:+ ext.
Proof.
  intros Hext. unfold outputOf.
  rewrite (getOutputFilename_strips_extension _ _ _ _ Hext).
  induction stem as [|a stem IH]; [done|].
  intros Heq. apply IH. by injection Heq.
Qed.

Lemma foldM_processPair_content W cfg now p xs vs st r st' x :
  (∀ dir, mkdirOk W dir = true) →
  (∀ src w h f q, encodeOk W src w h f q = true) →
  (∀ y, y ∈ xs → outputOf p y = outputOf p x → y = x) →
  foldM (processPair W cfg now p) vs xs st = (r, st') →
  (x ∈ xs ∧ outTree st !! outputOf p x = None) ∨
  outTree st !! outputOf p x = Some (encodedFile cfg now p x) →
  outTree st' !! outputOf p x = Some (encodedFile cfg now p x).
Proof.
  intros Hmk Henc. revert vs st.
  induction xs as [|y xs IH]; intros vs st Hinj; simpl.
  - intros [= <- <-] [[Hx _]|Hfile]; [by apply elem_of_nil in Hx|done].
  - unfold_monad. rewrite processPair_run, Hmk. cbn [negb].
    unfold toFile. rewrite Henc.
    assert (∀ z, z ∈ xs → outputOf p z = outputOf p x → z = x) as Hinj'
      by (intros z Hz; apply Hinj; by right).
    destruct (decide (outputOf p y = outputOf p x)) as [Hsame|Hother].
    + assert (y = x) as -> by (apply Hinj; [by left|done]).
      destruct (skipExisting cfg && fileExists (outputOf p x) st) eqn:Hskip.
      * intros Hrest [[_ Hnone]|Hfile].
        { apply andb_true_iff in Hskip as [_ Hex].
          apply fileExists_true in Hex as [o Ho]. congruence. }
        apply (IH _ _ Hinj' Hrest). by right.
      * intros Hrest _. apply (IH _ _ Hinj' Hrest). right. simpl.
        by rewrite lookup_insert_eq.
    + assert (x ∈ y :: xs → x ∈ xs) as Htail.
      { intros [->|?]%elem_of_cons; [done|done]. }
      destruct (skipExisting cfg && fileExists (outputOf p y) st).
      * intros Hrest [[Hx Hnone]|Hfile]; apply (IH _ _ Hinj' Hrest); auto.
      * intros Hrest Hcase. apply (IH _ _ Hinj' Hrest). simpl.
        rewrite lookup_insert_ne by done.
        destruct Hcase as [[Hx Hnone]|Hfile]; auto.
Qed.

(** X23.  After the Original [stem.ext] was processed without a failure, the
    output tree holds, under the name of every planned pair that had no
    file before, the file that the generator wrote for it: encoded from
    that Original to the planned width, height and format at the configured
    quality, and dated with the time of the run. *)
Theorem generator_writes_the_encoded_file W cfg now stem ext st ow oh x :
  let p := stem +:+ "." +:+ ext in
  (∀ dir, mkdirOk W dir = true) →
  (∀ src w h f q, encodeOk W src w h f q = true) →
  (∀ path, writeOk W path = true) →
  lastIndexOf ext "." = -1 →
  stem ≠ "" → Forall (λ a, is_line_terminator a = false) (chars stem) →
  Forall (λ w, 0 ≤ w) (sizes cfg) →
  probe W p = Dimensions ow oh →
  x ∈ plan cfg ow oh →
  outTree st !! outputOf p x = None →
  outTree (processImage W cfg now p st).2 !! outputOf p x =
    Some (encodedFile cfg now p x).
Proof.
  intros p Hmk Henc Hwr Hext Hstem Hlt Hsizes Hprobe Hx Hnone.
  assert (∀ y, y ∈ plan cfg ow oh → outputOf p y = outputOf p x → y = x) as Hinj.
  { intros y Hy Heq.
    apply elem_of_planFor in Hx as (Hxw & _ & Hxh & _).
    apply elem_of_planFor in Hy as (Hyw & _ & Hyh & _).
    rewrite Forall_forall in Hsizes.
    destruct (outputOf_inj stem ext y x Hext Hstem Hlt) as [Hw Hf]; auto.
    destruct x as [[xw xh] xf], y as [[yw yh] yf]. simpl in *. congruence. }
  rewrite processImage_run, Hmk, Hprobe. cbn [negb].
  destruct (foldM _ _ _ _) as [[vs|e] st1] eqn:Hloop;
    pose proof (foldM_processPair_content W cfg now p _ _ _ _ _ x Hmk Henc Hinj Hloop
                  (or_introl (conj Hx Hnone))) as Hfile; [|done].
  destruct (keepOriginal cfg); [|done].
  unfold copyOriginal, ensureDir. rewrite Hmk, Hwr. unfold_monad. simpl.
  rewrite lookup_insert_ne; [done|].
  intros Heq. by apply (output_name_differs stem ext x Hext).
Qed.

Lemma generator_writes_the_encoded_file_witness :
  let p := "hero" +:+ "." +:+ "jpg" in
  outTree (processImage hero_world default_config 1000 p initial_state).2
    !! outputOf p (320, 160, webp) =
  Some (encodedFile default_config 1000 p (320, 160, webp)).
Proof.
  apply (generator_writes_the_encoded_file hero_world default_config 1000
           "hero" "jpg" initial_state 1000 500 (320, 160, webp)).
  - reflexivity.
  - reflexivity.
  - reflexivity.
  - reflexivity.
  - discriminate.
  - vm_compute. repeat constructor.
  - vm_compute. repeat constructor; discriminate.
  - vm_compute. reflexivity.
  - vm_compute. by left.
  - reflexivity.
Defined.

(** ** Two sources with one stem *)




(** ** Manifest helpers *)

Lemma elem_of_insertByWidth v l u : u ∈ insertByWidth v l ↔ u = v ∨ u ∈ l.
Proof.
  induction l as [|w l IH]; simpl.
  - rewrite elem_of_cons, elem_of_nil. tauto.
  - destruct (v_width v <=? v_width w).
    + by rewrite elem_of_cons.
    + rewrite !elem_of_cons, IH. tauto.
Qed.

Lemma elem_of_sortByWidth l u : u ∈ sortByWidth l ↔ u ∈ l.
Proof.
  induction l as [|w l IH]; simpl; [done|].
  rewrite elem_of_insertByWidth, elem_of_cons, IH. tauto.
Qed.

Lemma insertByWidth_sorted v l :
  sortedByWidth l → sortedByWidth (insertByWidth v l).
Proof.
  induction l as [|w l IH]; simpl.
  - intros _. split; [by intros u Hu%elem_of_nil|done].
  - intros [Hw Hl]. destruct (v_width v <=? v_width w) eqn:Hle.
    + apply Z.leb_le in Hle. simpl. split; [|done].
      intros u [->|Hu]%elem_of_cons; [done|]. specialize (Hw u Hu). lia.
    + apply Z.leb_gt in Hle. simpl. split; [|by apply IH].
      intros u Hu. apply elem_of_insertByWidth in Hu as [->|Hu]; [lia|by apply Hw].
Qed.

Lemma sortByWidth_sorted l : sortedByWidth (sortByWidth l).
Proof.
  induction l as [|w l IH]; simpl; [done|by apply insertByWidth_sorted].
Qed.

Lemma find_first_wide_enough tw l v :
  sortedByWidth l →
  find (λ v, bool_decide (tw ≤ v_width v)) l = Some v →
  v ∈ l ∧ tw ≤ v_width v ∧ ∀ u, u ∈ l → tw ≤ v_width u → v_width v ≤ v_width u.
Proof.
  induction l as [|w l IH]; simpl; [done|]. intros [Hw Hl].
  case_bool_decide as Hle.
  - intros [= ->]. split; [by left|]. split; [done|].
    intros u [->|Hu]%elem_of_cons _; [done|by apply Hw].
  - intros Hfind. destruct (IH Hl Hfind) as (Hv & Htw & Hmin).
    split; [by right|]. split; [done|].
    intros u [->|Hu]%elem_of_cons Hu'; [lia|by apply Hmin].
Qed.

Lemma find_none_wide_enough tw (l : list Variant) :
  find (λ v, bool_decide (tw ≤ v_width v)) l = None →
  ∀ u, u ∈ l → v_width u < tw.
Proof.
  induction l as [|w l IH]; simpl; [by intros _ u Hu%elem_of_nil|].
  case_bool_decide as Hle; [done|].
  intros Hfind u [->|Hu]%elem_of_cons; [lia|by apply IH].
Qed.

Lemma last_of_sorted l v :
  sortedByWidth l → last l = Some v →
  v ∈ l ∧ ∀ u, u ∈ l → v_width u ≤ v_width v.
Proof.
  induction l as [|w l IH]; [done|]. intros [Hw Hl].
  destruct l as [|w' l'].
  - intros [= ->]. split; [by left|].
    intros u [->|Hu]%elem_of_cons; [done|by apply elem_of_nil in Hu].
  - change (last (w :: w' :: l')) with (last (w' :: l')).
    intros Hlast. destruct (IH Hl Hlast) as [Hv Hmax]. split; [by right|].
    intros u [->|Hu]%elem_of_cons; [|by apply Hmax].
    by apply Hw.
Qed.

(** What a key does that the manifest does not have of its own. *)
Example helpers_on_inherited_keys :
  let manifest := mkManifest 0 {[ "a.jpg" := mkEntry "a.jpg" 500 300 [] ]} in
  getOptimalSrc manifest "b.jpg" 320 "webp" = Returned None ∧
  getOptimalSrc manifest "toString" 320 "webp" = TypeError ∧
  getSrcSet manifest "constructor" "webp" = TypeError ∧
  getPictureSources manifest "__proto__" "100vw" = TypeError ∧
  getPictureSources manifest "b.jpg" "100vw" = Returned [].
Proof. repeat split; reflexivity. Qed.

(** X25.  [getOptimalSrc] answers with the path of a variant of the requested
    format: the narrowest one that is at least [targetWidth] wide, or, when
    all are narrower, the widest one.  It answers [null] only when the
    manifest has no entry for the image and [Object.prototype] has no member
    of that name, or when the entry has no variant of that format.  It
    throws exactly when the image is no entry of the manifest and its name
    is one of a member of [Object.prototype]. *)
Theorem getOptimalSrc_is_optimal manifest imagePath targetWidth format :
  match getOptimalSrc manifest imagePath targetWidth format with
  | Returned (Some path) =>
      ∃ entry v,
        images manifest !! imagePath = Some entry ∧
        v ∈ e_variants entry ∧ v_format v = format ∧ v_path v = path ∧
        ((targetWidth ≤ v_width v ∧
          ∀ u, u ∈ e_variants entry → v_format u = format →
               targetWidth ≤ v_width u → v_width v ≤ v_width u) ∨
         (∀ u, u ∈ e_variants entry → v_format u = format →
               v_width u < targetWidth ∧ v_width u ≤ v_width v))
  | Returned None =>
      (images manifest !! imagePath = None ∧ imagePath ∉ OBJECT_PROTOTYPE_KEYS) ∨
      ∃ entry, images manifest !! imagePath = Some entry ∧
        ∀ u, u ∈ e_variants entry → v_format u ≠ format
  | TypeError =>
      images manifest !! imagePath = None ∧ imagePath ∈ OBJECT_PROTOTYPE_KEYS
  end.
Proof.
  unfold getOptimalSrc, imagesAt.
  destruct (images manifest !! imagePath) as [entry|];
    [|case_bool_decide; [done|by left]].
  set (matching := filter (λ v, v_format v = format) (e_variants entry)).
  assert (∀ u, u ∈ sortByWidth matching ↔ u ∈ e_variants entry ∧ v_format u = format)
    as Hmem.
  { intros u. rewrite elem_of_sortByWidth. unfold matching.
    rewrite list_elem_of_filter. tauto. }
  pose proof (sortByWidth_sorted matching) as Hsorted.
  destruct (find _ (sortByWidth matching)) as [v|] eqn:Hfind.
  - destruct (find_first_wide_enough _ _ _ Hsorted Hfind) as (Hv & Htw & Hmin).
    apply Hmem in Hv as [Hv Hf]. exists entry, v. repeat split; try done.
    left. split; [done|]. intros u Hu Hfu. apply Hmin. by apply Hmem.
  - pose proof (find_none_wide_enough _ _ Hfind) as Hnarrow.
    destruct (last (sortByWidth matching)) as [v|] eqn:Hlast; simpl.
    + destruct (last_of_sorted _ _ Hsorted Hlast) as [Hv Hmax].
      apply Hmem in Hv as [Hv Hf]. exists entry, v. repeat split; try done.
      right. intros u Hu Hfu. assert (u ∈ sortByWidth matching) by (by apply Hmem).
      split; [by apply Hnarrow|by apply Hmax].
    + right. exists entry. split; [done|]. intros u Hu Hfu.
      apply last_None in Hlast.
      assert (u ∈ sortByWidth matching) as Hin by (by apply Hmem).
      rewrite Hlast in Hin. by apply elem_of_nil in Hin.
Qed.

Lemma format_name_inj f g : format_name f = format_name g → f = g.
Proof. by destruct f, g. Qed.

Lemma filter_variantOf_format p f (xs : list (Z * Z * Format)) :
  filter (λ v, v_format v = format_name f) (variantOf p <$> xs) =
  variantOf p <$> filter (λ x, format_name x.2 = format_name f) xs.
Proof.
  induction xs as [|x xs IH]; [done|].
  rewrite fmap_cons, !filter_cons, IH.
  repeat case_decide; done.
Qed.

Lemma filter_one_format (w h : Z) f fmts :
  NoDup fmts → f ∈ fmts →
  filter (λ x : Z * Z * Format, format_name x.2 = format_name f)
    ((λ g, (w, h, g)) <$> fmts) = [(w, h, f)].
Proof.
  induction 1 as [|g fmts Hg Hnd IH].
  - by intros ?%elem_of_nil.
  - rewrite fmap_cons, filter_cons. simpl.
    intros [->|Hf]%elem_of_cons.
    + rewrite decide_True by done. f_equal.
      clear IH. induction fmts as [|g' fmts IH']; [done|].
      rewrite fmap_cons, filter_cons. simpl.
      rewrite decide_False;
        [|intros ->%format_name_inj; apply Hg; by left].
      apply IH'.
      * intros ?. apply Hg. by right.
      * by apply NoDup_cons in Hnd as [_ ?].
    + rewrite decide_False; [by apply IH|].
      intros ->%format_name_inj. done.
Qed.

Lemma filter_planFor_format f fmts ow oh widths :
  NoDup fmts → f ∈ fmts →
  filter (λ x : Z * Z * Format, format_name x.2 = format_name f)
    (planFor fmts ow oh widths) =
  (λ w, (w, targetHeightOf w ow oh, f)) <$> filter (λ w, w ≤ ow) widths.
Proof.
  intros Hnd Hf. unfold planFor.
  induction widths as [|w widths IH]; [done|].
  simpl. rewrite filter_app, IH, filter_cons.
  destruct (w >? ow) eqn:Hgt.
  - rewrite Z.gtb_ltb in Hgt. apply Z.ltb_lt in Hgt.
    rewrite decide_False by lia. done.
  - rewrite Z.gtb_ltb in Hgt. apply Z.ltb_ge in Hgt.
    rewrite decide_True by lia. by rewrite filter_one_format.
Qed.

(** X26.  After an Original was processed, [getSrcSet] for a configured format
    lists one candidate for every configured width that is not wider than
    the Original, in the order of the configuration, naming the file
    [getOutputFilename] gives it. *)
Theorem getSrcSet_after_processing W cfg now p st ow oh f :
  settled W cfg now p st →
  probe W p = Dimensions ow oh →
  NoDup (formats cfg) → f ∈ formats cfg →
  getSrcSet (manifest st) p (format_name f) =
  Returned
    (join ", "
       ((λ w, getOutputFilename p w (format_name f) +:+ " " +:+ pretty w +:+ "w")
          <$> filter (λ w, w ≤ ow) (sizes cfg))).
Proof.
  intros Hset Hprobe Hnd Hf. destruct (Hset ow oh Hprobe) as [Hentry _].
  unfold getSrcSet, imagesAt. rewrite Hentry. simpl. f_equal. f_equal.
  rewrite filter_variantOf_format. unfold plan.
  rewrite (filter_planFor_format f _ ow oh _ Hnd Hf).
  rewrite <- !list_fmap_compose. done.
Qed.

Lemma getSrcSet_after_processing_witness :
  let W := calm_world {[ "a.jpg" := image_file 100 500 300 ]} in
  let cfg := config_with [webp; avif] [320; 640; 480] in
  let st := (processImage W cfg 1000 "a.jpg" initial_state).2 in
  getSrcSet (manifest st) "a.jpg" (format_name avif) =
  Returned
    (join ", "
       ((λ w, getOutputFilename "a.jpg" w (format_name avif) +:+ " " +:+ pretty w +:+ "w")
          <$> filter (λ w, w ≤ 500) (sizes cfg))).
Proof.
  apply (getSrcSet_after_processing
           (calm_world {[ "a.jpg" := image_file 100 500 300 ]})
           (config_with [webp; avif] [320; 640; 480]) 1000 "a.jpg"
           (processImage (calm_world {[ "a.jpg" := image_file 100 500 300 ]})
              (config_with [webp; avif] [320; 640; 480]) 1000 "a.jpg" initial_state).2
           500 300 avif).
  - intros ow oh Hprobe. vm_compute in Hprobe. injection Hprobe as <- <-.
    split; [vm_compute; reflexivity|].
    intros x Hx. vm_compute in Hx.
    repeat (apply elem_of_cons in Hx as [->|Hx];
            [eexists; split; [vm_compute; reflexivity|intros Hs; discriminate Hs]|]).
    by apply elem_of_nil in Hx.
  - vm_compute. reflexivity.
  - simpl. apply NoDup_cons. split; [|apply NoDup_singleton].
    intros [Heq|Hin]%elem_of_cons; [discriminate Heq|by apply elem_of_nil in Hin].
  - simpl. right. by left.
Defined.

Lemma elem_of_uniq l x : x ∈ uniq l ↔ x ∈ l.
Proof.
  induction l as [|y l IH]; simpl; [done|]. split.
  - intros [->|Hx]%elem_of_cons; [by left|].
    apply list_elem_of_filter in Hx as [_ Hx]. right. by apply IH.
  - intros [->|Hx]%elem_of_cons; [by left|].
    destruct (decide (x = y)) as [->|Hne]; [by left|].
    right. apply list_elem_of_filter. split; [done|by apply IH].
Qed.

Lemma NoDup_uniq l : NoDup (uniq l).
Proof.
  induction l as [|y l IH]; simpl; [constructor|].
  constructor; [|by apply NoDup_filter].
  rewrite list_elem_of_filter. by intros [? _].
Qed.

Lemma length_uniq l : (length (uniq l) ≤ length l)%nat.
Proof.
  induction l as [|y l IH]; simpl; [done|].
  pose proof (length_filter (λ z, z ≠ y) (uniq l)). lia.
Qed.

Lemma image_type_inj s t : "image/" +:+ s = "image/" +:+ t → s = t.
Proof. intros H. injection H as H. exact H. Qed.

Lemma mapCompletion_returns {A B : Type} (f : A → Completion B) (g : A → B) l :
  (∀ x, f x = Returned (g x)) → mapCompletion f l = Returned (g <$> l).
Proof.
  intros Hf. induction l as [|x l IH]; [done|].
  simpl. by rewrite Hf, IH.
Qed.

(** X27.  [getPictureSources] gives one source per format of the entry: the types
    are pairwise different, there are at most as many as variants, and every
    variant finds the source of its format, whose [srcset] is the one
    [getSrcSet] computes. *)
Theorem getPictureSources_one_per_format manifest imagePath sizes entry :
  images manifest !! imagePath = Some entry →
  ∃ sources,
    getPictureSources manifest imagePath sizes = Returned sources ∧
    NoDup (ps_type <$> sources) ∧
    (length sources ≤ length (e_variants entry))%nat ∧
    ∀ v, v ∈ e_variants entry →
      ∃ srcset,
        getSrcSet manifest imagePath (v_format v) = Returned srcset ∧
        mkPictureSource srcset ("image/" +:+ v_format v) ∈ sources.
Proof.
  intros Hentry.
  set (srcsetOf := λ format,
         join ", " (srcsetItem <$> filter (λ v, v_format v = format) (e_variants entry))).
  assert (∀ format, getSrcSet manifest imagePath format = Returned (srcsetOf format))
    as Hsrcset by (intros format; unfold getSrcSet, imagesAt; by rewrite Hentry).
  exists ((λ format, mkPictureSource (srcsetOf format) ("image/" +:+ format))
            <$> uniq (v_format <$> e_variants entry)).
  split.
  { unfold getPictureSources, imagesAt. rewrite Hentry.
    apply mapCompletion_returns. intros format. by rewrite Hsrcset. }
  split; [|split].
  - rewrite <- list_fmap_compose.
    assert (Inj (=) (=) (λ format, "image/" +:+ format)) as Hinj
      by (intros s t; apply image_type_inj).
    apply (NoDup_fmap_2 (λ format, "image/" +:+ format)), NoDup_uniq.
  - rewrite length_fmap. etrans; [apply length_uniq|]. by rewrite length_fmap.
  - intros v Hv. exists (srcsetOf (v_format v)). split; [apply Hsrcset|].
    apply (list_elem_of_fmap_2
             (λ format, mkPictureSource (srcsetOf format) ("image/" +:+ format))).
    apply elem_of_uniq. by apply list_elem_of_fmap_2.
Qed.

Lemma getPictureSources_one_per_format_witness :
  let v1 := mkVariant "webp" 320 "a-320w.webp" 320 192 in
  let v2 := mkVariant "avif" 320 "a-320w.avif" 320 192 in
  let v3 := mkVariant "webp" 480 "a-480w.webp" 480 288 in
  let entry := mkEntry "a.jpg" 500 300 [v1; v2; v3] in
  let manifest := mkManifest 0 {[ "a.jpg" := entry ]} in
  ∃ sources,
    getPictureSources manifest "a.jpg" "100vw" = Returned sources ∧
    NoDup (ps_type <$> sources) ∧
    (length sources ≤ length (e_variants entry))%nat ∧
    ∀ v, v ∈ e_variants entry →
      ∃ srcset,
        getSrcSet manifest "a.jpg" (v_format v) = Returned srcset ∧
        mkPictureSource srcset ("image/" +:+ v_format v) ∈ sources.
Proof.
  apply (getPictureSources_one_per_format
           (mkManifest 0 {[ "a.jpg" :=
              mkEntry "a.jpg" 500 300
                [mkVariant "webp" 320 "a-320w.webp" 320 192;
                 mkVariant "avif" 320 "a-320w.avif" 320 192;
                 mkVariant "webp" 480 "a-480w.webp" 480 288] ]})
           "a.jpg" "100vw").
  reflexivity.
Defined.

(** ** Imported images *)

Lemma find_exact_is_first_wide_enough size l v :
  sortedByWidth l →
  find (λ v, bool_decide (v_width v = size)) l = Some v →
  find (λ v, bool_decide (size ≤ v_width v)) l = Some v.
Proof.
  induction l as [|w l IH]; simpl; [done|]. intros [Hw Hl].
  case_bool_decide as Heq.
  - intros [= ->]. rewrite bool_decide_eq_true_2 by lia. done.
  - intros Hfind. case_bool_decide as Hle; [|by apply IH].
    exfalso. apply find_some in Hfind as [Hv Hsize].
    apply bool_decide_eq_true in Hsize.
    apply list_elem_of_In in Hv. specialize (Hw v Hv). lia.
Qed.

(** X28.  For a size other than 0, the method [src] of an imported image and the
    helper [getOptimalSrc] choose the same file: [src] is the public path,
    a slash, and the helper's answer, or the Original when the helper has
    none. *)
Theorem moduleSrc_agrees_with_getOptimalSrc manifest imagePath entry publicPath
    size format :
  images manifest !! imagePath = Some entry →
  size ≠ 0 →
  ∃ answer,
    getOptimalSrc manifest imagePath size format = Returned answer ∧
    moduleSrc (e_variants entry) publicPath imagePath (Some size) format =
    publicPath +:+ "/" +:+ default imagePath answer.
Proof.
  intros Hentry Hsize. unfold moduleSrc, getOptimalSrc, imagesAt. rewrite Hentry.
  apply Z.eqb_neq in Hsize. rewrite Hsize. simpl.
  set (sorted := sortByWidth (filter (λ v, v_format v = format) (e_variants entry))).
  pose proof (sortByWidth_sorted (filter (λ v, v_format v = format) (e_variants entry)))
    as Hsorted. fold sorted in Hsorted.
  destruct (find (λ v, bool_decide (v_width v = size)) sorted) as [exact|] eqn:Hexact.
  - rewrite (find_exact_is_first_wide_enough _ _ _ Hsorted Hexact). by eexists.
  - destruct (find (λ v, bool_decide (size ≤ v_width v)) sorted); [by eexists|].
    eexists. split; [done|]. by destruct (last sorted).
Qed.

Lemma moduleSrc_agrees_with_getOptimalSrc_witness :
  let entry := mkEntry "a.jpg" 500 300
                 [mkVariant "webp" 480 "a-480w.webp" 480 288;
                  mkVariant "webp" 320 "a-320w.webp" 320 192] in
  let manifest := mkManifest 0 {[ "a.jpg" := entry ]} in
  ∃ answer,
    getOptimalSrc manifest "a.jpg" 400 "webp" = Returned answer ∧
    moduleSrc (e_variants entry) "/optimized" "a.jpg" (Some 400) "webp" =
    "/optimized" +:+ "/" +:+ default "a.jpg" answer.
Proof.
  apply (moduleSrc_agrees_with_getOptimalSrc
           (mkManifest 0 {[ "a.jpg" :=
              mkEntry "a.jpg" 500 300
                [mkVariant "webp" 480 "a-480w.webp" 480 288;
                 mkVariant "webp" 320 "a-320w.webp" 320 192] ]})
           "a.jpg"
           (mkEntry "a.jpg" 500 300
              [mkVariant "webp" 480 "a-480w.webp" 480 288;
               mkVariant "webp" 320 "a-320w.webp" 320 192])
           "/optimized" 400 "webp").
  - reflexivity.
  - lia.
Defined.

(** ** Client-side URLs *)

Lemma collapse_from_clean b t :
  Forall (λ a, a ≠ "/"%char) (chars t) → collapse_from b t = t.
Proof.
  revert b. induction t as [|c t IHt]; intros b Ht; [done|].
  apply Forall_cons in Ht as [Hc Ht]. simpl.
  destruct (Ascii.eqb c "/") eqn:Heq; [by apply Ascii.eqb_eq in Heq|].
  f_equal. by apply IHt.
Qed.

Lemma collapse_from_app_clean b s t :
  Forall (λ a, a ≠ "/"%char) (chars t) →
  collapse_from b (s +:+ t) = collapse_from b s +:+ t.
Proof.
  intros Ht. revert b. induction s as [|a s IH]; intros b.
  - by apply collapse_from_clean.
  - change (String a s +:+ t) with (String a (s +:+ t)). simpl.
    destruct (Ascii.eqb a "/"); [destruct b|]; simpl; by rewrite IH.
Qed.

Lemma digit_is_no_slash a : is_digit a = true → a ≠ "/"%char.
Proof. by intros Hd ->. Qed.

Lemma buildVariantUrl_of_clean_stem stem width f publicPath :
  collapseSlashes (publicPath +:+ "/" +:+ stem) = publicPath +:+ "/" +:+ stem →
  0 ≤ width →
  buildVariantUrl stem width (format_name f) publicPath =
  publicPath +:+ "/" +:+ stem +:+ "-" +:+ pretty width +:+ "w." +:+ format_name f.
Proof.
  intros Hclean Hw. unfold buildVariantUrl, collapseSlashes.
  set (t := "-" +:+ pretty width +:+ "w." +:+ format_name f).
  replace (publicPath +:+ "/" +:+ stem +:+ t)
    with ((publicPath +:+ "/" +:+ stem) +:+ t)
    by (by rewrite !string_app_assoc).
  rewrite collapse_from_app_clean.
  - fold (collapseSlashes (publicPath +:+ "/" +:+ stem)). by rewrite Hclean.
  - subst t. destruct (pretty_nonneg_digits width Hw) as [_ Hdigits].
    unfold chars in *. change ("-" +:+ pretty width +:+ "w." +:+ format_name f)
      with (String "-" (pretty width +:+ "w." +:+ format_name f)).
    simpl. constructor; [done|].
    rewrite chars_app. apply Forall_app. split.
    + eapply Forall_impl; [exact Hdigits|]. intros a. apply digit_is_no_slash.
    + destruct f; vm_compute; repeat constructor; discriminate.
Qed.

(** X29.  The client names a variant as the generator does: when the public path
    and the base name are made of plain segments, which the URL parser
    leaves as they are, and contain no run of slashes, the path that the
    route cuts out of the [pathname] of [buildVariantUrl]'s result is the
    name [getOutputFilename] gives the file. *)
Theorem buildVariantUrl_names_the_output stem ext width f publicPath :
  url_plain (publicPath +:+ "/" +:+ stem) = true →
  collapseSlashes (publicPath +:+ "/" +:+ stem) = publicPath +:+ "/" +:+ stem →
  lastIndexOf ext "." = -1 →
  0 ≤ width →
  ∃ pathname,
    pathnameOf (buildVariantUrl stem width (format_name f) publicPath) = Some pathname ∧
    relativePathOf publicPath pathname =
    getOutputFilename (stem +:+ "." +:+ ext) width (format_name f).
Proof.
  intros Hplain Hclean Hext Hw.
  rewrite (buildVariantUrl_of_clean_stem _ _ _ _ Hclean Hw).
  rewrite (getOutputFilename_strips_extension _ _ _ _ Hext).
  exists (publicPath +:+ "/" +:+ stem +:+ "-" +:+ pretty width +:+ "w." +:+
            format_name f).
  split; [|apply relativePathOf_public].
  unfold pathnameOf.
  replace (publicPath +:+ "/" +:+ stem +:+ "-" +:+ pretty width +:+ "w." +:+
             format_name f)
    with ((publicPath +:+ "/" +:+ stem) +:+
            ("-" +:+ pretty width +:+ "w." +:+ format_name f)) at 1
    by (by rewrite !string_app_assoc).
  rewrite url_plain_app; [done|done|].
  intros b. by apply variant_suffix_plain.
Qed.

Lemma buildVariantUrl_names_the_output_witness :
  ∃ pathname,
    pathnameOf (buildVariantUrl "photos/hero" 640 (format_name webp) "/optimized") =
      Some pathname ∧
    relativePathOf "/optimized" pathname =
    getOutputFilename ("photos/hero" +:+ "." +:+ "jpg") 640 (format_name webp).
Proof.
  apply (buildVariantUrl_names_the_output "photos/hero" "jpg" 640 webp "/optimized").
  - reflexivity.
  - reflexivity.
  - reflexivity.
  - lia.
Defined.

Lemma collapse_from_no_leading_slash s r :
  collapse_from true s ≠ String "/" r.
Proof.
  induction s as [|a s IH]; simpl; [done|].
  destruct (Ascii.eqb a "/") eqn:Ha; [done|].
  intros [= -> _]. done.
Qed.

Lemma collapse_from_no_slash_run s b s1 s2 :
  collapse_from b s ≠ s1 +:+ "//" +:+ s2.
Proof.
  revert b s1. induction s as [|a s IH]; intros b s1; simpl.
  - by destruct s1.
  - destruct (Ascii.eqb a "/") eqn:Ha.
    + destruct b; [apply IH|].
      destruct s1 as [|c s1].
      * intros [= Hrest]. by apply collapse_from_no_leading_slash in Hrest.
      * intros [= _ Hrest]. by apply IH in Hrest.
    + destruct s1 as [|c s1].
      * intros [= -> _]. done.
      * intros [= _ Hrest]. by apply IH in Hrest.
Qed.

(** X30.  Whatever its arguments are, the result of [buildVariantUrl] contains no
    two slashes in a row: a public path given as an absolute URL does not
    keep the [//] after its scheme. *)
Theorem buildVariantUrl_has_no_slash_run baseName width format publicPath s1 s2 :
  buildVariantUrl baseName width format publicPath ≠ s1 +:+ "//" +:+ s2.
Proof. unfold buildVariantUrl, collapseSlashes. apply collapse_from_no_slash_run. Qed.
